(** * Triplet recommendations (PyTorch notebooks): model, losses, batching,
      negative sampling and AUC evaluation.

    Shallow embedding of the notebooks' Python code.  Tensor entries are
    modelled as real numbers ([R]), extended with the IEEE special values
    where the code can produce them ([tfloat]); the two losses are also
    modelled on float32 entries, every operation rounded ([F32]); integer
    ids and counters are [Z]; arrays are lists; a call that raises has the
    result [None]; the state of [np.random] is passed explicitly. *)

From Stdlib Require Import ZArith List Bool Lia Reals Lra Permutation.
From Stdlib Require String.
From Equations Require Import Equations.
Import ListNotations.

Local Open Scope Z_scope.

(** ** Floating values with the IEEE special cases *)

Module Float.

Local Open Scope R_scope.

(** A tensor entry after an operation that may leave the reals. *)
Inductive tfloat : Type :=
| Finite (r : R)
| PosInf
| NegInf
| NaN.

Definition is_finite (x : tfloat) : Prop :=
  match x with Finite _ => True | _ => False end.

(** [x / y] on floats (signed zeros are not distinguished; a zero divisor
    is taken as +0, which is what [np.log(1)] yields). *)
Definition tdiv (x y : tfloat) : tfloat :=
  match x, y with
  | NaN, _ | _, NaN => NaN
  | Finite a, Finite b =>
      if Req_dec_T b 0 then
        (if Rlt_dec 0 a then PosInf
         else if Rlt_dec a 0 then NegInf else NaN)
      else Finite (a / b)
  | Finite _, (PosInf | NegInf) => Finite 0
  | PosInf, Finite b => if Rlt_dec b 0 then NegInf else PosInf
  | NegInf, Finite b => if Rlt_dec b 0 then PosInf else NegInf
  | (PosInf | NegInf), (PosInf | NegInf) => NaN
  end.

(** [torch.floor]. *)
Definition floor (x : tfloat) : tfloat :=
  match x with
  | Finite r => Finite (IZR (Zfloor r))
  | other => other
  end.

(** [torch.log] / [np.log]: minus infinity at 0, NaN below 0. *)
Definition log (x : tfloat) : tfloat :=
  match x with
  | Finite r =>
      if Rlt_dec 0 r then Finite (ln r)
      else if Req_dec_T r 0 then NegInf else NaN
  | PosInf => PosInf
  | NegInf | NaN => NaN
  end.

(** [torch.sigmoid], in exact arithmetic. *)
Definition sigmoid (x : R) : R := 1 / (1 + exp (- x)).

(** [torch.clamp(x, min=lo)], in exact arithmetic. *)
Definition clamp_min (x lo : R) : R := if Rlt_dec x lo then lo else x.

End Float.

(** ** Float32 arithmetic

    The scores of the model and the losses computed from them are float32
    tensors: every operation returns its exact result rounded to the
    nearest float32 value, ties to even, and overflows to an infinity.
    Signed zeros are not distinguished. *)

Module F32.

Import Float.
Local Open Scope R_scope.

(** [2^e]. *)
Definition bpow (e : Z) : R := powerRZ 2 e.

(** The binade of [x]: the [e] with [2^e <= |x| < 2^(e+1)]. *)
Definition mag (x : R) : Z := Zfloor (ln (Rabs x) / ln 2).

(** The exponent of the smallest normal number. *)
Definition emin : Z := (-126)%Z.

(** The exponent of the spacing of the float32 values around [x]: 24
    significant bits, gradual underflow below [2^emin]. *)
Definition quantum_exp (x : R) : Z := (Z.max (mag x) emin - 23)%Z.

(** The integer nearest to [q], the even one on a tie. *)
Definition rne (q : R) : Z :=
  let f := Zfloor q in
  if Rlt_dec (q - IZR f) (1 / 2) then f
  else if Rlt_dec (1 / 2) (q - IZR f) then (f + 1)%Z
  else if Z.even f then f else (f + 1)%Z.

(** Rounding to nearest, ties to even, before the range is checked (at 0,
    where [ln] is 0 by convention, every spacing gives 0). *)
Definition round (x : R) : R :=
  IZR (rne (x / bpow (quantum_exp x))) * bpow (quantum_exp x).

(** The float32 result of an operation whose exact result is [x]: a
    rounded value of magnitude [2^128] or more overflows. *)
Definition fl (x : R) : tfloat :=
  let r := round x in
  if Rle_dec (bpow 128) r then PosInf
  else if Rle_dec r (- bpow 128) then NegInf
  else Finite r.

(** [x] is a finite float32 value. *)
Definition is_float32 (x : R) : Prop := fl x = Finite x.

(** [x <= y] on floats; false when NaN takes part. *)
Definition le (x y : tfloat) : Prop :=
  match x, y with
  | NaN, _ | _, NaN => False
  | NegInf, _ | _, PosInf => True
  | Finite a, Finite b => a <= b
  | _, _ => False
  end.

(** [x + y]. *)
Definition fadd (x y : tfloat) : tfloat :=
  match x, y with
  | NaN, _ | _, NaN => NaN
  | Finite a, Finite b => fl (a + b)
  | PosInf, NegInf | NegInf, PosInf => NaN
  | PosInf, _ | _, PosInf => PosInf
  | NegInf, _ | _, NegInf => NegInf
  end.

(** [x - y]. *)
Definition fsub (x y : tfloat) : tfloat :=
  match x, y with
  | NaN, _ | _, NaN => NaN
  | Finite a, Finite b => fl (a - b)
  | PosInf, PosInf | NegInf, NegInf => NaN
  | PosInf, _ | _, NegInf => PosInf
  | NegInf, _ | _, PosInf => NegInf
  end.

(** [x / y] (signed zeros are not distinguished: a zero divisor is taken
    as +0). *)
Definition fdiv (x y : tfloat) : tfloat :=
  match x, y with
  | NaN, _ | _, NaN => NaN
  | Finite a, Finite b =>
      if Req_dec_T b 0 then
        (if Rlt_dec 0 a then PosInf
         else if Rlt_dec a 0 then NegInf else NaN)
      else fl (a / b)
  | Finite _, (PosInf | NegInf) => Finite 0
  | PosInf, Finite b => if Rlt_dec b 0 then NegInf else PosInf
  | NegInf, Finite b => if Rlt_dec b 0 then PosInf else NegInf
  | (PosInf | NegInf), (PosInf | NegInf) => NaN
  end.

(** [-x]. *)
Definition fneg (x : tfloat) : tfloat :=
  match x with
  | Finite a => Finite (- a)
  | PosInf => NegInf
  | NegInf => PosInf
  | NaN => NaN
  end.

(** [exp] on a float32 number is a routine of the library and a parameter
    [expf] of what follows.  It is faithful when its result is never on
    the wrong side of a float32 number that bounds the exact value: the
    result is then the exact value where that is a float32 number, and one
    of its two float32 neighbours elsewhere. *)
Definition exp_faithful (expf : R -> tfloat) : Prop :=
  forall x b : R,
    is_float32 b ->
    (b <= exp x -> le (Finite b) (expf x)) /\
    (exp x <= b -> le (expf x) (Finite b)).

(** It is monotone when a larger argument never gives a smaller result. *)
Definition exp_monotone (expf : R -> tfloat) : Prop :=
  forall x y : R, x <= y -> le (expf x) (expf y).

(** The correctly rounded exponential. *)
Definition exp_rn (x : R) : tfloat := fl (exp x).

(** [exp(x)] on a tensor entry. *)
Definition fexp (expf : R -> tfloat) (x : tfloat) : tfloat :=
  match x with
  | Finite a => expf a
  | PosInf => PosInf
  | NegInf => Finite 0
  | NaN => NaN
  end.

(** [x > y]; false when NaN takes part. *)
Definition gtb (x y : tfloat) : bool :=
  match x, y with
  | NaN, _ | _, NaN => false
  | Finite a, Finite b => if Rlt_dec b a then true else false
  | PosInf, PosInf | NegInf, _ | Finite _, PosInf => false
  | PosInf, _ | Finite _, NegInf => true
  end.

(** [torch.sigmoid] on a float32 tensor entry, a routine of the library:
    [1 / (1 + exp(-x))], every step in float32. *)
Definition sigmoid (expf : R -> tfloat) (x : tfloat) : tfloat :=
  fdiv (Finite 1) (fadd (Finite 1) (fexp expf (fneg x))).

(** [torch.clamp(x, min=lo)]. *)
Definition clamp_min (x : tfloat) (lo : R) : tfloat :=
  match x with
  | Finite r => if Rlt_dec r lo then Finite lo else Finite r
  | PosInf => PosInf
  | NegInf => Finite lo
  | NaN => NaN
  end.

End F32.

(** ** The losses: [TripletLoss] *)

Module TripletLoss.

Import Float.
Local Open Scope R_scope.

(** The argument handed to [torch.log] inside [warp_weight]:
    [torch.floor((self.n_items-1)/nsamp)]. *)
Definition warp_log_arg (n_items nsamp : Z) : tfloat :=
  floor (tdiv (Finite (IZR (n_items - 1))) (Finite (IZR nsamp))).

(** [TripletLoss.warp_weight], for one entry [nsamp] of the attempt-count
    tensor. *)
Definition warp_weight (n_items nsamp : Z) : tfloat :=
  tdiv (log (warp_log_arg n_items nsamp)) (log (Finite (IZR n_items))).

(** [TripletLoss.forward_sigmoid], entry-wise, in exact arithmetic: what
    the float32 computation of [TripletLoss32] rounds. *)
Definition forward_sigmoid (pos_pred neg_pred : R) : R :=
  1 - sigmoid (pos_pred - neg_pred).

(** [TripletLoss.forward_hinge], entry-wise, in exact arithmetic. *)
Definition forward_hinge (pos_pred neg_pred : R) : R :=
  clamp_min (1 + neg_pred - pos_pred) 0.

End TripletLoss.

(** ** The losses on float32 tensors *)

Module TripletLoss32.

Import Float F32.
Local Open Scope R_scope.

(** [TripletLoss.forward_sigmoid] on float32 entries:
    [1.0 - torch.sigmoid(pos_pred - neg_pred)], for the library's
    exponential [expf]. *)
Definition forward_sigmoid (expf : R -> tfloat) (pos_pred neg_pred : tfloat)
  : tfloat :=
  fsub (Finite 1) (sigmoid expf (fsub pos_pred neg_pred)).

(** [TripletLoss.forward_hinge] on float32 entries:
    [torch.clamp(1.0 + neg_pred - pos_pred, min=0.0)]. *)
Definition forward_hinge (pos_pred neg_pred : tfloat) : tfloat :=
  clamp_min (fsub (fadd (Finite 1) neg_pred) pos_pred) 0.

End TripletLoss32.

(** ** Python values shared by the components *)

Module Py.

(** Exceptions are not told apart: [None] stands for a raised exception. *)
Definition bind {A B : Type} (m : option A) (k : A -> option B) : option B :=
  match m with
  | Some a => k a
  | None => None
  end.

Definition len {A : Type} (a : list A) : Z := Z.of_nat (length a).

(** [a[i]] on a numpy array: a negative index counts from the end, an
    index outside [[-len, len)] raises [IndexError]. *)
Definition np_index {A : Type} (a : list A) (i : Z) : option A :=
  if (0 <=? i) && (i <? len a) then nth_error a (Z.to_nat i)
  else if (- len a <=? i) && (i <? 0) then nth_error a (Z.to_nat (i + len a))
  else None.

(** A slice bound brought into [[0, len]] the way Python does. *)
Definition slice_bound (n k : Z) : Z :=
  if k <? 0 then Z.max (k + n) 0 else Z.min k n.

(** [a[start:stop]]. *)
Definition slice {A : Type} (a : list A) (start stop : Z) : list A :=
  let s := slice_bound (len a) start in
  let e := slice_bound (len a) stop in
  firstn (Z.to_nat (e - s)) (skipn (Z.to_nat s) a).

(** [x in a] on an array of integers. *)
Definition contains (a : list Z) (x : Z) : bool := existsb (Z.eqb x) a.

(** [np.arange(n)]. *)
Definition arange (n : Z) : list Z := map Z.of_nat (seq 0 (Z.to_nat n)).

(** [[x] * n]. *)
Definition replicate {A : Type} (x : A) (n : Z) : list A := repeat x (Z.to_nat n).

End Py.

Declare Scope py_scope.
Notation "x <- m ;; k" := (Py.bind m (fun x => k))
  (at level 61, m at next level, right associativity) : py_scope.

(** ** The model: [FactNet] *)

Module FactNet.

Local Open Scope py_scope.

(** A 2-d tensor is a list of rows. *)
Definition tensor2 : Type := list (list R).

Record t : Type := mk {
  n_users : Z;
  n_items : Z;
  n_latent : Z;
  user_embedding_layer : tensor2;
  item_embedding_layer : tensor2   (* both pos and neg items share these params *)
}.

(** [nn.Embedding.__call__]: one row of the weight per id; an id outside
    the table raises. *)
Fixpoint embedding (weight : tensor2) (ids : list Z) : option tensor2 :=
  match ids with
  | [] => Some []
  | i :: rest =>
      row <- (if i <? 0 then None else nth_error weight (Z.to_nat i)) ;;
      rows <- embedding weight rest ;;
      Some (row :: rows)
  end.

(** Sum of the entry-wise products of two rows of one width. *)
Fixpoint row_dot (u v : list R) : option R :=
  match u, v with
  | [], [] => Some 0%R
  | x :: u', y :: v' => s <- row_dot u' v' ;; Some (x * y + s)%R
  | _, _ => None
  end.

(** [(a * b).sum(dim=1)] for two tensors of one shape (a shape mismatch
    raises). *)
Fixpoint mul_sum (a b : tensor2) : option (list R) :=
  match a, b with
  | [], [] => Some []
  | u :: a', v :: b' =>
      s <- row_dot u v ;;
      rest <- mul_sum a' b' ;;
      Some (s :: rest)
  | _, _ => None
  end.

(** [FactNet.predict_score]. *)
Definition predict_score (self : t) (uid iid : list Z) : option (list R) :=
  user_embedding <- embedding (user_embedding_layer self) uid ;;
  item_embedding <- embedding (item_embedding_layer self) iid ;;
  mul_sum user_embedding item_embedding.

(** [FactNet.forward]. *)
Definition forward (self : t) (uid pid nid : list Z)
  : option (list R * list R) :=
  user_embedding <- embedding (user_embedding_layer self) uid ;;
  pos_item_embedding <- embedding (item_embedding_layer self) pid ;;
  neg_item_embedding <- embedding (item_embedding_layer self) nid ;;
  pos_pred <- mul_sum user_embedding pos_item_embedding ;;
  neg_pred <- mul_sum user_embedding neg_item_embedding ;;
  Some (pos_pred, neg_pred).

End FactNet.

(** ** Mini-batches: [batcher] *)

Module Batcher.

Section WithElem.
Context {A : Type}.

(** [itertools.islice(it, n)] consumed by [tuple]: the chunk taken and the
    iterator's remaining items. *)
Definition islice (it : list A) (n : nat) : list A * list A :=
  (firstn n it, skipn n it).

Lemma islice_shrinks (it : list A) (n : nat) x chunk :
  firstn n it = x :: chunk -> (length (skipn n it) < length it)%nat.
Proof.
  intros H.
  destruct n as [|n]; [discriminate|].
  destruct it as [|a it]; [discriminate|].
  simpl. rewrite length_skipn. lia.
Qed.

(** A value together with the equation that it is what was computed. *)
Definition inspect {B : Type} (b : B) : {b' : B | b = b'} :=
  exist _ b eq_refl.

(** The [while True] loop of [batcher], returning the chunks it yields in
    order; it stops at the first empty chunk. *)
Equations? batcher_loop (it : list A) (n : nat) : list (list A)
  by wf (length it) lt :=
  batcher_loop it n with inspect (islice it n) := {
    | exist _ ([], _) _ := [];
    | exist _ (x :: chunk, rest) e := (x :: chunk) :: batcher_loop rest n }.
Proof. eapply islice_shrinks; eauto. Qed.

(** [batcher(iterable, batch_size)]: the chunks yielded, or [None] when
    [islice] rejects a negative size. *)
Definition batcher (iterable : list A) (batch_size : Z)
  : option (list (list A)) :=
  if batch_size <? 0 then None
  else Some (batcher_loop iterable (Z.to_nat batch_size)).

End WithElem.

End Batcher.

(** ** Sparse interaction matrices and the random source *)

Module Sparse.

(** A [scipy.sparse.csr_matrix]: row [i] holds the column ids
    [indices[indptr[i]:indptr[i+1]]] with the values at the same places of
    [data]. *)
Record csr_matrix : Type := mk {
  shape : Z * Z;
  indptr : list Z;
  indices : list Z;
  data : list Z
}.

End Sparse.

Module Random.

(** The state of [np.random]: the values it is going to hand out, and how
    many were handed out so far. *)
Record state : Type := mk {
  tape : nat -> Z;
  cursor : nat
}.

(** [np.random.randint(low, high)]: raises when the range is empty. *)
Definition randint (low high : Z) (g : state) : option Z * state :=
  if low <? high then (Some (tape g (cursor g)), mk (tape g) (S (cursor g)))
  else (None, g).

(** The library's contract: every value handed out lies in [[low, high)]. *)
Definition draws_in (low high : Z) (g : state) : Prop :=
  forall k : nat, low <= tape g k < high.

End Random.

(** ** Negative sampling: [get_row_nz], [sample_neg] *)

Module Sampler.

Import Py Sparse.
Local Open Scope py_scope.

(** [get_row_nz]. *)
Definition get_row_nz (csr_mat : csr_matrix) (col_ind : Z) : option (list Z) :=
  start_idx <- np_index (indptr csr_mat) col_ind ;;
  stop_idx <- np_index (indptr csr_mat) (col_ind + 1) ;;
  Some (slice (indices csr_mat) start_idx stop_idx).

(** The two nested tests that guard the [break]. *)
Definition accepted (user_pos_item_inds : list Z) (violating_cond : Z -> bool)
  (neg_item_ind : Z) : bool :=
  if negb (contains user_pos_item_inds neg_item_ind)
  then (if violating_cond neg_item_ind then true else false)
  else false.

(** The [while n_sampled < max_samples] loop of [sample_neg] followed by
    its [return]; [neg_item_ind] is [None] while the local is unbound, and
    the result is [None] when [randint] raises or the unbound local is
    returned.  [n_items] is the notebook's global; [violating_cond] is a
    pure test of the candidate. *)
Equations? sample_loop (n_items : Z) (user_pos_item_inds : list Z)
  (violating_cond : Z -> bool) (max_samples : Z)
  (neg_item_ind : option Z) (n_sampled : Z) (g : Random.state)
  : option (Z * Z) * Random.state
  by wf (Z.to_nat (max_samples - n_sampled)) lt :=
  sample_loop n_items pos cond max_samples neg n_sampled g
    with Z_lt_dec n_sampled max_samples := {
    | right _ := (d <- neg ;; Some (d, n_sampled), g)
    | left _ with Random.randint 0 n_items g := {
      | (None, g') := (None, g')
      | (Some d, g') with accepted pos cond d := {
        | true := (Some (d, n_sampled + 1), g')
        | false :=
            sample_loop n_items pos cond max_samples (Some d) (n_sampled + 1) g' } } }.
Proof. lia. Qed.

(** [sample_neg(user_ind, interactions, max_samples, violating_cond)]. *)
Definition sample_neg (n_items : Z) (user_ind : Z) (interactions : csr_matrix)
  (max_samples : Z) (violating_cond : Z -> bool) (g : Random.state)
  : option (Z * Z) * Random.state :=
  match get_row_nz interactions user_ind with
  | None => (None, g)
  | Some user_pos_item_inds =>
      sample_loop n_items user_pos_item_inds violating_cond max_samples None 0 g
  end.

(** The defaults of the two keyword arguments. *)
Definition default_max_samples : Z := 100.
Definition default_violating_cond (neg_item_ind : Z) : bool := true.

End Sampler.

(** ** Evaluation: [full_auc] *)

Module Evaluator.

Import Py Sparse Float.
Local Open Scope py_scope.

(** [np.mean] of a list of scores: NaN on the empty list. *)
Definition np_mean (scores : list R) : tfloat :=
  match scores with
  | [] => NaN
  | _ => Finite (fold_right Rplus 0%R scores / IZR (len scores))
  end.

(** One row of the matrix, as met when iterating over it: its column ids
    and its values. *)
Definition getrow (m : csr_matrix) (i : Z) : option (list Z * list Z) :=
  start_idx <- np_index (indptr m) i ;;
  stop_idx <- np_index (indptr m) (i + 1) ;;
  Some (slice (indices m) start_idx stop_idx, slice (data m) start_idx stop_idx).

(** [row.indices[row.data == 1]]. *)
Definition true_pids (row : list Z * list Z) : list Z :=
  map fst (filter (fun jv => snd jv =? 1) (combine (fst row) (snd row))).

(** [row.toarray()[0].astype(bool)]: entries stored twice add up. *)
Definition dense_bool (no_items : Z) (row : list Z * list Z) : list bool :=
  map (fun j =>
         negb (fold_right Z.add 0
                 (map snd (filter (fun jv => fst jv =? j)
                                  (combine (fst row) (snd row)))) =? 0))
      (arange no_items).

Section WithRoc.

(** [sklearn.metrics.roc_auc_score], applied to the row's truth values and
    the (squeezed) predictions; [None] when it raises. *)
Variable roc_auc_score : list bool -> list R -> option R.

(** The [for user_id, row in enumerate(ground_truth)] loop, carrying the
    list [scores]. *)
Fixpoint auc_rows (net : FactNet.t) (ground_truth : csr_matrix)
  (no_items : Z) (pid_arr : list Z) (user_ids : list Z) (scores : list R)
  : option (list R) :=
  match user_ids with
  | [] => Some scores
  | user_id :: rest =>
      row <- getrow ground_truth user_id ;;
      let user_arr := replicate user_id (len pid_arr) in
      predictions <- FactNet.predict_score net user_arr pid_arr ;;
      if len (true_pids row) =? 0
      then auc_rows net ground_truth no_items pid_arr rest scores
      else
        s <- roc_auc_score (dense_bool no_items row) predictions ;;
        auc_rows net ground_truth no_items pid_arr rest (scores ++ [s])
  end.

(** [full_auc(net, ground_truth)]. *)
Definition full_auc (net : FactNet.t) (ground_truth : csr_matrix)
  : option tfloat :=
  let '(no_users, no_items) := shape ground_truth in
  let pid_arr := arange no_items in
  scores <- auc_rows net ground_truth no_items pid_arr (arange no_users) [] ;;
  Some (np_mean scores).

(** *** The loop in closed form *)

(** The test [if len(true_pids):] of the loop, as a function of the
    user. *)
Definition row_kept (ground_truth : csr_matrix) (user_id : Z) : bool :=
  match getrow ground_truth user_id with
  | Some row => negb (len (true_pids row) =? 0)
  | None => false
  end.

(** The ROC-AUC of one user over the whole catalog. *)
Definition user_auc (net : FactNet.t) (ground_truth : csr_matrix)
  (no_items : Z) (user_id : Z) : option R :=
  row <- getrow ground_truth user_id ;;
  predictions <- FactNet.predict_score net
                   (replicate user_id (len (arange no_items)))
                   (arange no_items) ;;
  roc_auc_score (dense_bool no_items row) predictions.

Fixpoint map_opt {X Y : Type} (f : X -> option Y) (xs : list X)
  : option (list Y) :=
  match xs with
  | [] => Some []
  | x :: rest => y <- f x ;; ys <- map_opt f rest ;; Some (y :: ys)
  end.

(** *** The evaluator in the spec's words

    "For each user row with at least one positive: compute the model's
    score for every item in the catalog against that user, form the binary
    ground-truth vector for that row, compute the ROC-AUC of scores
    against ground truth, and accumulate.  Users with zero positives are
    excluded from the average.  Returns the mean AUC over included users;
    returns an undefined/NaN result if no user qualifies."  These
    definitions follow that sentence, to be compared with [full_auc]:
    whether a user counts is read off the ground-truth vector, not off the
    stored entries, and the mean is written out anew. *)

(** The binary ground-truth vector of a user: one truth value for every
    item of the catalog. *)
Definition truth_vector (ground_truth : csr_matrix) (user_id : Z)
  : list bool :=
  match getrow ground_truth user_id with
  | Some row => dense_bool (snd (shape ground_truth)) row
  | None => []
  end.

(** The user's row has at least one positive. *)
Definition has_positive (ground_truth : csr_matrix) (user_id : Z) : bool :=
  existsb (fun truth => truth) (truth_vector ground_truth user_id).

(** The mean of the numbers, undefined when there is none. *)
Definition mean_or_nan (xs : list R) : tfloat :=
  match length xs with
  | O => NaN
  | S _ => Finite (fold_left Rplus xs 0%R / INR (length xs))
  end.

(** The mean AUC over the included users. *)
Definition full_auc_spec (net : FactNet.t) (ground_truth : csr_matrix)
  : option tfloat :=
  let '(no_users, no_items) := shape ground_truth in
  scores <- map_opt (user_auc net ground_truth no_items)
              (filter (has_positive ground_truth) (arange no_users)) ;;
  Some (mean_or_nan scores).

(** The stored entries of a row are zeros and ones in columns of the
    catalog. *)
Definition binary_row (no_items : Z) (row : list Z * list Z) : bool :=
  forallb (fun jv => (0 <=? fst jv) && (fst jv <? no_items)
                     && ((snd jv =? 0) || (snd jv =? 1)))
          (combine (fst row) (snd row)).

(** The matrix is a binary interaction matrix. *)
Definition binary (ground_truth : csr_matrix) : bool :=
  forallb (fun user_id =>
             match getrow ground_truth user_id with
             | Some row => binary_row (snd (shape ground_truth)) row
             | None => true
             end)
          (arange (fst (shape ground_truth))).

(** Every row of the matrix can be read and scored by the model (the
    matrix is well formed and the model's tables cover its shape). *)
Definition scorable (net : FactNet.t) (ground_truth : csr_matrix) : Prop :=
  forall user_id : Z,
    In user_id (arange (fst (shape ground_truth))) ->
    getrow ground_truth user_id <> None /\
    FactNet.predict_score net
      (replicate user_id (len (arange (snd (shape ground_truth)))))
      (arange (snd (shape ground_truth))) <> None.

End WithRoc.

End Evaluator.

(** ** Membership by binary search: [bsearch_membership] *)

Module Bisect.

Import Py Sparse.
Local Open Scope py_scope.

(** [(lo+hi)//2]. *)
Definition midpoint (lo hi : nat) : nat := ((lo + hi) / 2)%nat.

Lemma midpoint_between (lo hi : nat) :
  (lo < hi)%nat -> (lo <= midpoint lo hi < hi)%nat.
Proof.
  intros H. unfold midpoint.
  pose proof (Nat.div_mod_eq (lo + hi) 2) as E.
  pose proof (Nat.mod_upper_bound (lo + hi) 2 ltac:(lia)) as B.
  lia.
Qed.

Arguments midpoint : simpl never.

(** The loop of [bisect.bisect_left(a, x, lo, hi)]: halve [[lo, hi)] until
    it is empty, moving [lo] past every entry below [x]. *)
Equations? bisect_loop (a : list Z) (x : Z) (lo hi : nat) : option nat
  by wf (hi - lo)%nat lt :=
  bisect_loop a x lo hi with lt_dec lo hi := {
    | right _ := Some lo
    | left _ with nth_error a (midpoint lo hi) := {
      | None := None
      | Some v with Z_lt_dec v x := {
        | left _ := bisect_loop a x (S (midpoint lo hi)) hi
        | right _ := bisect_loop a x lo (midpoint lo hi) } } }.
Proof.
  all: pose proof (midpoint_between lo hi ltac:(assumption)); lia.
Qed.

(** [bisect_left(a, x)]. *)
Definition bisect_left (a : list Z) (x : Z) : option nat :=
  bisect_loop a x 0 (length a).

(** [bsearch_membership(csr_mat, row_ind, col_ind)]. *)
Definition bsearch_membership (csr_mat : csr_matrix) (row_ind col_ind : Z)
  : option bool :=
  start_idx <- np_index (indptr csr_mat) row_ind ;;
  stop_idx <- np_index (indptr csr_mat) (row_ind + 1) ;;
  let pos_vals := slice (indices csr_mat) start_idx stop_idx in
  insertion_index <- bisect_left pos_vals col_ind ;;
  if Z.of_nat insertion_index <? stop_idx - start_idx
  then v <- np_index pos_vals (Z.of_nat insertion_index) ;;
       Some (col_ind =? v)
  else Some false.

(** The column ids of a row come in ascending order, as scipy keeps them
    in a matrix with sorted indices. *)
Fixpoint ascending (a : list Z) : bool :=
  match a with
  | [] => true
  | x :: rest =>
      match rest with
      | [] => true
      | y :: _ => (x <=? y) && ascending rest
      end
  end.

(** The two row pointers of a row exist and delimit a part of [indices]. *)
Definition row_in_bounds (csr_mat : csr_matrix) (row_ind : Z) : bool :=
  match np_index (indptr csr_mat) row_ind,
        np_index (indptr csr_mat) (row_ind + 1) with
  | Some start_idx, Some stop_idx =>
      (0 <=? start_idx) && (start_idx <=? stop_idx)
      && (stop_idx <=? len (indices csr_mat))
  | _, _ => false
  end.

End Bisect.

(** ** Shapes of the embedding tables *)

Module Shape.

Import Py.

(** Every row of the table has [width] entries, as in a tensor. *)
Definition rectangular (width : nat) (table : FactNet.tensor2) : bool :=
  forallb (fun row => Nat.eqb (length row) width) table.

(** Every id names a row of the table. *)
Definition ids_within (table : FactNet.tensor2) (ids : list Z) : bool :=
  forallb (fun i => (0 <=? i) && (i <? len table)) ids.

(** The model with every user vector multiplied by [c]. *)
Definition scale_users (c : R) (net : FactNet.t) : FactNet.t :=
  {| FactNet.n_users := FactNet.n_users net;
     FactNet.n_items := FactNet.n_items net;
     FactNet.n_latent := FactNet.n_latent net;
     FactNet.user_embedding_layer :=
       map (map (Rmult c)) (FactNet.user_embedding_layer net);
     FactNet.item_embedding_layer := FactNet.item_embedding_layer net |}.

(** The model with every user vector negated. *)
Definition negate_users (net : FactNet.t) : FactNet.t :=
  scale_users (-1) net.

End Shape.

(** ** The epoch's batches *)

Module Training.

Import Py.
Local Open Scope py_scope.

(** [a[idx]] for an index array [idx]: an index outside [a] raises. *)
Fixpoint take {A : Type} (a : list A) (idx : list Z) : option (list A) :=
  match idx with
  | [] => Some []
  | i :: rest =>
      x <- np_index a i ;;
      xs <- take a rest ;;
      Some (x :: xs)
  end.

(** [batcher(a[shuffle_ind], batch_size)], run to its end. *)
Definition epoch_batches {A : Type} (a : list A) (shuffle_ind : list Z)
  (batch_size : Z) : option (list (list A)) :=
  shuffled <- take a shuffle_ind ;;
  Batcher.batcher shuffled batch_size.

(** [zip(gen_a, gen_b)] over two batch generators run to their end, each
    pair of batches read side by side. *)
Definition zip_batches {A B : Type} (gen_a : list (list A))
  (gen_b : list (list B)) : list (list (A * B)) :=
  map (fun ab => combine (fst ab) (snd ab)) (combine gen_a gen_b).

(** [np.mean] of the chained [avg_nsamps_b]: the mean of the attempt
    counts of all the batches of an epoch. *)
Definition avg_nsamp (avg_nsamps_b : list (list Z)) : Float.tfloat :=
  Evaluator.np_mean (map IZR (concat avg_nsamps_b)).

End Training.

(** ** Sampling a negative for every interaction *)

Module Preload.

Import Py Sparse Sampler.
Local Open Scope py_scope.

(** [violation_warp(neg_item_ind, user_tensor, pos_score, net)]: is the
    candidate scored above the positive's score minus the margin 1?  The
    difference [pos_score - 1.] is a float32 subtraction, and the
    comparison is the comparison of floats.  [torch.max] of no entry at
    all raises. *)
Definition violation_warp (neg_item_ind : Z) (user_tensor : list Z)
  (pos_score : R) (net : FactNet.t) : option bool :=
  neg_score <- FactNet.predict_score net user_tensor [neg_item_ind] ;;
  match neg_score with
  | [] => None
  | _ =>
      let threshold := F32.fsub (Float.Finite pos_score) (Float.Finite 1) in
      Some (existsb (fun s => F32.gtb (Float.Finite s) threshold) neg_score)
  end.

(** The two nested tests that guard the [break], for a predicate that may
    raise: it is only called on a candidate that is not a positive. *)
Definition accepted_exn (user_pos_item_inds : list Z)
  (violating_cond : Z -> option bool) (neg_item_ind : Z) : option bool :=
  if negb (contains user_pos_item_inds neg_item_ind)
  then violating_cond neg_item_ind
  else Some false.

(** The loop of [sample_neg] again, for a predicate that may raise (as
    [violation_warp] does when the model cannot score the pair): the
    exception leaves the loop at once. *)
Equations? sample_loop_exn (n_items : Z) (user_pos_item_inds : list Z)
  (violating_cond : Z -> option bool) (max_samples : Z)
  (neg_item_ind : option Z) (n_sampled : Z) (g : Random.state)
  : option (Z * Z) * Random.state
  by wf (Z.to_nat (max_samples - n_sampled)) lt :=
  sample_loop_exn n_items pos cond max_samples neg n_sampled g
    with Z_lt_dec n_sampled max_samples := {
    | right _ := (d <- neg ;; Some (d, n_sampled), g)
    | left _ with Random.randint 0 n_items g := {
      | (None, g') := (None, g')
      | (Some d, g') with accepted_exn pos cond d := {
        | None := (None, g')
        | Some true := (Some (d, n_sampled + 1), g')
        | Some false :=
            sample_loop_exn n_items pos cond max_samples (Some d)
              (n_sampled + 1) g' } } }.
Proof. lia. Qed.

(** [sample_neg] with such a predicate. *)
Definition sample_neg_exn (n_items : Z) (user_ind : Z)
  (interactions : csr_matrix) (max_samples : Z)
  (violating_cond : Z -> option bool) (g : Random.state)
  : option (Z * Z) * Random.state :=
  match get_row_nz interactions user_ind with
  | None => (None, g)
  | Some user_pos_item_inds =>
      sample_loop_exn n_items user_pos_item_inds violating_cond max_samples
        None 0 g
  end.

(** The stored entries of row [i] that are not zero, as (row, column)
    pairs. *)
Definition row_nonzero (i : Z) (row : list Z * list Z) : list (Z * Z) :=
  map (fun jv => (i, fst jv))
      (filter (fun jv => negb (snd jv =? 0)) (combine (fst row) (snd row))).

Fixpoint rows_nonzero (m : csr_matrix) (row_ids : list Z)
  : option (list (Z * Z)) :=
  match row_ids with
  | [] => Some []
  | i :: rest =>
      row <- Evaluator.getrow m i ;;
      others <- rows_nonzero m rest ;;
      Some (row_nonzero i row ++ others)
  end.

(** [interactions.nonzero()] on a well-formed matrix: the row ids and the
    column ids of the stored entries that are not zero, row after row. *)
Definition nonzero (m : csr_matrix) : option (list Z * list Z) :=
  entries <- rows_nonzero m (arange (fst (shape m))) ;;
  Some (map fst entries, map snd entries).

(** Run [f] on every element in turn, handing the random source on, and
    collect the results; the first exception ends the run. *)
Fixpoint collect {X Y : Type}
  (f : X -> Random.state -> option Y * Random.state)
  (xs : list X) (g : Random.state) : option (list Y) * Random.state :=
  match xs with
  | [] => (Some [], g)
  | x :: rest =>
      match f x g with
      | (None, g') => (None, g')
      | (Some y, g') =>
          match collect f rest g' with
          | (None, g'') => (None, g'')
          | (Some ys, g'') => (Some (y :: ys), g'')
          end
      end
  end.

(** The cap of the notebook without WARP. *)
Definition preload_max_samples : Z := 1000.

(** The pairs [sample_neg(uid, train) for uid in nnz_users], transposed
    by [zip] and bound to the two names [nid_preload, n_sampled_preload]:
    with no interaction at all there is nothing to unpack and the
    assignment raises. *)
Definition preload (n_items : Z) (train : csr_matrix) (nnz_users : list Z)
  (g : Random.state) : option (list Z * list Z) * Random.state :=
  match collect
          (fun uid => sample_neg n_items uid train preload_max_samples
                        default_violating_cond)
          nnz_users g with
  | (None, g') => (None, g')
  | (Some [], g') => (None, g')
  | (Some pairs, g') => (Some (map fst pairs, map snd pairs), g')
  end.

(** [sample_warp(interactions, net)]. *)
Definition sample_warp (n_items : Z) (interactions : csr_matrix)
  (net : FactNet.t) (g : Random.state)
  : option (list Z * list Z) * Random.state :=
  match nonzero interactions with
  | None => (None, g)
  | Some (nnz_users, nnz_items) =>
      match FactNet.predict_score net nnz_users nnz_items with
      | None => (None, g)
      | Some pos_scores =>
          match collect
                  (fun (up : Z * R) =>
                     sample_neg_exn n_items (fst up) interactions
                       default_max_samples
                       (fun neg_item_ind =>
                          violation_warp neg_item_ind [fst up] (snd up) net))
                  (combine nnz_users pos_scores) g with
          | (None, g') => (None, g')
          | (Some pairs, g') => (Some (map fst pairs, map snd pairs), g')
          end
      end
  end.

End Preload.

(** ** The criterion: [TripletLoss] as a module with its options *)

Module Criterion.

Import Py Float TripletLoss.
Import String.
Local Open Scope py_scope.

(** The arguments of [TripletLoss.__init__]. *)
Record t : Type := mk {
  loss : String.string;
  warp_weighting : bool;
  n_items : option Z
}.

(** The dictionary [loss_d]; a missing key raises. *)
Definition loss_d (key : String.string) : option (R -> R -> R) :=
  if String.eqb key "sigmoid"%string then Some forward_sigmoid
  else if String.eqb key "hinge"%string then Some forward_hinge
  else None.

(** An entry-wise operation on two tensors of one shape. *)
Fixpoint map2 {X Y W : Type} (f : X -> Y -> W) (xs : list X) (ys : list Y)
  : option (list W) :=
  match xs, ys with
  | [], [] => Some []
  | x :: xs', y :: ys' => rest <- map2 f xs' ys' ;; Some (f x y :: rest)
  | _, _ => None
  end.

(** [x + y] on floats. *)
Definition tadd (x y : tfloat) : tfloat :=
  match x, y with
  | NaN, _ | _, NaN => NaN
  | Finite a, Finite b => Finite (a + b)
  | PosInf, NegInf | NegInf, PosInf => NaN
  | PosInf, _ | _, PosInf => PosInf
  | NegInf, _ | _, NegInf => NegInf
  end.

(** An infinity times a finite value. *)
Definition scale_inf (inf opposite : tfloat) (b : R) : tfloat :=
  if Rlt_dec 0 b then inf else if Rlt_dec b 0 then opposite else NaN.

(** [x * y] on floats: an infinity times zero is NaN. *)
Definition tmul (x y : tfloat) : tfloat :=
  match x, y with
  | NaN, _ | _, NaN => NaN
  | Finite a, Finite b => Finite (a * b)
  | PosInf, Finite b | Finite b, PosInf => scale_inf PosInf NegInf b
  | NegInf, Finite b | Finite b, NegInf => scale_inf NegInf PosInf b
  | PosInf, PosInf | NegInf, NegInf => PosInf
  | PosInf, NegInf | NegInf, PosInf => NegInf
  end.

(** [tensor.mean()]: the sum of the entries over their number. *)
Definition mean (xs : list tfloat) : tfloat :=
  tdiv (fold_right tadd (Finite 0) xs) (Finite (IZR (len xs))).

(** [self.forward_premean(pos_pred, neg_pred, nsamp)]: the loss of every
    triplet of the batch, weighted by [warp_weight] when the option is
    set. *)
Definition forward_premean (self : t) (pos_pred neg_pred : list R)
  (nsamp : list Z) : option (list tfloat) :=
  if warp_weighting self then
    n <- n_items self ;;
    let weights := map (warp_weight n) nsamp in
    base <- loss_d (loss self) ;;
    losses <- map2 base pos_pred neg_pred ;;
    map2 tmul weights (map Finite losses)
  else
    base <- loss_d (loss self) ;;
    losses <- map2 base pos_pred neg_pred ;;
    Some (map Finite losses).

(** A float that is minus infinity or NaN. *)
Definition low (x : tfloat) : Prop := x = NegInf \/ x = NaN.

(** [TripletLoss.forward]. *)
Definition forward (self : t) (pos_pred neg_pred : list R) (nsamp : list Z)
  : option tfloat :=
  premean <- forward_premean self pos_pred neg_pred nsamp ;;
  Some (mean premean).

End Criterion.

(** ** A small data set used to run the definitions *)

Module Examples.

Import Sparse.

(** Two users, four items: user 0 liked items 0 and 2, user 1 liked
    item 1. *)
Definition interactions : csr_matrix :=
  {| shape := (2, 4); indptr := [0; 2; 3]; indices := [0; 2; 1];
     data := [1; 1; 1] |}.

(** Same shape, nobody liked anything. *)
Definition no_interactions : csr_matrix :=
  {| shape := (2, 4); indptr := [0; 0; 0]; indices := []; data := [] |}.

(** A random source that hands out 0, 1, 2, 3, 0, 1, ... *)
Definition cycling : Random.state :=
  {| Random.tape := fun k => Z.of_nat k mod 4; Random.cursor := 0 |}.

(** A model with one latent dimension. *)
Definition net : FactNet.t :=
  {| FactNet.n_users := 2; FactNet.n_items := 4; FactNet.n_latent := 1;
     FactNet.user_embedding_layer := [[1%R]; [2%R]];
     FactNet.item_embedding_layer := [[0%R]; [1%R]; [2%R]; [3%R]] |}.

(** A predicate that rejects every candidate. *)
Definition reject_all (neg_item_ind : Z) : bool := false.

End Examples.

(** ** More data to run the definitions on *)

Module MoreExamples.

Import Sparse.
Import String.

(** Three users and four items, no interaction: one user more than
    [Examples.net] has vectors for. *)
Definition three_users : csr_matrix :=
  {| shape := (3, 4); indptr := [0; 0; 0; 0]; indices := []; data := [] |}.

(** Two users and four items: user 0 liked item 1, user 1 liked
    nothing. *)
Definition one_liker : csr_matrix :=
  {| shape := (2, 4); indptr := [0; 1; 1]; indices := [1]; data := [1] |}.

(** A row stored out of order: user 0 liked items 2 and 0. *)
Definition unsorted : csr_matrix :=
  {| shape := (1, 4); indptr := [0; 2]; indices := [2; 0]; data := [1; 1] |}.

(** The hinge criterion with and without WARP weighting, for 4 items. *)
Definition hinge_plain : Criterion.t :=
  {| Criterion.loss := "hinge"%string; Criterion.warp_weighting := false;
     Criterion.n_items := None |}.

(** The sigmoid criterion without WARP weighting. *)
Definition sigmoid_plain : Criterion.t :=
  {| Criterion.loss := "sigmoid"%string; Criterion.warp_weighting := false;
     Criterion.n_items := None |}.

Definition hinge_warp : Criterion.t :=
  {| Criterion.loss := "hinge"%string; Criterion.warp_weighting := true;
     Criterion.n_items := Some 4 |}.

End MoreExamples.

(** * Properties *)

(** ** Float32 rounding *)

Module F32Props.

Import Float F32.
Local Open Scope R_scope.

Lemma ln2_pos : 0 < ln 2.
Proof. rewrite <- ln_1. apply ln_increasing; lra. Qed.

Lemma bpow_exp (e : Z) : bpow e = exp (IZR e * ln 2).
Proof.
  unfold bpow. rewrite powerRZ_Rpower by lra. reflexivity.
Qed.

Lemma bpow_pos (e : Z) : 0 < bpow e.
Proof. rewrite bpow_exp. apply exp_pos. Qed.

Lemma bpow_add (a b : Z) : bpow (a + b) = bpow a * bpow b.
Proof. unfold bpow. apply powerRZ_add. lra. Qed.

Lemma bpow_lt (a b : Z) : (a < b)%Z -> bpow a < bpow b.
Proof.
  intros H. rewrite !bpow_exp. apply exp_increasing.
  apply Rmult_lt_compat_r; [exact ln2_pos|]. apply IZR_lt. exact H.
Qed.

Lemma bpow_le (a b : Z) : (a <= b)%Z -> bpow a <= bpow b.
Proof.
  intros H. destruct (Z.eq_dec a b) as [-> |Hne]; [lra|].
  left. apply bpow_lt. lia.
Qed.

Lemma bpow_0 : bpow 0 = 1.
Proof. reflexivity. Qed.

(** [x] lies in the binade named by [mag x]. *)
Lemma mag_bounds (x : R) :
  x <> 0 -> bpow (mag x) <= Rabs x < bpow (mag x + 1).
Proof.
  intros Hx. pose proof (Rabs_pos_lt x Hx) as Ha.
  pose proof ln2_pos as H2.
  pose proof (Zfloor_bound (ln (Rabs x) / ln 2)) as [Hlo Hhi].
  fold (mag x) in Hlo, Hhi.
  rewrite !bpow_exp, plus_IZR.
  remember (mag x) as m eqn:Em. clear Em.
  rewrite <- (exp_ln (Rabs x) Ha).
  assert (E : ln (Rabs x) = ln (Rabs x) / ln 2 * ln 2) by (field; lra).
  split.
  - assert (H : IZR m * ln 2 <= ln (Rabs x)).
    { rewrite E. apply Rmult_le_compat_r; lra. }
    destruct H as [H|H]; [left; apply exp_increasing; exact H|].
    rewrite H. lra.
  - apply exp_increasing. rewrite E.
    apply Rmult_lt_compat_r; lra.
Qed.

(** The binade is determined by the bounds. *)
Lemma mag_unique (x : R) (e : Z) :
  bpow e <= Rabs x < bpow (e + 1) -> mag x = e.
Proof.
  intros [Hlo Hhi]. pose proof ln2_pos as H2.
  pose proof (bpow_pos e) as He.
  unfold mag. apply Zfloor_eq.
  assert (Ha : 0 < Rabs x) by lra.
  rewrite !bpow_exp in *. rewrite plus_IZR in Hhi.
  split.
  - apply Rmult_le_reg_r with (r := ln 2); [exact H2|].
    unfold Rdiv. rewrite Rmult_assoc, Rinv_l by lra. rewrite Rmult_1_r.
    rewrite <- (ln_exp (IZR e * ln 2)).
    destruct Hlo as [Hlo|Hlo]; [left; apply ln_increasing; assumption|].
    rewrite Hlo. lra.
  - apply Rmult_lt_reg_r with (r := ln 2); [exact H2|].
    unfold Rdiv. rewrite Rmult_assoc, Rinv_l by lra. rewrite Rmult_1_r.
    rewrite <- (ln_exp ((IZR e + 1) * ln 2)).
    apply ln_increasing; assumption.
Qed.

Lemma mag_opp (x : R) : mag (- x) = mag x.
Proof. unfold mag. rewrite Rabs_Ropp. reflexivity. Qed.

Lemma mag_le (x y : R) : 0 < x -> x <= y -> (mag x <= mag y)%Z.
Proof.
  intros Hx Hxy. unfold mag. apply Zfloor_le.
  pose proof ln2_pos as H2.
  rewrite !Rabs_pos_eq by lra.
  apply Rmult_le_compat_r; [left; apply Rinv_0_lt_compat; exact H2|].
  destruct Hxy as [Hlt| ->]; [left; apply ln_increasing; assumption|lra].
Qed.

(** *** Rounding to an integer *)

Lemma rne_between (q : R) : (Zfloor q <= rne q <= Zfloor q + 1)%Z.
Proof.
  unfold rne.
  destruct (Rlt_dec (q - IZR (Zfloor q)) (1 / 2)); [lia|].
  destruct (Rlt_dec (1 / 2) (q - IZR (Zfloor q))); [lia|].
  destruct (Z.even (Zfloor q)); lia.
Qed.

Lemma rne_IZR (k : Z) : rne (IZR k) = k.
Proof.
  unfold rne. rewrite ZfloorZ.
  destruct (Rlt_dec (IZR k - IZR k) (1 / 2)); [reflexivity|lra].
Qed.

Lemma rne_mono (q q' : R) : q <= q' -> (rne q <= rne q')%Z.
Proof.
  intros H. pose proof (Zfloor_le q q' H) as Hf.
  pose proof (rne_between q) as Hq. pose proof (rne_between q') as Hq'.
  destruct (Z.eq_dec (Zfloor q) (Zfloor q')) as [E|Hne]; [|lia].
  unfold rne in *. rewrite <- E in *.
  destruct (Rlt_dec (q - IZR (Zfloor q)) (1 / 2));
    destruct (Rlt_dec (q' - IZR (Zfloor q)) (1 / 2)); try lia; try lra.
  destruct (Rlt_dec (1 / 2) (q - IZR (Zfloor q)));
    destruct (Rlt_dec (1 / 2) (q' - IZR (Zfloor q))); try lia; try lra;
    destruct (Z.even (Zfloor q)); lia.
Qed.

(** A value strictly within one half of an integer rounds to it. *)
Lemma rne_near (q : R) (k : Z) : Rabs (q - IZR k) < 1 / 2 -> rne q = k.
Proof.
  intros H. apply Rabs_def2 in H. destruct H as [Hhi Hlo].
  pose proof (Zfloor_bound q) as [Hf1 Hf2].
  assert (Hcase : Zfloor q = k \/ Zfloor q = (k - 1)%Z).
  { assert (k - 1 <= Zfloor q)%Z.
    { apply Zfloor_lub. rewrite minus_IZR. lra. }
    assert (Zfloor q < k + 1)%Z.
    { apply lt_IZR. rewrite plus_IZR. lra. }
    lia. }
  unfold rne. destruct Hcase as [E|E]; rewrite E in *.
  - destruct (Rlt_dec (q - IZR k) (1 / 2)); [reflexivity|lra].
  - rewrite minus_IZR in *.
    destruct (Rlt_dec (q - (IZR k - 1)) (1 / 2)); [lra|].
    destruct (Rlt_dec (1 / 2) (q - (IZR k - 1))); [lia|lra].
Qed.

(** A tie above an even integer rounds down to it. *)
Lemma rne_tie_even (k : Z) : Z.even k = true -> rne (IZR k + 1 / 2) = k.
Proof.
  intros He.
  assert (Ef : Zfloor (IZR k + 1 / 2) = k) by (apply Zfloor_eq; lra).
  unfold rne. rewrite Ef.
  destruct (Rlt_dec (IZR k + 1 / 2 - IZR k) (1 / 2)); [reflexivity|].
  destruct (Rlt_dec (1 / 2) (IZR k + 1 / 2 - IZR k)); [lra|].
  rewrite He. reflexivity.
Qed.

Lemma rne_opp (q : R) : rne (- q) = (- rne q)%Z.
Proof.
  pose proof (Zfloor_bound q) as [Hf1 Hf2].
  destruct (Req_dec q (IZR (Zfloor q))) as [E|Hne].
  - rewrite E, <- opp_IZR, !rne_IZR. reflexivity.
  - assert (Ef : Zfloor (- q) = (- Zfloor q - 1)%Z).
    { apply Zfloor_eq. rewrite minus_IZR, opp_IZR. lra. }
    unfold rne. rewrite Ef, minus_IZR, opp_IZR.
    destruct (Rlt_dec (q - IZR (Zfloor q)) (1 / 2));
      destruct (Rlt_dec (- q - (- IZR (Zfloor q) - 1)) (1 / 2)); try lra.
    + destruct (Rlt_dec (1 / 2) (- q - (- IZR (Zfloor q) - 1))); [lia|lra].
    + destruct (Rlt_dec (1 / 2) (q - IZR (Zfloor q))); [lia|lra].
    + destruct (Rlt_dec (1 / 2) (q - IZR (Zfloor q))); [lra|].
      destruct (Rlt_dec (1 / 2) (- q - (- IZR (Zfloor q) - 1))); [lra|].
      replace (- Zfloor q - 1)%Z with (- (Zfloor q + 1))%Z by lia.
      rewrite Z.even_opp, Z.even_add. cbn.
      destruct (Z.even (Zfloor q)); cbn; lia.
Qed.

(** *** Rounding to the float32 grid *)

Lemma bpow_IZR (n : Z) : (0 <= n)%Z -> bpow n = IZR (2 ^ n).
Proof.
  intros Hn. unfold bpow. destruct n as [|p|p]; [reflexivity| |lia].
  unfold powerRZ. rewrite pow_IZR, positive_nat_Z. reflexivity.
Qed.

Lemma bpow_shift (e n : Z) :
  (0 <= n)%Z -> bpow (e + n) = IZR (2 ^ n) * bpow e.
Proof.
  intros Hn. rewrite Z.add_comm, bpow_add, bpow_IZR by exact Hn.
  reflexivity.
Qed.

Lemma scaled_le (e : Z) (x y : R) : x <= y -> x / bpow e <= y / bpow e.
Proof.
  intros H. apply Rmult_le_compat_r; [|exact H].
  left. apply Rinv_0_lt_compat. apply bpow_pos.
Qed.

Lemma scaled_grid (e : Z) (k : Z) : IZR k * bpow e / bpow e = IZR k.
Proof. field. pose proof (bpow_pos e). lra. Qed.

(** Rounding on a fixed grid is monotone. *)
Lemma round_at_mono (e : Z) (x y : R) :
  x <= y ->
  IZR (rne (x / bpow e)) * bpow e <= IZR (rne (y / bpow e)) * bpow e.
Proof.
  intros H. apply Rmult_le_compat_r; [left; apply bpow_pos|].
  apply IZR_le, rne_mono, scaled_le, H.
Qed.

Lemma round_0 : round 0 = 0.
Proof.
  unfold round. unfold Rdiv at 1. rewrite Rmult_0_l, (rne_IZR 0). lra.
Qed.

Lemma round_opp (x : R) : round (- x) = - round x.
Proof.
  unfold round, quantum_exp. rewrite mag_opp.
  set (b := bpow (Z.max (mag x) emin - 23)).
  replace (- x / b) with (- (x / b))
    by (unfold Rdiv; ring).
  rewrite rne_opp, opp_IZR. ring.
Qed.

Lemma round_nonneg (x : R) : 0 <= x -> 0 <= round x.
Proof.
  intros H. unfold round.
  apply Rmult_le_pos; [|left; apply bpow_pos].
  apply (IZR_le 0). rewrite <- (rne_IZR 0). apply rne_mono.
  apply Rmult_le_pos; [exact H|]. left. apply Rinv_0_lt_compat, bpow_pos.
Qed.

(** A positive value never rounds above the top of its binade... *)
Lemma round_le_top (x : R) :
  0 < x -> round x <= bpow (Z.max (mag x) emin + 1).
Proof.
  intros Hx. unfold round, quantum_exp.
  set (E := Z.max (mag x) emin).
  assert (Hlt : x < bpow (E + 1)).
  { pose proof (mag_bounds x) as [_ Hhi]; [lra|].
    rewrite Rabs_pos_eq in Hhi by lra.
    apply Rlt_le_trans with (1 := Hhi). apply bpow_le. lia. }
  replace (E + 1)%Z with (E - 23 + 24)%Z by lia.
  rewrite (bpow_shift (E - 23) 24) by lia.
  apply Rmult_le_compat_r; [left; apply bpow_pos|].
  apply IZR_le. rewrite <- (rne_IZR (2 ^ 24)). apply rne_mono.
  rewrite <- (scaled_grid (E - 23) (2 ^ 24)). apply scaled_le.
  rewrite <- bpow_shift by lia.
  replace (E - 23 + 24)%Z with (E + 1)%Z by lia. lra.
Qed.

(** ... and a positive normal value never rounds below its bottom. *)
Lemma round_ge_bottom (y : R) :
  0 < y -> (emin <= mag y)%Z -> bpow (mag y) <= round y.
Proof.
  intros Hy Hn. unfold round, quantum_exp.
  rewrite Z.max_l by exact Hn.
  assert (Hge : bpow (mag y) <= y).
  { pose proof (mag_bounds y) as [Hlo _]; [lra|].
    rewrite Rabs_pos_eq in Hlo by lra. exact Hlo. }
  replace (mag y) with (mag y - 23 + 23)%Z at 1 by lia.
  rewrite (bpow_shift (mag y - 23) 23) by lia.
  apply Rmult_le_compat_r; [left; apply bpow_pos|].
  apply IZR_le. rewrite <- (rne_IZR (2 ^ 23)). apply rne_mono.
  rewrite <- (scaled_grid (mag y - 23) (2 ^ 23)). apply scaled_le.
  rewrite <- bpow_shift by lia.
  replace (mag y - 23 + 23)%Z with (mag y) by lia. exact Hge.
Qed.

Lemma round_mono_pos (x y : R) : 0 < x -> x <= y -> round x <= round y.
Proof.
  intros Hx Hxy.
  pose proof (mag_le x y Hx Hxy) as Hm.
  destruct (Z.eq_dec (quantum_exp x) (quantum_exp y)) as [E|Hne].
  - unfold round. rewrite E. apply round_at_mono. exact Hxy.
  - unfold quantum_exp in Hne.
    apply Rle_trans with (bpow (Z.max (mag x) emin + 1));
      [apply round_le_top; exact Hx|].
    apply Rle_trans with (bpow (mag y));
      [apply bpow_le; lia|].
    apply round_ge_bottom; [lra|lia].
Qed.

(** Rounding is monotone. *)
Lemma round_mono (x y : R) : x <= y -> round x <= round y.
Proof.
  intros Hxy.
  destruct (Rlt_dec 0 x) as [Hx|Hx].
  - apply round_mono_pos; assumption.
  - destruct (Rle_dec 0 y) as [Hy|Hy].
    + apply Rle_trans with 0; [|apply round_nonneg; exact Hy].
      rewrite <- (Ropp_involutive x), (round_opp (- x)).
      pose proof (round_nonneg (- x)). lra.
    + rewrite <- (Ropp_involutive x), <- (Ropp_involutive y).
      rewrite (round_opp (- x)), (round_opp (- y)).
      apply Ropp_le_contravar. apply round_mono_pos; lra.
Qed.

(** A value in the binade [e] that is within half a spacing of a grid
    point rounds to that point. *)
Lemma round_near (x : R) (e k : Z) :
  (emin <= e)%Z ->
  bpow e <= Rabs x < bpow (e + 1) ->
  Rabs (x / bpow (e - 23) - IZR k) < 1 / 2 ->
  round x = IZR k * bpow (e - 23).
Proof.
  intros He Hb Hk. unfold round, quantum_exp.
  rewrite (mag_unique x e Hb), Z.max_l by exact He.
  rewrite (rne_near _ k Hk). reflexivity.
Qed.

(** Below the smallest normal number the grid has the spacing 2^-149. *)
Lemma round_near_subnormal (x : R) (k : Z) :
  Rabs x < bpow emin ->
  Rabs (x / bpow (-149) - IZR k) < 1 / 2 ->
  round x = IZR k * bpow (-149).
Proof.
  intros Hb Hk.
  destruct (Req_dec x 0) as [->|Hx].
  - rewrite round_0. unfold Rdiv in Hk. rewrite Rmult_0_l in Hk.
    rewrite <- (rne_near _ k Hk), (rne_IZR 0). lra.
  - unfold round, quantum_exp.
    assert (Hm : (mag x < emin)%Z).
    { pose proof (mag_bounds x Hx) as [Hlo _].
      destruct (Z_lt_le_dec (mag x) emin) as [H|H]; [exact H|].
      pose proof (bpow_le _ _ H). lra. }
    rewrite Z.max_r by lia. change (emin - 23)%Z with (-149)%Z.
    rewrite (rne_near _ k Hk). reflexivity.
Qed.

(** Every rounded value is a multiple of 2^-149. *)
Lemma round_grid (x : R) : exists k : Z, round x = IZR k * bpow (-149).
Proof.
  unfold round. set (q := quantum_exp x).
  assert (Hq : (-149 <= q)%Z) by (unfold q, quantum_exp, emin; lia).
  exists (rne (x / bpow q) * 2 ^ (q + 149))%Z.
  replace q with (-149 + (q + 149))%Z at 2 by lia.
  rewrite bpow_shift by lia. rewrite mult_IZR. ring.
Qed.

(** *** The float result of an operation *)

Lemma fl_finite (x : R) :
  - bpow 128 < round x < bpow 128 -> fl x = Finite (round x).
Proof.
  intros [Hlo Hhi]. unfold fl. cbv zeta.
  destruct (Rle_dec (bpow 128) (round x)); [lra|].
  destruct (Rle_dec (round x) (- bpow 128)); [lra|reflexivity].
Qed.

Lemma fl_cases (x : R) :
  (fl x = PosInf /\ bpow 128 <= round x) \/
  (fl x = NegInf /\ round x <= - bpow 128) \/
  (fl x = Finite (round x) /\ - bpow 128 < round x < bpow 128).
Proof.
  unfold fl. cbv zeta.
  destruct (Rle_dec (bpow 128) (round x)); [left; tauto|].
  destruct (Rle_dec (round x) (- bpow 128)); [right; left; tauto|].
  right; right. split; [reflexivity|lra].
Qed.

Lemma fl_mono (x y : R) : x <= y -> le (fl x) (fl y).
Proof.
  intros H. apply round_mono in H. pose proof (bpow_pos 128) as Hb.
  destruct (fl_cases x) as [[-> Hx]|[[-> Hx]|[-> Hx]]];
    destruct (fl_cases y) as [[-> Hy]|[[-> Hy]|[-> Hy]]];
    cbn; try exact I; lra.
Qed.

Lemma is_float32_round (x : R) : is_float32 x -> round x = x.
Proof.
  unfold is_float32. intros H.
  destruct (fl_cases x) as [[E _]|[[E _]|[E _]]]; rewrite E in H;
    try discriminate H.
  injection H as H. exact H.
Qed.

Lemma is_float32_bounds (x : R) : is_float32 x -> - bpow 128 < x < bpow 128.
Proof.
  intros H. pose proof (is_float32_round x H) as Hr.
  unfold is_float32 in H.
  destruct (fl_cases x) as [[E _]|[[E _]|[E Hb]]]; rewrite E in H;
    try discriminate H.
  rewrite Hr in Hb. exact Hb.
Qed.

(** An exact result that rounds to a float32 number yields it. *)
Lemma fl_rounds_to (x y : R) : round x = y -> is_float32 y -> fl x = Finite y.
Proof.
  intros Hr Hy. pose proof (is_float32_bounds y Hy) as Hb.
  rewrite fl_finite; rewrite Hr; [reflexivity|exact Hb].
Qed.

Lemma is_float32_intro (x : R) :
  round x = x -> - bpow 128 < x < bpow 128 -> is_float32 x.
Proof.
  intros Hr Hb. unfold is_float32. rewrite fl_finite; rewrite Hr; trivial.
Qed.

(** *** Values that are float32 numbers *)

Lemma mag_below (x : R) (n : Z) :
  x <> 0 -> Rabs x < bpow n -> (mag x < n)%Z.
Proof.
  intros Hx Hb. pose proof (mag_bounds x Hx) as [Hlo _].
  destruct (Z_lt_le_dec (mag x) n) as [H|H]; [exact H|].
  pose proof (bpow_le _ _ H). lra.
Qed.

(** A significand of at most 24 bits with an exponent in range. *)
Lemma is_float32_dyadic (k e : Z) :
  (Z.abs k < 2 ^ 24)%Z -> (-149 <= e <= 104)%Z ->
  is_float32 (IZR k * bpow e).
Proof.
  intros Hk He.
  assert (Habs : Rabs (IZR k * bpow e) < bpow (e + 24)).
  { rewrite Rabs_mult, (Rabs_pos_eq (bpow e)) by (left; apply bpow_pos).
    rewrite bpow_shift by lia. rewrite <- abs_IZR.
    apply Rmult_lt_compat_r; [apply bpow_pos|]. apply IZR_lt. exact Hk. }
  apply is_float32_intro.
  - destruct (Z.eq_dec k 0) as [->|Hk0].
    { rewrite Rmult_0_l. apply round_0. }
    assert (Hx : IZR k * bpow e <> 0).
    { apply Rmult_integral_contrapositive_currified.
      - apply not_0_IZR. exact Hk0.
      - pose proof (bpow_pos e). lra. }
    pose proof (mag_below _ _ Hx Habs) as Hm.
    unfold round. set (q := quantum_exp (IZR k * bpow e)).
    assert (Hq : (q <= e)%Z) by (unfold q, quantum_exp, emin; lia).
    assert (E : IZR k * bpow e = IZR (k * 2 ^ (e - q)) * bpow q).
    { replace e with (q + (e - q))%Z at 1 by lia.
      rewrite bpow_shift by lia. rewrite mult_IZR. ring. }
    rewrite E at 1. rewrite scaled_grid, rne_IZR. symmetry. exact E.
  - apply Rabs_def2 in Habs.
    pose proof (bpow_le (e + 24) 128 ltac:(lia)). lra.
Qed.

Lemma is_float32_Z (k : Z) : (Z.abs k < 2 ^ 24)%Z -> is_float32 (IZR k).
Proof.
  intros Hk. rewrite <- (Rmult_1_r (IZR k)), <- bpow_0.
  apply is_float32_dyadic; [exact Hk|lia].
Qed.

Lemma fl_float32 (x : R) : is_float32 x -> fl x = Finite x.
Proof. exact (fun H => H). Qed.

(** An exact result between two float32 numbers rounds to a float32
    number between them. *)
Lemma fl_between (lo hi x : R) :
  is_float32 lo -> is_float32 hi -> lo <= x <= hi ->
  exists r : R, fl x = Finite r /\ lo <= r <= hi.
Proof.
  intros Hlo Hhi [H1 H2].
  pose proof (round_mono _ _ H1) as R1. pose proof (round_mono _ _ H2) as R2.
  rewrite (is_float32_round lo Hlo) in R1.
  rewrite (is_float32_round hi Hhi) in R2.
  pose proof (is_float32_bounds lo Hlo). pose proof (is_float32_bounds hi Hhi).
  exists (round x). split; [apply fl_finite; lra|lra].
Qed.

Lemma fl_nonneg (x : R) : 0 <= x -> le (Finite 0) (fl x).
Proof.
  intros H. rewrite <- (fl_float32 0 (is_float32_Z 0 ltac:(cbn; lia))).
  apply fl_mono. exact H.
Qed.

(** *** The sigmoid *)

Lemma exp_mono (x y : R) : x <= y -> exp x <= exp y.
Proof.
  intros [H| ->]; [left; apply exp_increasing; exact H|lra].
Qed.

Lemma is_float32_0 : is_float32 0.
Proof. apply (is_float32_Z 0). cbn. lia. Qed.

Lemma is_float32_1 : is_float32 1.
Proof. apply (is_float32_Z 1). cbn. lia. Qed.

Lemma le_fl_PosInf (x : R) : le (fl x) PosInf.
Proof.
  destruct (fl_cases x) as [[-> _]|[[-> _]|[-> _]]]; exact I.
Qed.

Lemma le_Finite_fl (lo x : R) :
  is_float32 lo -> lo <= x -> le (Finite lo) (fl x).
Proof.
  intros Hlo H. rewrite <- (fl_float32 lo Hlo). apply fl_mono. exact H.
Qed.

Lemma one_plus_mono (e e' : tfloat) :
  le e e' -> le (fadd (Finite 1) e) (fadd (Finite 1) e').
Proof.
  destruct e as [a| | |], e' as [b| | |]; cbn; try contradiction; intros H;
    try exact I;
    first [ apply le_fl_PosInf | apply fl_mono; lra ].
Qed.

Lemma one_plus_ge (e : tfloat) :
  le (Finite 0) e -> le (Finite 1) (fadd (Finite 1) e).
Proof.
  destruct e as [a| | |]; cbn; try contradiction; intros H; try exact I.
  apply le_Finite_fl; [exact is_float32_1|lra].
Qed.

Lemma inv_range (s : tfloat) :
  le (Finite 1) s ->
  exists t : R, fdiv (Finite 1) s = Finite t /\ 0 <= t <= 1.
Proof.
  destruct s as [a| | |]; cbn; try contradiction; intros H.
  - destruct (Req_dec_T a 0); [lra|].
    apply fl_between; [exact is_float32_0|exact is_float32_1|].
    assert (0 < / a) by (apply Rinv_0_lt_compat; lra).
    split; [lra|].
    apply Rmult_le_reg_r with (r := a); [lra|].
    unfold Rdiv. rewrite Rmult_assoc, Rinv_l by lra. lra.
  - exists 0. split; [reflexivity|lra].
Qed.

Lemma inv_anti (s s' : tfloat) :
  le (Finite 1) s -> le s s' ->
  le (fdiv (Finite 1) s') (fdiv (Finite 1) s).
Proof.
  destruct s as [a| | |], s' as [b| | |]; cbn; try contradiction;
    intros H1 H.
  - destruct (Req_dec_T b 0); [lra|]. destruct (Req_dec_T a 0); [lra|].
    apply fl_mono. unfold Rdiv. rewrite !Rmult_1_l.
    apply Rinv_le_contravar; lra.
  - destruct (Req_dec_T a 0); [lra|].
    apply fl_nonneg. unfold Rdiv. rewrite Rmult_1_l.
    left. apply Rinv_0_lt_compat. lra.
  - lra.
Qed.

Lemma le_not_nan_l (x y : tfloat) : le x y -> x <> NaN.
Proof. destruct x, y; cbn; intros H; try contradiction; discriminate. Qed.

Lemma le_not_nan_r (x y : tfloat) : le x y -> y <> NaN.
Proof. destruct x, y; cbn; intros H; try contradiction; discriminate. Qed.

Lemma fsub_not_nan (a b : R) : fsub (Finite a) (Finite b) <> NaN.
Proof.
  cbn. destruct (fl_cases (a - b)) as [[-> _]|[[-> _]|[-> _]]];
    discriminate.
Qed.

(** *** Saturation *)

Lemma ln2_upper : ln 2 <= 17 / 24.
Proof.
  rewrite <- (ln_exp (17 / 24)).
  assert (H : 2 <= exp (17 / 24)).
  { pose proof (exp_ineq1 (17 / 768) ltac:(lra)) as H0.
    assert (H1 : 10447 / 10000 <= exp (17 / 384)).
    { replace (17 / 384) with (17 / 768 + 17 / 768) by lra.
      rewrite exp_plus. nra. }
    assert (H2 : 10913 / 10000 <= exp (17 / 192)).
    { replace (17 / 192) with (17 / 384 + 17 / 384) by lra.
      rewrite exp_plus. nra. }
    assert (H3 : 11909 / 10000 <= exp (17 / 96)).
    { replace (17 / 96) with (17 / 192 + 17 / 192) by lra.
      rewrite exp_plus. nra. }
    assert (H4 : 14182 / 10000 <= exp (17 / 48)).
    { replace (17 / 48) with (17 / 96 + 17 / 96) by lra.
      rewrite exp_plus. nra. }
    replace (17 / 24) with (17 / 48 + 17 / 48) by lra.
    rewrite exp_plus. nra. }
  destruct H as [H| <-]; [left; apply ln_increasing; lra|lra].
Qed.

(** [exp(-d)] is at most half a spacing below 1 once [d >= 17]. *)
Lemma exp_tiny (d : R) : 17 <= d -> exp (- d) <= bpow (-24).
Proof.
  intros H. rewrite bpow_exp. apply exp_mono.
  pose proof ln2_upper. pose proof ln2_pos.
  replace (IZR (-24)) with (-24) by reflexivity. nra.
Qed.

Lemma round_one_plus_tiny (e : R) :
  0 <= e <= bpow (-24) -> round (1 + e) = 1.
Proof.
  intros [H0 H1].
  assert (E1 : bpow (-23) = 2 * bpow (-24)).
  { replace (-23)%Z with (-24 + 1)%Z by lia.
    rewrite (bpow_shift (-24) 1) by lia. reflexivity. }
  assert (E2 : 1 = IZR (2 ^ 24) * bpow (-24)).
  { rewrite <- (bpow_shift (-24) 24) by lia. reflexivity. }
  pose proof (bpow_pos (-24)) as Hu.
  assert (Htop : round (1 + bpow (-24)) = 1).
  { unfold round, quantum_exp.
    assert (Hm : mag (1 + bpow (-24)) = 0%Z).
    { apply mag_unique. rewrite Rabs_pos_eq by lra.
      rewrite bpow_0. cbn [Z.add]. rewrite (bpow_IZR 1) by lia.
      change (IZR (2 ^ 1)) with 2.
      assert (bpow (-24) < 1); [|lra].
      rewrite <- bpow_0. apply bpow_lt. lia. }
    rewrite Hm. change (Z.max 0 emin - 23)%Z with (-23)%Z.
    replace ((1 + bpow (-24)) / bpow (-23)) with (IZR (2 ^ 23) + 1 / 2).
    - rewrite rne_tie_even by reflexivity.
      rewrite <- (bpow_shift (-23) 23) by lia. reflexivity.
    - rewrite E1. rewrite E2 at 2.
      replace (IZR (2 ^ 24)) with (2 * IZR (2 ^ 23)).
      + field. lra.
      + rewrite <- mult_IZR. reflexivity. }
  apply Rle_antisym.
  - rewrite <- Htop. apply round_mono. lra.
  - rewrite <- (is_float32_round 1 is_float32_1) at 1.
    apply round_mono. lra.
Qed.

Lemma fl_1 : fl 1 = Finite 1.
Proof. exact is_float32_1. Qed.

Lemma fl_0 : fl 0 = Finite 0.
Proof. exact is_float32_0. Qed.

(** The correctly rounded exponential is faithful and monotone. *)
Lemma exp_rn_faithful : exp_faithful exp_rn.
Proof.
  intros x b Hb. unfold exp_rn. split; intros H.
  - apply le_Finite_fl; assumption.
  - rewrite <- (fl_float32 b Hb). apply fl_mono. exact H.
Qed.

Lemma exp_rn_monotone : exp_monotone exp_rn.
Proof.
  intros x y H. unfold exp_rn. apply fl_mono, exp_mono. exact H.
Qed.

Lemma le_PosInf (x : tfloat) : x <> NaN -> le x PosInf.
Proof. destruct x; cbn; intros H; try exact I. contradiction. Qed.

Section WithExp.

Variable expf : R -> tfloat.
Hypothesis expf_faithful : exp_faithful expf.

Lemma expf_nonneg (x : R) : le (Finite 0) (expf x).
Proof.
  apply (expf_faithful x 0 is_float32_0). left. apply exp_pos.
Qed.

Lemma exp_neg_nonneg (x : tfloat) :
  x <> NaN -> le (Finite 0) (fexp expf (fneg x)).
Proof.
  destruct x as [a| | |]; cbn; intros H; try exact I; try lra;
    try contradiction.
  apply expf_nonneg.
Qed.

(** [torch.sigmoid] stays within [0, 1]. *)
Lemma sigmoid_range (x : tfloat) :
  x <> NaN -> exists s : R, sigmoid expf x = Finite s /\ 0 <= s <= 1.
Proof.
  intros H. unfold sigmoid.
  apply inv_range, one_plus_ge, exp_neg_nonneg, H.
Qed.

(** Once the float gap is 17 or more, [torch.sigmoid] returns exactly 1. *)
Lemma sigmoid_saturated (d : tfloat) :
  le (Finite 17) d -> sigmoid expf d = Finite 1.
Proof.
  destruct d as [a| | |]; cbn [le]; try contradiction; intros H.
  - unfold sigmoid. cbn [fneg fexp].
    assert (Hb : is_float32 (bpow (-24))).
    { rewrite <- (Rmult_1_l (bpow (-24))).
      apply (is_float32_dyadic 1); [cbn; lia|lia]. }
    pose proof (expf_nonneg (- a)) as Hlo.
    pose proof (proj2 (expf_faithful (- a) (bpow (-24)) Hb)
                  (exp_tiny a H)) as Hhi.
    destruct (expf (- a)) as [e| | |]; cbn [le] in Hlo, Hhi;
      try contradiction.
    cbn [fadd].
    rewrite (fl_rounds_to (1 + e) 1);
      [|apply round_one_plus_tiny; lra|exact is_float32_1].
    cbn [fdiv]. destruct (Req_dec_T 1 0); [lra|].
    replace (1 / 1) with 1 by lra. exact fl_1.
  - unfold sigmoid. cbn [fneg fexp fadd].
    replace (1 + 0) with 1 by lra. rewrite fl_1.
    cbn [fdiv]. destruct (Req_dec_T 1 0); [lra|].
    replace (1 / 1) with 1 by lra. exact fl_1.
Qed.

Hypothesis expf_monotone : exp_monotone expf.

Lemma exp_neg_anti (x y : tfloat) :
  le x y -> le (fexp expf (fneg y)) (fexp expf (fneg x)).
Proof.
  destruct x as [a| | |], y as [b| | |]; cbn; try contradiction; intros H;
    try exact I; try lra;
    first [ apply expf_nonneg
          | apply le_PosInf, (le_not_nan_r _ _ (expf_nonneg _))
          | apply expf_monotone; lra ].
Qed.

(** [torch.sigmoid] never decreases. *)
Lemma sigmoid_mono (x y : tfloat) :
  le x y -> le (sigmoid expf x) (sigmoid expf y).
Proof.
  intros H. unfold sigmoid. apply inv_anti.
  - apply one_plus_ge, exp_neg_nonneg. exact (le_not_nan_r _ _ H).
  - apply one_plus_mono, exp_neg_anti, H.
Qed.

End WithExp.

(** *** The grid at a few places *)

(** The next float32 number after 1 is [1 + 2^-23]; half way to it rounds
    back to 1. *)
Example float32_after_one :
  is_float32 (1 + bpow (-23)) /\ fl (1 + bpow (-24)) = Finite 1.
Proof.
  split.
  - replace (1 + bpow (-23)) with (IZR (2 ^ 23 + 1) * bpow (-23)).
    + apply is_float32_dyadic; [cbn; lia|lia].
    + rewrite plus_IZR, Rmult_plus_distr_r.
      rewrite <- (bpow_shift (-23) 23) by lia.
      change (-23 + 23)%Z with 0%Z. rewrite bpow_0. lra.
  - apply fl_rounds_to; [|exact is_float32_1].
    apply round_one_plus_tiny. pose proof (bpow_pos (-24)). lra.
Qed.

(** The largest float32 number is [(2^24 - 1) * 2^104]; [2^128]
    overflows. *)
Example float32_largest :
  is_float32 (IZR (2 ^ 24 - 1) * bpow 104) /\ fl (bpow 128) = PosInf.
Proof.
  split; [apply is_float32_dyadic; [cbn; lia|lia]|].
  assert (Hr : round (bpow 128) = bpow 128).
  { pose proof (bpow_pos 128) as Hb.
    rewrite (round_near (bpow 128) 128 (2 ^ 23)).
    - rewrite <- (bpow_shift (128 - 23) 23) by lia. reflexivity.
    - unfold emin. lia.
    - rewrite Rabs_pos_eq by lra. split; [lra|]. apply bpow_lt. lia.
    - replace (bpow 128) with (IZR (2 ^ 23) * bpow (128 - 23)).
      + rewrite scaled_grid, Rminus_diag, Rabs_R0. lra.
      + rewrite <- (bpow_shift (128 - 23) 23) by lia. reflexivity. }
  unfold fl. cbv zeta. rewrite Hr.
  destruct (Rle_dec (bpow 128) (bpow 128)); [reflexivity|lra].
Qed.

(** The smallest positive float32 number is [2^-149]; half of it rounds
    to 0. *)
Example float32_smallest :
  is_float32 (bpow (-149)) /\ fl (bpow (-150)) = Finite 0.
Proof.
  split.
  - rewrite <- (Rmult_1_l (bpow (-149))).
    apply (is_float32_dyadic 1); [cbn; lia|lia].
  - apply fl_rounds_to; [|exact is_float32_0].
    pose proof (bpow_pos (-150)) as Hb.
    assert (E : bpow (-149) = 2 * bpow (-150)).
    { replace (-149)%Z with (-150 + 1)%Z by lia.
      rewrite (bpow_shift (-150) 1) by lia. reflexivity. }
    unfold round, quantum_exp.
    assert (Hm : (mag (bpow (-150)) < emin)%Z).
    { apply mag_below; [lra|]. rewrite Rabs_pos_eq by lra.
      apply bpow_lt. unfold emin. lia. }
    rewrite Z.max_r by lia. change (emin - 23)%Z with (-149)%Z.
    replace (bpow (-150) / bpow (-149)) with (IZR 0 + 1 / 2).
    2:{ rewrite E. field. apply Rgt_not_eq. exact Hb. }
    rewrite rne_tie_even by reflexivity. lra.
Qed.

End F32Props.

(** ** The losses *)

Module LossProps.

Import Float TripletLoss.
Local Open Scope R_scope.

Lemma Zfloor_IZR_div (a b : Z) :
  (0 < b)%Z -> Zfloor (IZR a / IZR b) = (a / b)%Z.
Proof.
  intros Hb. apply Zfloor_eq.
  pose proof (Z.div_mod a b ltac:(lia)) as Hdm.
  pose proof (Z.mod_pos_bound a b Hb) as [Hr0 Hrb].
  assert (Hbpos : 0 < IZR b) by (apply IZR_lt; exact Hb).
  assert (Ha : IZR a = IZR b * IZR (a / b) + IZR (a mod b)).
  { rewrite <- mult_IZR, <- plus_IZR. f_equal. exact Hdm. }
  apply IZR_le in Hr0. apply IZR_lt in Hrb.
  split.
  - apply Rmult_le_reg_r with (r := IZR b); [exact Hbpos|].
    unfold Rdiv. rewrite Rmult_assoc, Rinv_l by lra. lra.
  - apply Rmult_lt_reg_r with (r := IZR b); [exact Hbpos|].
    unfold Rdiv. rewrite Rmult_assoc, Rinv_l by lra. lra.
Qed.

(** With a positive attempt count the logarithm's argument is the integer
    quotient of [n_items - 1] by [nsamp], whatever its size. *)
Lemma warp_log_arg_quotient (n_items nsamp : Z) :
  (1 <= nsamp)%Z ->
  warp_log_arg n_items nsamp = Finite (IZR ((n_items - 1) / nsamp)).
Proof.
  intros Hn. unfold warp_log_arg, tdiv.
  destruct (Req_dec_T (IZR nsamp) 0) as [E|_].
  - apply eq_IZR in E. lia.
  - simpl. rewrite Zfloor_IZR_div by lia. reflexivity.
Qed.

Lemma log_finite_pos (r : R) : 0 < r -> log (Finite r) = Finite (ln r).
Proof.
  intros Hr. simpl. destruct (Rlt_dec 0 r); [reflexivity|contradiction].
Qed.

Lemma log_zero : log (Finite 0) = NegInf.
Proof.
  simpl. destruct (Rlt_dec 0 0) as [H|_]; [lra|].
  destruct (Req_dec_T 0 0) as [_|H]; [reflexivity|lra].
Qed.

Lemma ln_IZR_pos (n : Z) : (2 <= n)%Z -> 0 < ln (IZR n).
Proof.
  intros Hn. rewrite <- ln_1. apply ln_increasing; [lra|].
  apply IZR_lt. lia.
Qed.

Lemma ln_IZR_nonneg (n : Z) : (1 <= n)%Z -> 0 <= ln (IZR n).
Proof.
  intros Hn. destruct (Z.eq_dec n 1) as [->|Hne].
  - rewrite ln_1. lra.
  - left. apply ln_IZR_pos. lia.
Qed.

Lemma ln_IZR_le (m n : Z) : (1 <= m <= n)%Z -> ln (IZR m) <= ln (IZR n).
Proof.
  intros [H1 H2]. destruct (Z.eq_dec m n) as [->|Hne]; [lra|].
  left. apply ln_increasing.
  - apply IZR_lt. lia.
  - apply IZR_lt. lia.
Qed.

(** The weight in closed form wherever the quotient is positive. *)
Lemma warp_weight_closed (n_items nsamp : Z) :
  (2 <= n_items)%Z -> (1 <= nsamp <= n_items - 1)%Z ->
  warp_weight n_items nsamp =
  Finite (ln (IZR ((n_items - 1) / nsamp)) / ln (IZR n_items)).
Proof.
  intros HN Hn. unfold warp_weight.
  rewrite warp_log_arg_quotient by lia.
  assert (Hq : (1 <= (n_items - 1) / nsamp)%Z).
  { apply Z.div_le_lower_bound; lia. }
  rewrite !log_finite_pos by (apply IZR_lt; lia).
  unfold tdiv. pose proof (ln_IZR_pos n_items HN).
  destruct (Req_dec_T (ln (IZR n_items)) 0); [lra|reflexivity].
Qed.

(** Past [n_items - 1] attempts the quotient is 0 and the weight is minus
    infinity. *)
Lemma warp_weight_past_domain (n_items nsamp : Z) :
  (2 <= n_items)%Z -> (n_items - 1 < nsamp)%Z ->
  warp_log_arg n_items nsamp = Finite 0 /\
  warp_weight n_items nsamp = NegInf.
Proof.
  intros HN Hn. unfold warp_weight.
  rewrite warp_log_arg_quotient by lia.
  rewrite Z.div_small by lia. split; [reflexivity|].
  rewrite log_zero, log_finite_pos by (apply IZR_lt; lia).
  unfold tdiv. pose proof (ln_IZR_pos n_items HN).
  destruct (Rlt_dec (ln (IZR n_items)) 0); [lra|reflexivity].
Qed.

Lemma sigmoid_alt (x : R) : 1 - sigmoid x = exp (- x) / (1 + exp (- x)).
Proof.
  unfold sigmoid. pose proof (exp_pos (- x)). field. lra.
Qed.

Lemma ratio_increasing (a b : R) :
  0 < a -> a < b -> a / (1 + a) < b / (1 + b).
Proof.
  intros Ha Hab.
  assert (E : forall t, 0 < t -> t / (1 + t) = 1 - / (1 + t)).
  { intros t Ht. field. lra. }
  rewrite (E a), (E b) by lra.
  assert (/ (1 + b) < / (1 + a)).
  { apply Rinv_lt_contravar; [|lra].
    apply Rmult_lt_0_compat; lra. }
  lra.
Qed.

(** In exact arithmetic the hinge loss is never negative and is 0 exactly
    when the positive score exceeds the negative score by the margin. *)
Lemma hinge_exact_zero_iff (pos_score neg_score : R) :
  0 <= forward_hinge pos_score neg_score /\
  (forward_hinge pos_score neg_score = 0 <-> pos_score - neg_score >= 1).
Proof.
  unfold forward_hinge, clamp_min.
  destruct (Rlt_dec (1 + neg_score - pos_score) 0) as [Hlt|Hge].
  - split; [lra|]. split; intros; lra.
  - split; [lra|]. split; intros; lra.
Qed.

(** In exact arithmetic the sigmoid loss lies strictly between 0 and 1
    and gets strictly smaller when the score gap gets larger. *)
Lemma sigmoid_exact_range_and_decrease :
  (forall pos_score neg_score : R,
      0 < forward_sigmoid pos_score neg_score < 1) /\
  (forall p n p' n' : R,
      p - n < p' - n' -> forward_sigmoid p' n' < forward_sigmoid p n).
Proof.
  unfold forward_sigmoid. repeat split.
  - rewrite sigmoid_alt. pose proof (exp_pos (- (pos_score - neg_score))).
    apply Rdiv_lt_0_compat; lra.
  - rewrite sigmoid_alt. pose proof (exp_pos (- (pos_score - neg_score))).
    apply Rmult_lt_reg_r with (r := 1 + exp (- (pos_score - neg_score)));
      [lra|].
    unfold Rdiv. rewrite Rmult_assoc, Rinv_l by lra. lra.
  - intros p n p' n' Hgap. rewrite !sigmoid_alt.
    apply ratio_increasing; [apply exp_pos|].
    apply exp_increasing. lra.
Qed.

(** C3: for a catalog of [n_items >= 2] items the WARP weight is
    [ln(floor((n_items-1)/nsamp)) / ln(n_items)] on the attempt counts
    [1 .. n_items-1]; there it does not increase when the count increases,
    and [w(1) >= w(n_items-1) >= 0] with [w(n_items-1) = 0]. *)
Theorem warp_weight_non_increasing (n_items : Z) :
  (2 <= n_items)%Z ->
  (forall nsamp : Z, (1 <= nsamp <= n_items - 1)%Z ->
      warp_weight n_items nsamp =
      Finite (ln (IZR ((n_items - 1) / nsamp)) / ln (IZR n_items))) /\
  (forall a b : Z, (1 <= a)%Z -> (a <= b)%Z -> (b <= n_items - 1)%Z ->
      exists wa wb : R,
        warp_weight n_items a = Finite wa /\
        warp_weight n_items b = Finite wb /\
        wb <= wa) /\
  (exists w1 : R,
      warp_weight n_items 1 = Finite w1 /\
      warp_weight n_items (n_items - 1) = Finite 0 /\
      w1 >= 0).
Proof.
  intros HN. pose proof (ln_IZR_pos n_items HN) as HlnN.
  split; [|split].
  - intros nsamp Hn. apply warp_weight_closed; assumption.
  - intros a b Ha Hab Hb.
    do 2 eexists. rewrite !warp_weight_closed by lia.
    split; [reflexivity|]. split; [reflexivity|].
    apply Rmult_le_compat_r; [left; apply Rinv_0_lt_compat; exact HlnN|].
    apply ln_IZR_le. split.
    + apply Z.div_le_lower_bound; lia.
    + apply Z.div_le_compat_l; lia.
  - eexists. rewrite !warp_weight_closed by lia.
    split; [reflexivity|]. split.
    + rewrite Z.div_same by lia. rewrite ln_1. f_equal. unfold Rdiv. lra.
    + apply Rle_ge. apply Rmult_le_pos;
        [|left; apply Rinv_0_lt_compat; exact HlnN].
      apply ln_IZR_nonneg. apply Z.div_le_lower_bound; lia.
Qed.

(** At the notebook's catalog size, 1683 items: one attempt weighs at least
    as much as a hundred. *)
Lemma warp_weight_non_increasing_witness :
  exists wa wb : R,
    warp_weight 1683 1 = Finite wa /\
    warp_weight 1683 100 = Finite wb /\
    wb <= wa.
Proof.
  destruct (warp_weight_non_increasing 1683 ltac:(lia)) as (_ & Hmono & _).
  apply (Hmono 1%Z 100%Z); lia.
Defined.

(** C1, as the code has it: [warp_weight] applies no clamp.  For a catalog
    of [n_items >= 2] items and a positive attempt count the logarithm's
    argument [floor((n_items-1)/nsamp)] is at least 1 exactly when
    [nsamp <= n_items - 1]; so whenever the cap [max_samples] is at most
    [n_items - 1], every count [1 <= nsamp <= max_samples] gives an
    argument of at least 1 and a finite, non-negative weight. *)
Theorem warp_weight_defined_within_catalog (n_items max_samples nsamp : Z) :
  (2 <= n_items)%Z ->
  (max_samples <= n_items - 1)%Z ->
  (1 <= nsamp <= max_samples)%Z ->
  exists arg w : R,
    warp_log_arg n_items nsamp = Finite arg /\ 1 <= arg /\
    warp_weight n_items nsamp = Finite w /\ 0 <= w.
Proof.
  intros HN Hcap Hn.
  assert (Hq : (1 <= (n_items - 1) / nsamp)%Z).
  { apply Z.div_le_lower_bound; lia. }
  exists (IZR ((n_items - 1) / nsamp)).
  exists (ln (IZR ((n_items - 1) / nsamp)) / ln (IZR n_items)).
  split; [apply warp_log_arg_quotient; lia|].
  split; [apply IZR_le; exact Hq|].
  split; [apply warp_weight_closed; lia|].
  apply Rmult_le_pos.
  - apply ln_IZR_nonneg. exact Hq.
  - left. apply Rinv_0_lt_compat. apply ln_IZR_pos. exact HN.
Qed.

(** The notebook's setting: 1683 items, at most 100 attempts. *)
Lemma warp_weight_defined_within_catalog_witness :
  exists arg w : R,
    warp_log_arg 1683 100 = Finite arg /\ 1 <= arg /\
    warp_weight 1683 100 = Finite w /\ 0 <= w.
Proof.
  apply (warp_weight_defined_within_catalog 1683 100 100); lia.
Defined.

(** C1 as the spec states it fails: with 50 items and the default cap of
    100 attempts, the count 100 is within the cap, the logarithm's argument
    is 0 (below 1, nothing clamps it) and the weight is minus infinity. *)
Lemma warp_weight_unclamped :
  (1 <= 100 <= Sampler.default_max_samples)%Z /\
  warp_log_arg 50 100 = Finite 0 /\
  warp_weight 50 100 = NegInf /\
  ~ is_finite (warp_weight 50 100).
Proof.
  split; [unfold Sampler.default_max_samples; lia|].
  destruct (warp_weight_past_domain 50 100) as [Harg Hw]; [lia|lia|].
  split; [exact Harg|]. split; [exact Hw|].
  rewrite Hw. simpl. tauto.
Qed.

End LossProps.

(** ** The losses on float32 tensors *)

Module Loss32Props.

Import Float F32 TripletLoss32 F32Props.
Local Open Scope R_scope.

Lemma hinge_nonneg (pos_score neg_score : R) :
  forward_hinge (Finite pos_score) (Finite neg_score) = PosInf \/
  exists l : R,
    forward_hinge (Finite pos_score) (Finite neg_score) = Finite l /\
    0 <= l.
Proof.
  unfold forward_hinge, fadd.
  destruct (fl_cases (1 + neg_score)) as [[-> _]|[[-> _]|[-> _]]];
    cbn [fsub clamp_min].
  - left. reflexivity.
  - right. exists 0. split; [reflexivity|lra].
  - destruct (fl_cases (round (1 + neg_score) - pos_score))
      as [[-> _]|[[-> _]|[-> _]]]; cbn [clamp_min].
    + left. reflexivity.
    + right. exists 0. split; [reflexivity|lra].
    + right.
      destruct (Rlt_dec (round (round (1 + neg_score) - pos_score)) 0).
      * exists 0. split; [reflexivity|lra].
      * eexists. split; [reflexivity|lra].
Qed.

(** The loss is zero exactly when the rounded sum [1.0 + neg] does not
    exceed the positive's score. *)
Lemma hinge_zero_iff (pos_score neg_score : R) :
  is_float32 pos_score ->
  forward_hinge (Finite pos_score) (Finite neg_score) = Finite 0 <->
  le (fadd (Finite 1) (Finite neg_score)) (Finite pos_score).
Proof.
  intros Hp. unfold forward_hinge, fadd.
  destruct (fl_cases (1 + neg_score)) as [[-> _]|[[-> _]|[-> Ha]]];
    cbn [fsub clamp_min le].
  - split; [discriminate|tauto].
  - split; [intros _; exact I|reflexivity].
  - set (a := round (1 + neg_score)) in *.
    destruct (Rle_dec a pos_score) as [Hle|Hgt].
    + split; [intros _; exact Hle|intros _].
      assert (Hr : round (a - pos_score) <= 0).
      { rewrite <- round_0. apply round_mono. lra. }
      destruct (fl_cases (a - pos_score)) as [[-> H]|[[-> H]|[-> H]]];
        cbn [clamp_min].
      * pose proof (bpow_pos 128). lra.
      * reflexivity.
      * destruct (Rlt_dec (round (a - pos_score)) 0); [reflexivity|].
        f_equal. lra.
    + split; [|intros H; contradiction].
      intros H. exfalso.
      destruct (round_grid (1 + neg_score)) as [ka Eka]. fold a in Eka.
      destruct (round_grid pos_score) as [kp Ekp].
      rewrite (is_float32_round _ Hp) in Ekp.
      pose proof (bpow_pos (-149)) as Hu.
      assert (Hk : (kp < ka)%Z).
      { apply lt_IZR. apply Rmult_lt_reg_r with (r := bpow (-149)); lra. }
      assert (Hd : bpow (-149) <= a - pos_score).
      { rewrite Eka, Ekp, <- Rmult_minus_distr_r, <- minus_IZR.
        rewrite <- (Rmult_1_l (bpow (-149))) at 1.
        apply Rmult_le_compat_r; [lra|]. apply (IZR_le 1). lia. }
      assert (Hr : bpow (-149) <= round (a - pos_score)).
      { rewrite <- (is_float32_round (bpow (-149))).
        - apply round_mono. exact Hd.
        - rewrite <- (Rmult_1_l (bpow (-149))).
          apply (is_float32_dyadic 1); [cbn; lia|lia]. }
      destruct (fl_cases (a - pos_score)) as [[E _]|[[E Hn]|[E _]]];
        rewrite E in H; cbn [clamp_min] in H.
      * discriminate H.
      * pose proof (bpow_pos 128). lra.
      * destruct (Rlt_dec (round (a - pos_score)) 0); [lra|].
        injection H as H. lra.
Qed.

Lemma hinge_margin (pos_score neg_score : R) :
  is_float32 pos_score -> pos_score - neg_score >= 1 ->
  le (fadd (Finite 1) (Finite neg_score)) (Finite pos_score).
Proof.
  intros Hp Hgap. cbn [fadd]. rewrite <- (fl_float32 _ Hp).
  apply fl_mono. lra.
Qed.

Section WithExp.

Variable expf : R -> tfloat.
Hypothesis expf_faithful : exp_faithful expf.

Lemma sigmoid_loss_range (pos_score neg_score : R) :
  exists l : R,
    forward_sigmoid expf (Finite pos_score) (Finite neg_score) = Finite l /\
    0 <= l <= 1.
Proof.
  unfold forward_sigmoid.
  destruct (sigmoid_range expf expf_faithful
              (fsub (Finite pos_score) (Finite neg_score))
              (fsub_not_nan _ _)) as (s & -> & Hs).
  cbn [fsub].
  apply fl_between; [exact is_float32_0|exact is_float32_1|lra].
Qed.

Lemma sigmoid_loss_saturated (pos_score neg_score : R) :
  17 <= pos_score - neg_score ->
  forward_sigmoid expf (Finite pos_score) (Finite neg_score) = Finite 0.
Proof.
  intros H. unfold forward_sigmoid.
  rewrite (sigmoid_saturated expf expf_faithful).
  - cbn [fsub]. replace (1 - 1) with 0 by lra. exact fl_0.
  - cbn [fsub]. apply le_Finite_fl; [|exact H].
    apply (is_float32_Z 17). cbn. lia.
Qed.

Lemma sigmoid_loss_anti (p n p' n' : R) :
  exp_monotone expf ->
  p - n <= p' - n' ->
  le (forward_sigmoid expf (Finite p') (Finite n'))
     (forward_sigmoid expf (Finite p) (Finite n)).
Proof.
  intros Hmono H. unfold forward_sigmoid.
  assert (Hd : le (fsub (Finite p) (Finite n)) (fsub (Finite p') (Finite n')))
    by (cbn; apply fl_mono; exact H).
  apply (sigmoid_mono expf expf_faithful Hmono) in Hd.
  destruct (sigmoid_range expf expf_faithful
              (fsub (Finite p) (Finite n)) (fsub_not_nan _ _))
    as (s & Es & Hs).
  destruct (sigmoid_range expf expf_faithful
              (fsub (Finite p') (Finite n')) (fsub_not_nan _ _))
    as (s' & Es' & Hs').
  rewrite Es, Es' in *. cbn in Hd. cbn [fsub]. apply fl_mono. lra.
Qed.

End WithExp.

(** C8, as the code has it: for every pair of float32 scores the hinge
    loss [torch.clamp(1.0 + neg_score - pos_score, min=0.0)] is never
    negative (a number that is at least 0, or plus infinity when the sum
    overflows), and it is 0 whenever the positive score exceeds the
    negative score by at least the margin 1.0.  The loss is 0 exactly when
    the positive score is at least the rounded sum [1.0 + neg_score],
    which a gap below the margin can meet as well. *)
Theorem forward_hinge_nonneg_zero_from_margin (pos_score neg_score : R) :
  is_float32 pos_score -> is_float32 neg_score ->
  (forward_hinge (Finite pos_score) (Finite neg_score) = PosInf \/
   exists l : R,
     forward_hinge (Finite pos_score) (Finite neg_score) = Finite l /\
     0 <= l) /\
  (pos_score - neg_score >= 1 ->
   forward_hinge (Finite pos_score) (Finite neg_score) = Finite 0) /\
  (forward_hinge (Finite pos_score) (Finite neg_score) = Finite 0 <->
   le (fadd (Finite 1) (Finite neg_score)) (Finite pos_score)).
Proof.
  intros Hp _. split; [apply hinge_nonneg|]. split.
  - intros Hgap. apply hinge_zero_iff; [exact Hp|].
    apply hinge_margin; assumption.
  - apply hinge_zero_iff. exact Hp.
Qed.

Lemma forward_hinge_nonneg_zero_from_margin_witness :
  is_float32 1 /\ is_float32 0 /\
  forward_hinge (Finite 1) (Finite 0) = Finite 0.
Proof.
  split; [exact is_float32_1|]. split; [exact is_float32_0|].
  destruct (forward_hinge_nonneg_zero_from_margin 1 0
              is_float32_1 is_float32_0) as (_ & H & _).
  apply H. lra.
Defined.

Lemma is_float32_1e8 : is_float32 100000000.
Proof.
  replace 100000000 with (IZR 390625 * bpow 8).
  - apply is_float32_dyadic; [cbn; lia|lia].
  - rewrite bpow_IZR by lia. rewrite <- mult_IZR. reflexivity.
Qed.

(** [1.0 + 1e8] is not a float32 number: the sum is [1e8] again. *)
Lemma fl_1_plus_1e8 : fl (1 + 100000000) = Finite 100000000.
Proof.
  apply fl_rounds_to; [|exact is_float32_1e8].
  { rewrite (round_near (1 + 100000000) 26 12500000).
    - change (26 - 23)%Z with 3%Z. rewrite bpow_IZR by lia.
      rewrite <- mult_IZR. reflexivity.
    - unfold emin. lia.
    - rewrite Rabs_pos_eq by lra. rewrite !bpow_IZR by lia.
      change (IZR (2 ^ 26)) with 67108864.
      change (IZR (2 ^ (26 + 1))) with 134217728. lra.
    - change (26 - 23)%Z with 3%Z. rewrite bpow_IZR by lia.
      change (IZR (2 ^ 3)) with 8.
      replace ((1 + 100000000) / 8 - 12500000) with (1 / 8) by lra.
      rewrite Rabs_pos_eq; lra. }
Qed.

(** C8 as the spec states it fails: two equal scores of 1e8 have the
    gap 0, below the margin, and the hinge loss 0. *)
Lemma forward_hinge_zero_below_margin :
  is_float32 100000000 /\
  forward_hinge (Finite 100000000) (Finite 100000000) = Finite 0 /\
  ~ (100000000 - 100000000 >= 1).
Proof.
  split; [exact is_float32_1e8|]. split; [|lra].
  apply hinge_zero_iff; [exact is_float32_1e8|].
  cbn [fadd]. rewrite fl_1_plus_1e8. cbn. lra.
Qed.

(** The same just below the margin: with the scores 1 and 2^-26 the gap
    is less than 1 and the loss is 0. *)
Example forward_hinge_zero_near_margin :
  is_float32 (bpow (-26)) /\
  forward_hinge (Finite 1) (Finite (bpow (-26))) = Finite 0 /\
  1 - bpow (-26) < 1.
Proof.
  pose proof (bpow_pos (-26)) as Hu.
  split; [|split; [|lra]].
  - rewrite <- (Rmult_1_l (bpow (-26))).
    apply (is_float32_dyadic 1); [cbn; lia|lia].
  - apply hinge_zero_iff; [exact is_float32_1|].
    cbn [fadd].
    rewrite (fl_rounds_to (1 + bpow (-26)) 1);
      [cbn; lra| |exact is_float32_1].
    apply round_one_plus_tiny. split; [lra|]. apply bpow_le. lia.
Qed.


Lemma is_float32_17 : is_float32 17.
Proof. apply (is_float32_Z 17). cbn. lia. Qed.

Lemma is_float32_18 : is_float32 18.
Proof. apply (is_float32_Z 18). cbn. lia. Qed.



(** Two equal scores: the hinge loss is 1, the sigmoid loss one half. *)
Example losses_of_equal_scores (expf : R -> tfloat) :
  exp_faithful expf ->
  forward_hinge (Finite 0) (Finite 0) = Finite 1 /\
  forward_sigmoid expf (Finite 0) (Finite 0) = Finite (1 / 2).
Proof.
  intros Hexp.
  assert (H2 : is_float32 2) by (apply (is_float32_Z 2); cbn; lia).
  assert (Hh : is_float32 (1 / 2)).
  { replace (1 / 2) with (IZR 1 * bpow (-1)).
    - apply is_float32_dyadic; [cbn; lia|lia].
    - pose proof (bpow_shift (-1) 1 ltac:(lia)) as E.
      change (-1 + 1)%Z with 0%Z in E. rewrite bpow_0 in E.
      change (IZR (2 ^ 1)) with 2 in E. lra. }
  split.
  - unfold forward_hinge. cbn [fadd].
    replace (1 + 0) with 1 by lra. rewrite fl_1. cbn [fsub].
    replace (1 - 0) with 1 by lra. rewrite fl_1. cbn [clamp_min].
    destruct (Rlt_dec 1 0); [lra|reflexivity].
  - unfold forward_sigmoid, sigmoid. cbn [fsub].
    replace (0 - 0) with 0 by lra. rewrite fl_0. cbn [fneg fexp].
    rewrite Ropp_0.
    assert (E1 : expf 0 = Finite 1).
    { destruct (Hexp 0 1 is_float32_1) as [Hlo Hhi].
      rewrite exp_0 in Hlo, Hhi.
      specialize (Hlo (Rle_refl 1)). specialize (Hhi (Rle_refl 1)).
      destruct (expf 0) as [e| | |]; cbn [le] in Hlo, Hhi;
        try contradiction.
      f_equal. lra. }
    rewrite E1. cbn [fadd].
    replace (1 + 1) with 2 by lra. rewrite (fl_float32 2 H2). cbn [fdiv].
    destruct (Req_dec_T 2 0); [lra|].
    rewrite (fl_float32 (1 / 2) Hh). cbn [fsub].
    replace (1 - 1 / 2) with (1 / 2) by lra. exact Hh.
Qed.

End Loss32Props.

(** ** The model *)

Module FactNetProps.

Import Py FactNet.
Local Open Scope py_scope.

(** C7: the paired forward function returns exactly the two scores that
    [predict_score] gives for (user, positive item) and (user, negative
    item), both read from the one item-embedding table; it raises exactly
    when one of the two scorings raises.  In particular an item used as
    both positive and negative gets the same score twice. *)
Theorem forward_is_paired_predict_score (self : FactNet.t) :
  (forall uid pid nid : list Z,
      forward self uid pid nid =
      (pos_pred <- predict_score self uid pid ;;
       neg_pred <- predict_score self uid nid ;;
       Some (pos_pred, neg_pred))) /\
  (forall (uid iid : list Z) (a b : list R),
      forward self uid iid iid = Some (a, b) -> a = b).
Proof.
  assert (Hpair : forall uid pid nid,
             forward self uid pid nid =
             (pos_pred <- predict_score self uid pid ;;
              neg_pred <- predict_score self uid nid ;;
              Some (pos_pred, neg_pred))).
  { intros uid pid nid. unfold forward, predict_score.
    destruct (embedding (user_embedding_layer self) uid) as [ue|];
      [|reflexivity].
    destruct (embedding (item_embedding_layer self) pid) as [pe|];
      [|reflexivity].
    destruct (embedding (item_embedding_layer self) nid) as [ne|]; simpl.
    - reflexivity.
    - destruct (mul_sum ue pe); reflexivity. }
  split; [exact Hpair|].
  intros uid iid a b H. rewrite Hpair in H.
  destruct (predict_score self uid iid) as [s|]; simpl in H.
  - injection H as <- <-. reflexivity.
  - discriminate.
Qed.

End FactNetProps.

(** ** Mini-batches *)

Module BatcherProps.

Import Py Batcher.

Section WithElem.
Context {A : Type}.

(** One turn of the loop. *)
Lemma batcher_loop_unfold (it : list A) (n : nat) :
  batcher_loop it n =
  match firstn n it with
  | [] => []
  | chunk => chunk :: batcher_loop (skipn n it) n
  end.
Proof.
  funelim (batcher_loop it n).
  - rewrite e'. reflexivity.
  - match goal with E : firstn _ _ = _ :: _ |- _ => rewrite E end.
    reflexivity.
Qed.

Lemma batcher_loop_nil (n : nat) : batcher_loop (@nil A) n = [].
Proof. rewrite batcher_loop_unfold. rewrite firstn_nil. reflexivity. Qed.

Lemma batcher_loop_cons (a : A) (it : list A) (n : nat) :
  batcher_loop (a :: it) (S n) =
  firstn (S n) (a :: it) :: batcher_loop (skipn (S n) (a :: it)) (S n).
Proof. rewrite batcher_loop_unfold. reflexivity. Qed.

(** The chunks, put end to end, are the input. *)
Lemma batcher_loop_concat (n : nat) (it : list A) :
  concat (batcher_loop it (S n)) = it.
Proof.
  remember (length it) as k eqn:Hk.
  revert it Hk. induction k as [k IH] using lt_wf_ind. intros it Hk.
  destruct it as [|a it].
  - rewrite batcher_loop_nil. reflexivity.
  - rewrite batcher_loop_cons.
    change (concat (?c :: ?r)) with (c ++ concat r).
    rewrite (IH (length (skipn (S n) (a :: it)))); [| |reflexivity].
    + apply firstn_skipn.
    + subst k. rewrite length_skipn. simpl. lia.
Qed.

(** Chunk number [i] is the [i]-th window of width [S n]. *)
Lemma batcher_loop_nth (n : nat) (i : nat) :
  forall (it : list A) (c : list A),
    nth_error (batcher_loop it (S n)) i = Some c ->
    c = firstn (S n) (skipn (i * S n) it).
Proof.
  induction i as [|i IH]; intros it c H.
  - destruct it as [|a it].
    + rewrite batcher_loop_nil in H. discriminate.
    + rewrite batcher_loop_cons in H. simpl in H. injection H as <-.
      reflexivity.
  - destruct it as [|a it].
    + rewrite batcher_loop_nil in H. discriminate.
    + rewrite batcher_loop_cons in H.
      change (nth_error (?x :: ?r) (S i)) with (nth_error r i) in H.
      apply IH in H. rewrite H.
      rewrite skipn_skipn. f_equal. f_equal. lia.
Qed.

(** The number of chunks is the ceiling of length over width. *)
Lemma batcher_loop_count (n : nat) (it : list A) :
  (length it <= length (batcher_loop it (S n)) * S n < length it + S n)%nat.
Proof.
  remember (length it) as k eqn:Hk.
  revert it Hk. induction k as [k IH] using lt_wf_ind. intros it Hk.
  destruct it as [|a it].
  - rewrite batcher_loop_nil. simpl in *. lia.
  - rewrite batcher_loop_cons.
    change (length (?c :: ?r)) with (S (length r)).
    specialize (IH (length (skipn (S n) (a :: it)))).
    rewrite length_skipn in IH.
    assert (Hlt : (length (a :: it) - S n < k)%nat) by (simpl in *; lia).
    specialize (IH Hlt (skipn (S n) (a :: it))).
    rewrite length_skipn in IH. specialize (IH eq_refl).
    set (m := length (batcher_loop (skipn (S n) (a :: it)) (S n))) in *.
    cbn [length] in *.
    destruct (Nat.le_gt_cases (S n) (S (length it))) as [Hle|Hgt].
    + lia.
    + assert (Hm : m = 0%nat) by (destruct m; [reflexivity|nia]).
      rewrite Hm in *. lia.
Qed.

(** The size of chunk [i]: a full window, or what is left of the input. *)
Lemma batcher_loop_chunk_length (n i : nat) (it c : list A) :
  nth_error (batcher_loop it (S n)) i = Some c ->
  length c = Nat.min (S n) (length it - i * S n).
Proof.
  intros H. apply batcher_loop_nth in H. subst c.
  rewrite length_firstn, length_skipn. reflexivity.
Qed.

(** C5: for a batch size [B >= 1] and an input of length [L], [batcher]
    yields [ceil(L/B)] chunks which, in order, make up the input; every
    chunk but the last has size [B], the last has size [L mod B], or [B]
    when [L mod B = 0]; the empty input yields no chunk. *)
Theorem batcher_yields_ceil_chunks (iterable : list A) (batch_size : Z) :
  1 <= batch_size ->
  exists chunks : list (list A),
    batcher iterable batch_size = Some chunks /\
    concat chunks = iterable /\
    len chunks = (len iterable + batch_size - 1) / batch_size /\
    (forall (i : nat) (c : list A),
        nth_error chunks i = Some c -> (S i < length chunks)%nat ->
        len c = batch_size) /\
    (forall (i : nat) (c : list A),
        nth_error chunks i = Some c -> S i = length chunks ->
        len c = if len iterable mod batch_size =? 0 then batch_size
                else len iterable mod batch_size) /\
    (iterable = [] -> chunks = []).
Proof.
  intros HB. unfold batcher.
  destruct (batch_size <? 0) eqn:Hneg; [lia|].
  destruct (Z.to_nat batch_size) as [|n] eqn:Hn; [lia|].
  assert (HBn : batch_size = Z.of_nat (S n)) by lia.
  exists (batcher_loop iterable (S n)).
  pose proof (batcher_loop_count n iterable) as Hcount.
  set (chunks := batcher_loop iterable (S n)) in *.
  unfold len.
  split; [reflexivity|].
  split; [apply batcher_loop_concat|].
  split.
  { apply Z.div_unique
      with (r := Z.of_nat (length iterable) + batch_size - 1
                 - batch_size * Z.of_nat (length chunks)).
    - left. nia.
    - lia. }
  split.
  { intros i c Hc Hi. apply batcher_loop_chunk_length in Hc.
    assert (Hfull : (S n <= length iterable - i * S n)%nat) by nia.
    lia. }
  split.
  { intros i c Hc Hi. apply batcher_loop_chunk_length in Hc.
    assert (Hi' : length chunks = S i) by lia. rewrite Hi' in Hcount.
    assert (Hrest : (length iterable - i * S n <= S n)%nat) by nia.
    assert (Hlen : (length c = length iterable - i * S n)%nat) by lia.
    assert (Hsplit : Z.of_nat (length iterable)
                     = batch_size * Z.of_nat i + Z.of_nat (length c)) by nia.
    assert (Hpos : (1 <= length c)%nat) by nia.
    destruct (Nat.eq_dec (length c) (S n)) as [Efull|Epart].
    - assert (Hmod : Z.of_nat (length iterable) mod batch_size = 0).
      { symmetry.
        apply Z.mod_unique with (q := Z.of_nat i + 1); [left; lia|nia]. }
      rewrite Hmod. simpl. lia.
    - assert (Hmod : Z.of_nat (length iterable) mod batch_size
                     = Z.of_nat (length c)).
      { symmetry.
        apply Z.mod_unique with (q := Z.of_nat i); [left; lia|nia]. }
      rewrite Hmod.
      destruct (Z.of_nat (length c) =? 0) eqn:E0; lia. }
  intros ->. apply batcher_loop_nil.
Qed.

End WithElem.

(** Ten ids in batches of four: three chunks, the last of two ids. *)
Example batcher_ten_by_four :
  batcher [0; 1; 2; 3; 4; 5; 6; 7; 8; 9] 4
  = Some [[0; 1; 2; 3]; [4; 5; 6; 7]; [8; 9]].
Proof. reflexivity. Qed.

(** A batch size of 0 ends the generator at once; a negative one raises. *)
Example batcher_zero_and_negative :
  batcher [0; 1; 2] 0 = Some [] /\ batcher [0; 1; 2] (-1) = None.
Proof. split; reflexivity. Qed.

Lemma batcher_yields_ceil_chunks_witness :
  exists chunks : list (list Z),
    batcher [0; 1; 2; 3; 4; 5; 6; 7; 8; 9] 4 = Some chunks /\
    concat chunks = [0; 1; 2; 3; 4; 5; 6; 7; 8; 9] /\
    len chunks = (len [0; 1; 2; 3; 4; 5; 6; 7; 8; 9] + 4 - 1) / 4 /\
    (forall (i : nat) (c : list Z),
        nth_error chunks i = Some c -> (S i < length chunks)%nat ->
        len c = 4) /\
    (forall (i : nat) (c : list Z),
        nth_error chunks i = Some c -> S i = length chunks ->
        len c = if len [0; 1; 2; 3; 4; 5; 6; 7; 8; 9] mod 4 =? 0 then 4
                else len [0; 1; 2; 3; 4; 5; 6; 7; 8; 9] mod 4) /\
    ([0; 1; 2; 3; 4; 5; 6; 7; 8; 9] = [] -> chunks = []).
Proof.
  apply (batcher_yields_ceil_chunks [0; 1; 2; 3; 4; 5; 6; 7; 8; 9] 4). lia.
Defined.

End BatcherProps.

(** ** Negative sampling *)

Module SamplerProps.

Import Py Sparse Sampler.
Local Open Scope py_scope.

Lemma randint_some (low high : Z) (g g' : Random.state) (d : Z) :
  Random.randint low high g = (Some d, g') ->
  low < high /\ d = Random.tape g (Random.cursor g) /\
  g' = Random.mk (Random.tape g) (S (Random.cursor g)).
Proof.
  unfold Random.randint. destruct (low <? high) eqn:E; intros H.
  - injection H as <- <-. repeat split. lia.
  - discriminate.
Qed.

Lemma randint_none (low high : Z) (g g' : Random.state) :
  Random.randint low high g = (None, g') -> high <= low /\ g' = g.
Proof.
  unfold Random.randint. destruct (low <? high) eqn:E; intros H.
  - discriminate.
  - injection H as <-. split; [lia|reflexivity].
Qed.

(** Replace the equation of a [randint] call by what it says. *)
Ltac invert_randint :=
  match goal with
  | H : Random.randint _ _ _ = (None, _) |- _ =>
      apply randint_none in H; destruct H as [? ->]
  | H : Random.randint _ _ _ = (Some _, _) |- _ =>
      apply randint_some in H; destruct H as (? & ? & ->)
  end.

(** What the loop leaves behind, from any state it can be entered in. *)
Lemma sample_loop_spec (n_items : Z) (pos : list Z) (cond : Z -> bool)
  (max_samples : Z) (neg : option Z) (n_sampled : Z) (g : Random.state) :
  let r := sample_loop n_items pos cond max_samples neg n_sampled g in
  Random.tape (snd r) = Random.tape g /\
  (Random.cursor g <= Random.cursor (snd r))%nat /\
  Z.of_nat (Random.cursor (snd r) - Random.cursor g)
    <= Z.max 0 (max_samples - n_sampled) /\
  match fst r with
  | Some (d, n) =>
      (n_sampled < max_samples ->
         n_sampled < n <= max_samples /\
         (Random.cursor g < Random.cursor (snd r))%nat /\
         d = Random.tape g (Random.cursor (snd r) - 1) /\
         Z.of_nat (Random.cursor (snd r) - Random.cursor g) = n - n_sampled /\
         (n < max_samples -> accepted pos cond d = true)) /\
      (~ n_sampled < max_samples -> neg = Some d /\ n = n_sampled)
  | None =>
      (n_sampled < max_samples /\ n_items <= 0) \/
      (~ n_sampled < max_samples /\ neg = None)
  end.
Proof.
  funelim (sample_loop n_items pos cond max_samples neg n_sampled g);
    cbn zeta.
  - (* the loop test fails *)
    cbn [fst snd]. repeat split; try lia.
    destruct neg as [d|]; cbn.
    + split; [lia|]. intros _. split; reflexivity.
    + right. split; [assumption|reflexivity].
  - (* randint raises *)
    invert_randint.
    cbn [fst snd]. repeat split; lia.
  - (* break *)
    invert_randint.
    cbn [fst snd Random.tape Random.cursor].
    repeat split; try lia.
    + subst d. f_equal. lia.
    + intros _. assumption.
  - (* another turn *)
    invert_randint.
    match goal with IH : Random.tape (snd _) = _ /\ _ |- _ =>
      destruct IH as (Ht & Hc & Hb & Hres) end.
    cbn [Random.tape Random.cursor] in *.
    set (r := sample_loop n_items pos cond max_samples (Some d)
                (n_sampled + 1)
                {| Random.tape := Random.tape g;
                   Random.cursor := S (Random.cursor g) |}) in *.
    split; [exact Ht|]. split; [lia|]. split; [lia|].
    destruct (fst r) as [[d' n']|].
    + destruct Hres as [Hin Hout]. split; [|lia].
      intros _.
      destruct (Z_lt_dec (n_sampled + 1) max_samples) as [Hmore|Hlast].
      * specialize (Hin Hmore). destruct Hin as (Hn & Hcur & Hd' & Hcnt & Hacc).
        repeat split; try lia; assumption.
      * specialize (Hout Hlast). destruct Hout as [Hsame ->].
        injection Hsame as <-.
        assert (Hstay : Random.cursor (snd r) = S (Random.cursor g)) by lia.
        rewrite Hstay. repeat split; try lia.
        subst d. f_equal. lia.
    + destruct Hres as [[_ Hn]|[Hlast Hnone]].
      * left. split; lia.
      * discriminate.
Qed.

Lemma accepted_true_iff (pos : list Z) (cond : Z -> bool) (d : Z) :
  accepted pos cond d = true <-> contains pos d = false /\ cond d = true.
Proof.
  unfold accepted.
  destruct (contains pos d), (cond d); cbn; split;
    intros H; try discriminate; try (destruct H; discriminate);
    repeat split.
Qed.

(** A predicate that is never true rejects every candidate. *)
Lemma accepted_never (pos : list Z) (cond : Z -> bool) :
  (forall d : Z, cond d = false) ->
  forall d : Z, accepted pos cond d = false.
Proof.
  intros Hnever d. unfold accepted. rewrite Hnever.
  destruct (contains pos d); reflexivity.
Qed.

(** So does a positive set that covers the catalog, for every candidate
    the random source can hand out. *)
Lemma accepted_covered (n_items : Z) (pos : list Z) (cond : Z -> bool)
  (g : Random.state) :
  Random.draws_in 0 n_items g ->
  (forall d : Z, 0 <= d < n_items -> contains pos d = true) ->
  forall k : nat, accepted pos cond (Random.tape g k) = false.
Proof.
  intros Hdraws Hcover k. unfold accepted.
  rewrite (Hcover _ (Hdraws k)). reflexivity.
Qed.

(** [sample_neg] is the loop entered with nothing drawn, once the user's
    row has been read. *)
Lemma sample_neg_loop (n_items user_ind : Z) (interactions : csr_matrix)
  (max_samples : Z) (cond : Z -> bool) (g : Random.state) (pos : list Z) :
  get_row_nz interactions user_ind = Some pos ->
  sample_neg n_items user_ind interactions max_samples cond g =
  sample_loop n_items pos cond max_samples None 0 g.
Proof. intros H. unfold sample_neg. rewrite H. reflexivity. Qed.

(** C2: when [sample_neg] returns an attempt count strictly below
    [max_samples], the returned item is not among the user's positives and
    the acceptance predicate holds of it; so a returned candidate that is a
    positive, or that the predicate rejects, comes with an attempt count
    equal to [max_samples]. *)
Theorem sample_neg_valid_before_cap (n_items user_ind : Z)
  (interactions : csr_matrix) (max_samples : Z) (violating_cond : Z -> bool)
  (g g' : Random.state) (user_pos_item_inds : list Z)
  (neg_item_ind n_sampled : Z) :
  get_row_nz interactions user_ind = Some user_pos_item_inds ->
  sample_neg n_items user_ind interactions max_samples violating_cond g
    = (Some (neg_item_ind, n_sampled), g') ->
  (n_sampled < max_samples ->
     contains user_pos_item_inds neg_item_ind = false /\
     violating_cond neg_item_ind = true) /\
  (contains user_pos_item_inds neg_item_ind = true \/
   violating_cond neg_item_ind = false ->
   n_sampled = max_samples).
Proof.
  intros Hrow Hres. rewrite (sample_neg_loop _ _ _ _ _ _ _ Hrow) in Hres.
  pose proof (sample_loop_spec n_items user_pos_item_inds violating_cond
                max_samples None 0 g) as Hspec.
  cbn zeta in Hspec. rewrite Hres in Hspec. cbn [fst snd] in Hspec.
  destruct Hspec as (_ & _ & _ & Hin & Hout).
  destruct (Z_lt_dec 0 max_samples) as [Hpos|Hnpos].
  - destruct (Hin Hpos) as (Hn & _ & _ & _ & Hacc).
    assert (Hvalid : n_sampled < max_samples ->
              contains user_pos_item_inds neg_item_ind = false /\
              violating_cond neg_item_ind = true).
    { intros Hlt. apply accepted_true_iff. apply Hacc. exact Hlt. }
    split; [exact Hvalid|].
    intros Hbad.
    destruct (Z_lt_dec n_sampled max_samples) as [Hlt|Hge]; [|lia].
    destruct (Hvalid Hlt) as [Hc Hv].
    destruct Hbad as [Hbad|Hbad]; congruence.
  - destruct (Hout Hnpos) as [Habs _]. discriminate.
Qed.

(** C6: with [max_samples >= 1], [sample_neg] returns (or raises) after
    drawing at most [max_samples] candidates from the random source, whatever
    the user id, the matrix and the predicate; when every candidate drawn is
    rejected (the predicate is never true, or the positives cover the
    catalog) it stops after exactly [max_samples] draws and returns the last
    candidate with the count [max_samples]. *)
Theorem sample_neg_bounded_draws (n_items user_ind : Z)
  (interactions : csr_matrix) (max_samples : Z) (violating_cond : Z -> bool)
  (g : Random.state) :
  1 <= max_samples ->
  exists (res : option (Z * Z)) (g' : Random.state),
    sample_neg n_items user_ind interactions max_samples violating_cond g
      = (res, g') /\
    Random.tape g' = Random.tape g /\
    (Random.cursor g <= Random.cursor g')%nat /\
    Z.of_nat (Random.cursor g' - Random.cursor g) <= max_samples /\
    (forall pos : list Z,
        get_row_nz interactions user_ind = Some pos ->
        0 < n_items ->
        (forall k : nat,
            accepted pos violating_cond (Random.tape g k) = false) ->
        res = Some (Random.tape g (Random.cursor g' - 1), max_samples) /\
        Z.of_nat (Random.cursor g' - Random.cursor g) = max_samples).
Proof.
  intros Hmax.
  destruct (sample_neg n_items user_ind interactions max_samples
              violating_cond g) as [res g'] eqn:Hrun.
  exists res, g'. split; [reflexivity|].
  unfold sample_neg in Hrun.
  destruct (get_row_nz interactions user_ind) as [pos|] eqn:Hrow.
  - pose proof (sample_loop_spec n_items pos violating_cond
                  max_samples None 0 g) as Hspec.
    cbn zeta in Hspec. rewrite Hrun in Hspec. cbn [fst snd] in Hspec.
    destruct Hspec as (Ht & Hc & Hb & Hres).
    split; [exact Ht|]. split; [exact Hc|]. split; [lia|].
    intros pos' Hpos' Hitems Hrej. injection Hpos' as <-.
    destruct res as [[d n]|].
    + destruct Hres as [Hin _].
      destruct (Hin ltac:(lia)) as (Hn & Hcur & Hd & Hcnt & Hacc).
      assert (Hfull : n = max_samples).
      { destruct (Z_lt_dec n max_samples) as [Hlt|Hge]; [|lia].
        specialize (Hacc Hlt). rewrite Hd, Hrej in Hacc. discriminate. }
      subst n. split; [rewrite Hd; reflexivity|lia].
    + destruct Hres as [[_ Hbad]|[Hbad _]]; lia.
  - injection Hrun as <- <-.
    split; [reflexivity|]. split; [lia|]. split; [lia|].
    intros pos' Hpos'. discriminate.
Qed.

(** C10: with [max_samples >= 1], a catalog of [n_items >= 1] items and a
    random source that keeps to its range, [sample_neg] returns a pair as
    soon as the user's row can be read, and every pair [(neg_item_ind,
    n_sampled)] it returns has [0 <= neg_item_ind < n_items] and
    [1 <= n_sampled <= max_samples]. *)
Theorem sample_neg_result_in_range (n_items user_ind : Z)
  (interactions : csr_matrix) (max_samples : Z) (violating_cond : Z -> bool)
  (g : Random.state) :
  1 <= max_samples ->
  1 <= n_items ->
  Random.draws_in 0 n_items g ->
  (forall pos : list Z,
      get_row_nz interactions user_ind = Some pos ->
      exists neg_item_ind n_sampled : Z,
        fst (sample_neg n_items user_ind interactions max_samples
               violating_cond g) = Some (neg_item_ind, n_sampled)) /\
  (forall neg_item_ind n_sampled : Z,
      fst (sample_neg n_items user_ind interactions max_samples
             violating_cond g) = Some (neg_item_ind, n_sampled) ->
      0 <= neg_item_ind < n_items /\ 1 <= n_sampled <= max_samples).
Proof.
  intros Hmax Hitems Hdraws.
  unfold sample_neg.
  destruct (get_row_nz interactions user_ind) as [pos|] eqn:Hrow.
  - pose proof (sample_loop_spec n_items pos violating_cond
                  max_samples None 0 g) as Hspec.
    cbn zeta in Hspec. destruct Hspec as (_ & _ & _ & Hres).
    destruct (fst (sample_loop n_items pos violating_cond max_samples
                     None 0 g)) as [[d n]|].
    + destruct Hres as [Hin _].
      destruct (Hin ltac:(lia)) as (Hn & _ & Hd & _ & _).
      split.
      * intros _ _. exists d, n. reflexivity.
      * intros d' n' E. injection E as <- <-.
        split; [|lia]. rewrite Hd. apply Hdraws.
    + destruct Hres as [[_ Hbad]|[Hbad _]]; lia.
  - cbn [fst]. split.
    + intros pos Hpos. discriminate.
    + intros d n E. discriminate.
Qed.

(** User 0 of the example likes items 0 and 2; the source hands out 0 (a
    positive, rejected) and then 1, which is returned after 2 attempts. *)
Lemma sample_neg_valid_before_cap_witness :
  (2 < 100 ->
     contains [0; 2] 1 = false /\ default_violating_cond 1 = true) /\
  (contains [0; 2] 1 = true \/ default_violating_cond 1 = false ->
   2 = 100).
Proof.
  apply (sample_neg_valid_before_cap 4 0 Examples.interactions 100
           default_violating_cond Examples.cycling
           (Random.mk (Random.tape Examples.cycling) 2) [0; 2] 1 2);
    reflexivity.
Defined.

(** With a predicate that rejects everything and a cap of 3, exactly three
    candidates are drawn and the last one, item 2, comes back. *)
Example sample_neg_exhausted :
  sample_neg 4 0 Examples.interactions 3 Examples.reject_all Examples.cycling
  = (Some (2, 3), Random.mk (Random.tape Examples.cycling) 3).
Proof. reflexivity. Qed.

(** A cap of 0 leaves [neg_item_ind] unbound at the [return]; a user id
    outside the matrix fails at the row lookup. *)
Example sample_neg_raises :
  fst (sample_neg 4 0 Examples.interactions 0 default_violating_cond
         Examples.cycling) = None /\
  fst (sample_neg 4 5 Examples.interactions 100 default_violating_cond
         Examples.cycling) = None.
Proof. split; reflexivity. Qed.

Lemma sample_neg_bounded_draws_witness :
  exists (res : option (Z * Z)) (g' : Random.state),
    sample_neg 4 0 Examples.interactions 3 Examples.reject_all
      Examples.cycling = (res, g') /\
    Random.tape g' = Random.tape Examples.cycling /\
    (Random.cursor Examples.cycling <= Random.cursor g')%nat /\
    Z.of_nat (Random.cursor g' - Random.cursor Examples.cycling) <= 3 /\
    (forall pos : list Z,
        get_row_nz Examples.interactions 0 = Some pos ->
        0 < 4 ->
        (forall k : nat,
            accepted pos Examples.reject_all
              (Random.tape Examples.cycling k) = false) ->
        res = Some (Random.tape Examples.cycling (Random.cursor g' - 1), 3) /\
        Z.of_nat (Random.cursor g' - Random.cursor Examples.cycling) = 3).
Proof.
  apply (sample_neg_bounded_draws 4 0 Examples.interactions 3
           Examples.reject_all Examples.cycling).
  lia.
Defined.

Lemma cycling_draws_in : Random.draws_in 0 4 Examples.cycling.
Proof. intros k. cbn. apply Z.mod_pos_bound. lia. Qed.

Lemma sample_neg_result_in_range_witness :
  (forall pos : list Z,
      get_row_nz Examples.interactions 0 = Some pos ->
      exists neg_item_ind n_sampled : Z,
        fst (sample_neg 4 0 Examples.interactions 100
               default_violating_cond Examples.cycling)
        = Some (neg_item_ind, n_sampled)) /\
  (forall neg_item_ind n_sampled : Z,
      fst (sample_neg 4 0 Examples.interactions 100
             default_violating_cond Examples.cycling)
      = Some (neg_item_ind, n_sampled) ->
      0 <= neg_item_ind < 4 /\ 1 <= n_sampled <= 100).
Proof.
  apply (sample_neg_result_in_range 4 0 Examples.interactions 100
           default_violating_cond Examples.cycling).
  - lia.
  - lia.
  - exact cycling_draws_in.
Defined.

End SamplerProps.

(** ** Evaluation *)

Module EvaluatorProps.

Import Py Sparse Float Evaluator.
Local Open Scope py_scope.

Lemma In_arange (n j : Z) : In j (arange n) <-> 0 <= j < n.
Proof.
  unfold arange. rewrite in_map_iff. split.
  - intros (k & <- & Hk). apply in_seq in Hk. lia.
  - intros H. exists (Z.to_nat j). split; [lia|]. apply in_seq. lia.
Qed.

(** The sum of zeros and ones is zero only when every one of them is. *)
Lemma sum_zero_one (entries : list (Z * Z)) :
  Forall (fun jv => snd jv = 0 \/ snd jv = 1) entries ->
  0 <= fold_right Z.add 0 (map snd entries) /\
  (fold_right Z.add 0 (map snd entries) = 0 <->
   Forall (fun jv => snd jv = 0) entries).
Proof.
  induction 1 as [|jv entries Hjv _ IH]; cbn [map fold_right].
  - split; [lia|]. split; [constructor|reflexivity].
  - destruct IH as [Hpos Hiff]. split; [lia|]. split.
    + intros Hsum. constructor; [lia|]. apply Hiff. lia.
    + intros Hall. inversion Hall as [|? ? H0 Hrest]; subst.
      apply Hiff in Hrest. lia.
Qed.

(** On a row of zeros and ones in columns of the catalog, the row has a
    stored 1 exactly when its ground-truth vector has a positive. *)
Lemma true_pids_dense (no_items : Z) (row : list Z * list Z) :
  binary_row no_items row = true ->
  negb (len (true_pids row) =? 0)
  = existsb (fun truth => truth) (dense_bool no_items row).
Proof.
  unfold binary_row, true_pids, dense_bool, len.
  set (entries := combine (fst row) (snd row)).
  rewrite forallb_forall. intros Hbin.
  assert (Hbin' : forall jv, In jv entries ->
            0 <= fst jv < no_items /\ (snd jv = 0 \/ snd jv = 1)).
  { intros jv Hin. specialize (Hbin jv Hin).
    apply andb_prop in Hbin. destruct Hbin as [Hcol Hval].
    apply andb_prop in Hcol. apply orb_prop in Hval. lia. }
  clear Hbin. rewrite length_map.
  destruct (existsb (fun truth => truth) _) eqn:Edense.
  - apply existsb_exists in Edense. destruct Edense as (b & Hb & ->).
    apply in_map_iff in Hb. destruct Hb as (j & Hj & _).
    apply negb_true_iff, Z.eqb_neq in Hj.
    assert (Hcol : Forall (fun jv => snd jv = 0 \/ snd jv = 1)
                     (filter (fun jv => fst jv =? j) entries)).
    { apply Forall_forall. intros jv Hjv. apply filter_In in Hjv.
      apply (Hbin' jv), Hjv. }
    destruct (sum_zero_one _ Hcol) as [_ Hiff].
    destruct (filter (fun jv => snd jv =? 1) entries) as [|e es] eqn:Eone;
      [|reflexivity].
    exfalso. apply Hj, Hiff. apply Forall_forall. intros jv Hjv.
    apply filter_In in Hjv. destruct Hjv as [Hin _].
    destruct (proj2 (Hbin' jv Hin)) as [H0|H1]; [exact H0|].
    assert (Hone : In jv (filter (fun jv => snd jv =? 1) entries)).
    { apply filter_In. split; [exact Hin|]. apply Z.eqb_eq. exact H1. }
    rewrite Eone in Hone. destruct Hone.
  - destruct (filter (fun jv => snd jv =? 1) entries) as [|e es] eqn:Eone;
      [reflexivity|].
    exfalso.
    assert (He : In e (filter (fun jv => snd jv =? 1) entries))
      by (rewrite Eone; left; reflexivity).
    apply filter_In in He. destruct He as [Hin H1]. apply Z.eqb_eq in H1.
    assert (Hex : existsb (fun truth => truth)
                    (map (fun j =>
                            negb (fold_right Z.add 0
                                    (map snd
                                       (filter (fun jv => fst jv =? j)
                                               entries)) =? 0))
                         (arange no_items)) = true).
    { apply existsb_exists. eexists. split.
      - apply in_map_iff. exists (fst e). split; [reflexivity|].
        apply In_arange. apply (Hbin' e Hin).
      - apply negb_true_iff, Z.eqb_neq.
        assert (Hcol : Forall (fun jv => snd jv = 0 \/ snd jv = 1)
                         (filter (fun jv => fst jv =? fst e) entries)).
        { apply Forall_forall. intros jv Hjv. apply filter_In in Hjv.
          apply (Hbin' jv), Hjv. }
        destruct (sum_zero_one _ Hcol) as [_ Hiff].
        intros Hsum. apply Hiff in Hsum.
        rewrite Forall_forall in Hsum.
        assert (Hzero : snd e = 0).
        { apply Hsum. apply filter_In. split; [exact Hin|].
          apply Z.eqb_refl. }
        lia. }
    rewrite Hex in Edense. discriminate.
Qed.

(** On a binary matrix the loop keeps exactly the users with a
    positive. *)
Lemma kept_users (ground_truth : csr_matrix) :
  binary ground_truth = true ->
  filter (row_kept ground_truth) (arange (fst (shape ground_truth)))
  = filter (has_positive ground_truth) (arange (fst (shape ground_truth))).
Proof.
  unfold binary. rewrite forallb_forall. intros Hbin.
  apply filter_ext_in. intros user_id Hin. specialize (Hbin user_id Hin).
  unfold row_kept, has_positive, truth_vector.
  destruct (getrow ground_truth user_id) as [row|]; [|reflexivity].
  apply true_pids_dense. exact Hbin.
Qed.

Lemma fold_left_Rplus (xs : list R) (a : R) :
  fold_left Rplus xs a = (a + fold_right Rplus 0 xs)%R.
Proof.
  revert a. induction xs as [|x xs IH]; intros a; cbn; [lra|].
  rewrite IH. lra.
Qed.

(** [np.mean] is the mean, NaN for no number at all. *)
Lemma np_mean_spec (scores : list R) : np_mean scores = mean_or_nan scores.
Proof.
  unfold np_mean, mean_or_nan, len.
  destruct scores as [|s scores]; [reflexivity|].
  cbn [length]. rewrite fold_left_Rplus, INR_IZR_INZ. cbn [length].
  f_equal. f_equal. lra.
Qed.

Section WithRoc.

Variable roc_auc_score : list bool -> list R -> option R.

(** The loop only ever appends: with every row included when it has a
    positive and skipped when it has none. *)
Lemma auc_rows_included (net : FactNet.t) (ground_truth : csr_matrix)
  (no_items : Z) (user_ids : list Z) :
  forall scores out : list R,
    auc_rows roc_auc_score net ground_truth no_items (arange no_items)
      user_ids scores = Some out ->
    exists added : list R,
      map_opt (user_auc roc_auc_score net ground_truth no_items)
        (filter (row_kept ground_truth) user_ids) = Some added /\
      out = scores ++ added.
Proof.
  induction user_ids as [|user_id rest IH]; intros scores out H.
  - cbn in H. injection H as <-. exists []. cbn.
    split; [reflexivity|]. rewrite app_nil_r. reflexivity.
  - cbn [auc_rows] in H. cbn [filter]. unfold row_kept at 1.
    destruct (getrow ground_truth user_id) as [row|] eqn:Hrow;
      [|discriminate].
    cbn [bind] in H.
    destruct (FactNet.predict_score net
                (replicate user_id (len (arange no_items)))
                (arange no_items)) as [preds|] eqn:Hp; [|discriminate].
    cbn [bind] in H.
    destruct (len (true_pids row) =? 0) eqn:Hz; cbn [negb].
    + apply IH. exact H.
    + destruct (roc_auc_score (dense_bool no_items row) preds) as [s|] eqn:Hs;
        [|discriminate].
      cbn [bind] in H. apply IH in H. destruct H as (added & Hadd & ->).
      exists (s :: added). split.
      * cbn [map_opt]. unfold user_auc at 1. rewrite Hrow. cbn [bind].
        rewrite Hp. cbn [bind]. rewrite Hs. cbn [bind].
        rewrite Hadd. reflexivity.
      * rewrite <- app_assoc. reflexivity.
Qed.

(** When every row can be read and scored, the loop computes exactly the
    scores of the users that have a positive. *)
Lemma auc_rows_scorable (net : FactNet.t) (ground_truth : csr_matrix)
  (no_items : Z) (user_ids : list Z) :
  (forall user_id : Z, In user_id user_ids ->
      getrow ground_truth user_id <> None /\
      FactNet.predict_score net
        (replicate user_id (len (arange no_items))) (arange no_items)
      <> None) ->
  forall scores : list R,
    auc_rows roc_auc_score net ground_truth no_items (arange no_items)
      user_ids scores =
    (added <- map_opt (user_auc roc_auc_score net ground_truth no_items)
                (filter (row_kept ground_truth) user_ids) ;;
     Some (scores ++ added)).
Proof.
  induction user_ids as [|user_id rest IH]; intros Hok scores.
  - cbn. rewrite app_nil_r. reflexivity.
  - destruct (Hok user_id (or_introl eq_refl)) as [Hrow Hp].
    assert (Hrest : forall u, In u rest ->
               getrow ground_truth u <> None /\
               FactNet.predict_score net
                 (replicate u (len (arange no_items))) (arange no_items)
               <> None).
    { intros u Hu. apply Hok. right. exact Hu. }
    specialize (IH Hrest).
    cbn [auc_rows filter]. unfold row_kept at 1.
    destruct (getrow ground_truth user_id) as [row|] eqn:Erow;
      [|congruence].
    destruct (FactNet.predict_score net
                (replicate user_id (len (arange no_items)))
                (arange no_items)) as [preds|] eqn:Ep; [|congruence].
    cbn [bind].
    destruct (len (true_pids row) =? 0) eqn:Hz; cbn [negb].
    + apply IH.
    + cbn [map_opt]. unfold user_auc at 1. rewrite Erow. cbn [bind].
      rewrite Ep. cbn [bind].
      destruct (roc_auc_score (dense_bool no_items row) preds) as [s|];
        cbn [bind]; [|reflexivity].
      rewrite IH.
      destruct (map_opt (user_auc roc_auc_score net ground_truth no_items)
                  (filter (row_kept ground_truth) rest)) as [added|];
        cbn [bind]; [|reflexivity].
      rewrite <- app_assoc. reflexivity.
Qed.

(** C4: on a binary interaction matrix [full_auc] is the mean of the
    per-user ROC-AUC over exactly the users whose ground-truth vector has
    a positive: whenever it returns, it returns what averaging over those
    users alone gives, and it agrees with that average whenever every row
    can be read and scored; rows without a positive add nothing.  When no
    user has a positive the result is NaN, which is neither 0 nor 1. *)
Theorem full_auc_averages_users_with_positives
  (net : FactNet.t) (ground_truth : csr_matrix) :
  binary ground_truth = true ->
  (forall r : tfloat,
      full_auc roc_auc_score net ground_truth = Some r ->
      full_auc_spec roc_auc_score net ground_truth = Some r) /\
  (scorable net ground_truth ->
      full_auc roc_auc_score net ground_truth
      = full_auc_spec roc_auc_score net ground_truth) /\
  (scorable net ground_truth ->
      (forall user_id : Z,
          In user_id (arange (fst (shape ground_truth))) ->
          has_positive ground_truth user_id = false) ->
      full_auc roc_auc_score net ground_truth = Some NaN /\
      NaN <> Finite 0 /\ NaN <> Finite 1).
Proof.
  intros Hbin. pose proof (kept_users ground_truth Hbin) as Hkept.
  unfold full_auc, full_auc_spec, scorable in *.
  destruct (shape ground_truth) as [no_users no_items]. cbn [fst snd] in *.
  rewrite <- Hkept.
  split; [|split].
  - intros r H.
    destruct (auc_rows roc_auc_score net ground_truth no_items
                (arange no_items) (arange no_users) []) as [out|] eqn:E;
      [|discriminate].
    cbn [bind] in H. injection H as <-.
    apply auc_rows_included in E. destruct E as (added & Hadd & ->).
    rewrite Hadd. cbn [bind app]. rewrite np_mean_spec. reflexivity.
  - intros Hok. rewrite (auc_rows_scorable _ _ _ _ Hok).
    destruct (map_opt (user_auc roc_auc_score net ground_truth no_items)
                (filter (row_kept ground_truth) (arange no_users)));
      cbn [bind app]; [rewrite np_mean_spec|]; reflexivity.
  - intros Hok Hnone. rewrite (auc_rows_scorable _ _ _ _ Hok).
    rewrite Hkept.
    assert (Hempty : filter (has_positive ground_truth) (arange no_users)
                     = []).
    { clear Hkept Hok. induction (arange no_users) as [|u us IHu];
        [reflexivity|].
      cbn [filter]. rewrite (Hnone u (or_introl eq_refl)).
      apply IHu. intros v Hv. apply Hnone. right. exact Hv. }
    rewrite Hempty. cbn.
    repeat split; discriminate.
Qed.

End WithRoc.

(** On the matrix without interactions every row is skipped and the mean
    of nothing is NaN, whatever the AUC routine. *)
Example full_auc_no_positives (roc : list bool -> list R -> option R) :
  scorable Examples.net Examples.no_interactions /\
  full_auc roc Examples.net Examples.no_interactions = Some NaN.
Proof.
  split; [|reflexivity].
  intros user_id Hin. cbn in Hin.
  destruct Hin as [<-|[<-|[]]]; split; discriminate.
Qed.

(** On the example matrix both users have a positive and both count. *)
Example full_auc_two_users :
  full_auc (fun _ _ => Some (1 / 2)%R) Examples.net Examples.interactions
  = Some (Finite ((1 / 2 + (1 / 2 + 0)) / IZR 2)).
Proof. reflexivity. Qed.

(** Where user 0 liked one item and user 1 none, with an AUC routine that
    tells the users apart (it returns the sum of the scores, 6 for user 0
    and 12 for user 1): only user 0 counts, and the mean is 6. *)
Lemma full_auc_averages_users_with_positives_witness :
  binary MoreExamples.one_liker = true /\
  has_positive MoreExamples.one_liker 0 = true /\
  has_positive MoreExamples.one_liker 1 = false /\
  exists m : R,
    full_auc (fun _ predictions => Some (fold_right Rplus 0%R predictions))
      Examples.net MoreExamples.one_liker = Some (Finite m) /\
    m = 6%R.
Proof.
  split; [reflexivity|]. split; [reflexivity|]. split; [reflexivity|].
  destruct (full_auc_averages_users_with_positives
              (fun _ predictions => Some (fold_right Rplus 0%R predictions))
              Examples.net MoreExamples.one_liker eq_refl)
    as (_ & Heq & _).
  rewrite Heq.
  - eexists. split; [reflexivity|]. cbn. lra.
  - intros user_id Hin. cbn in Hin.
    destruct Hin as [<-|[<-|[]]]; split; discriminate.
Defined.

End EvaluatorProps.

(** ** Arrays *)

Module PyProps.

Import Py.

Lemma np_index_nonneg {A : Type} (a : list A) (i : Z) :
  0 <= i < len a -> np_index a i = nth_error a (Z.to_nat i).
Proof.
  intros H. unfold np_index.
  destruct ((0 <=? i) && (i <? len a)) eqn:E; [reflexivity|].
  apply andb_false_iff in E. destruct E as [E|E]; lia.
Qed.

Lemma np_index_In {A : Type} (a : list A) (i : Z) (v : A) :
  np_index a i = Some v -> In v a.
Proof.
  unfold np_index.
  destruct ((0 <=? i) && (i <? len a)).
  - apply nth_error_In.
  - destruct ((- len a <=? i) && (i <? 0)); [apply nth_error_In|discriminate].
Qed.

Lemma slice_length {A : Type} (a : list A) (start stop : Z) :
  0 <= start <= stop -> stop <= len a ->
  len (slice a start stop) = stop - start.
Proof.
  intros H1 H2. unfold slice, slice_bound, len in *.
  destruct (start <? 0) eqn:E1; [lia|].
  destruct (stop <? 0) eqn:E2; [lia|].
  rewrite length_firstn, length_skipn. lia.
Qed.

Lemma contains_In (a : list Z) (x : Z) : contains a x = true <-> In x a.
Proof.
  unfold contains. rewrite existsb_exists. split.
  - intros (y & Hy & E). apply Z.eqb_eq in E. subst y. exact Hy.
  - intros H. exists x. split; [exact H|apply Z.eqb_refl].
Qed.

End PyProps.

(** ** Membership by binary search *)

Module BisectProps.

Import Py Sparse Bisect PyProps.
Local Open Scope py_scope.

(** One turn of the loop. *)
Lemma bisect_loop_unfold (a : list Z) (x : Z) (lo hi : nat) :
  bisect_loop a x lo hi =
  if lt_dec lo hi then
    match nth_error a (midpoint lo hi) with
    | None => None
    | Some v =>
        if Z_lt_dec v x then bisect_loop a x (S (midpoint lo hi)) hi
        else bisect_loop a x lo (midpoint lo hi)
    end
  else Some lo.
Proof.
  funelim (bisect_loop a x lo hi);
    repeat match goal with
           | H : lt_dec _ _ = _ |- _ => rewrite H
           | H : nth_error _ _ = _ |- _ => rewrite H
           | H : Z_lt_dec _ _ = _ |- _ => rewrite H
           end; reflexivity.
Qed.

(** Entries in ascending order, by position. *)
Lemma ascending_nth (a : list Z) :
  ascending a = true ->
  forall (i j : nat) (vi vj : Z),
    (i <= j)%nat -> nth_error a i = Some vi -> nth_error a j = Some vj ->
    vi <= vj.
Proof.
  induction a as [|x rest IH]; intros Hasc i j vi vj Hij Hi Hj.
  - destruct i; discriminate.
  - assert (Hrest : ascending rest = true).
    { cbn in Hasc. destruct rest as [|y r]; [reflexivity|].
      apply andb_true_iff in Hasc. tauto. }
    assert (Hhead : forall k v, nth_error rest k = Some v -> x <= v).
    { intros k v Hk. destruct rest as [|y r]; [destruct k; discriminate|].
      cbn in Hasc. apply andb_true_iff in Hasc. destruct Hasc as [Hxy _].
      assert (y <= v); [|lia].
      apply (IH Hrest 0%nat k y v); [lia|reflexivity|exact Hk]. }
    destruct i as [|i], j as [|j]; cbn in Hi, Hj.
    + injection Hi as <-. injection Hj as <-. lia.
    + injection Hi as <-. eapply Hhead. exact Hj.
    + lia.
    + apply (IH Hrest i j); [lia|assumption|assumption].
Qed.

(** The search returns, and its answer lies in the range searched. *)
Lemma bisect_loop_range (a : list Z) (x : Z) (lo hi : nat) :
  (lo <= hi)%nat -> (hi <= length a)%nat ->
  exists r : nat, bisect_loop a x lo hi = Some r /\ (lo <= r <= hi)%nat.
Proof.
  funelim (bisect_loop a x lo hi); intros Hle Hlen.
  - exists lo. split; [reflexivity|lia].
  - exfalso.
    match goal with H : nth_error _ _ = None |- _ =>
      apply nth_error_None in H end.
    pose proof (midpoint_between lo hi ltac:(assumption)). lia.
  - pose proof (midpoint_between lo hi ltac:(assumption)) as Hm.
    match goal with IH : (_ <= _)%nat -> _ |- _ =>
      destruct IH as (r & Hr & Hb); [lia|lia|] end.
    exists r. split; [exact Hr|lia].
  - pose proof (midpoint_between lo hi ltac:(assumption)) as Hm.
    match goal with IH : (_ <= _)%nat -> _ |- _ =>
      destruct IH as (r & Hr & Hb); [lia|lia|] end.
    exists r. split; [exact Hr|lia].
Qed.

(** On an ascending array the answer splits it: entries below [x] before
    it, entries not below [x] from it on. *)
Lemma bisect_loop_split (a : list Z) (x : Z) (lo hi : nat) :
  ascending a = true ->
  (forall i v, (i < lo)%nat -> nth_error a i = Some v -> v < x) ->
  (forall i v, (hi <= i)%nat -> nth_error a i = Some v -> x <= v) ->
  forall r : nat,
    bisect_loop a x lo hi = Some r ->
    (forall i v, (i < r)%nat -> nth_error a i = Some v -> v < x) /\
    (forall i v, (r <= i)%nat -> nth_error a i = Some v -> x <= v).
Proof.
  funelim (bisect_loop a x lo hi); intros Hasc Hlow Hhigh r Hr.
  - injection Hr as <-. split.
    + exact Hlow.
    + intros i v Hi Hv. apply (Hhigh i v); [lia|exact Hv].
  - discriminate.
  - match goal with IH : ascending _ = true -> _ |- _ =>
      apply (IH Hasc); [|exact Hhigh|exact Hr] end.
    intros i w Hi Hw.
    assert (w <= v); [|lia].
    apply (ascending_nth a Hasc i (midpoint lo hi)); [lia|exact Hw|].
    assumption.
  - match goal with IH : ascending _ = true -> _ |- _ =>
      apply (IH Hasc); [exact Hlow| |exact Hr] end.
    intros i w Hi Hw.
    assert (v <= w); [|lia].
    apply (ascending_nth a Hasc (midpoint lo hi) i); [lia| |exact Hw].
    assumption.
Qed.

(** On a row within bounds the search neither runs off the row nor
    raises. *)
Lemma bsearch_membership_run (csr_mat : csr_matrix) (row_ind col_ind : Z) :
  row_in_bounds csr_mat row_ind = true ->
  exists (pos_vals : list Z) (r : nat),
    Sampler.get_row_nz csr_mat row_ind = Some pos_vals /\
    bisect_left pos_vals col_ind = Some r /\
    (r <= length pos_vals)%nat /\
    bsearch_membership csr_mat row_ind col_ind =
    Some (match nth_error pos_vals r with
          | Some v => col_ind =? v
          | None => false
          end).
Proof.
  unfold row_in_bounds, bsearch_membership, Sampler.get_row_nz.
  destruct (np_index (indptr csr_mat) row_ind) as [start_idx|];
    [|discriminate].
  destruct (np_index (indptr csr_mat) (row_ind + 1)) as [stop_idx|];
    [|discriminate].
  intros Hb. apply andb_true_iff in Hb. destruct Hb as [Hb H3].
  apply andb_true_iff in Hb. destruct Hb as [H1 H2].
  cbn [bind].
  set (pos_vals := slice (indices csr_mat) start_idx stop_idx).
  assert (Hlen : len pos_vals = stop_idx - start_idx)
    by (apply slice_length; lia).
  destruct (bisect_loop_range pos_vals col_ind 0 (length pos_vals))
    as (r & Hr & Hrange); [lia|lia|].
  exists pos_vals, r. split; [reflexivity|].
  split; [exact Hr|]. split; [lia|].
  unfold bisect_left. rewrite Hr. cbn [bind].
  unfold len in Hlen.
  destruct (Z.of_nat r <? stop_idx - start_idx) eqn:Hin.
  - rewrite np_index_nonneg by (unfold len; lia).
    rewrite Nat2Z.id.
    destruct (nth_error pos_vals r) as [v|] eqn:Hv; [reflexivity|].
    apply nth_error_None in Hv. lia.
  - assert (Hout : nth_error pos_vals r = None)
      by (apply nth_error_None; lia).
    rewrite Hout. reflexivity.
Qed.

(** X1: on a row whose column ids are in ascending order,
    [bsearch_membership] answers exactly as [col_ind in get_row_nz(...)]
    does. *)
Theorem bsearch_membership_sorted (csr_mat : csr_matrix)
  (row_ind col_ind : Z) (pos_vals : list Z) :
  row_in_bounds csr_mat row_ind = true ->
  Sampler.get_row_nz csr_mat row_ind = Some pos_vals ->
  ascending pos_vals = true ->
  bsearch_membership csr_mat row_ind col_ind
  = Some (contains pos_vals col_ind).
Proof.
  intros Hb Hrow Hasc.
  destruct (bsearch_membership_run csr_mat row_ind col_ind Hb)
    as (pos' & r & Hrow' & Hr & Hlen & Hres).
  rewrite Hrow in Hrow'. injection Hrow' as <-.
  rewrite Hres. f_equal.
  destruct (bisect_loop_split pos_vals col_ind 0 (length pos_vals) Hasc)
    with (r := r) as [Hbelow Habove].
  - intros i v Hi. lia.
  - intros i v Hi Hv.
    assert (nth_error pos_vals i = None) by (apply nth_error_None; lia).
    congruence.
  - exact Hr.
  - destruct (contains pos_vals col_ind) eqn:Hc.
    + apply contains_In in Hc. apply In_nth_error in Hc.
      destruct Hc as [i Hi].
      destruct (lt_dec i r) as [Hlt|Hge].
      * specialize (Hbelow i col_ind Hlt Hi). lia.
      * destruct (nth_error pos_vals r) as [v|] eqn:Hv.
        -- apply Z.eqb_eq.
           pose proof (Habove r v (Nat.le_refl r) Hv).
           pose proof (ascending_nth pos_vals Hasc r i v col_ind
                         ltac:(lia) Hv Hi).
           lia.
        -- apply nth_error_None in Hv.
           assert (nth_error pos_vals i = None)
             by (apply nth_error_None; lia).
           congruence.
    + destruct (nth_error pos_vals r) as [v|] eqn:Hv; [|reflexivity].
      destruct (col_ind =? v) eqn:E; [|reflexivity].
      apply Z.eqb_eq in E. subst v.
      apply nth_error_In in Hv. apply contains_In in Hv. congruence.
Qed.

(** X2: on any row within bounds, sorted or not, [bsearch_membership]
    returns without raising, and it never reports an id that is not in the
    row. *)
Theorem bsearch_membership_sound (csr_mat : csr_matrix)
  (row_ind col_ind : Z) :
  row_in_bounds csr_mat row_ind = true ->
  exists (b : bool) (pos_vals : list Z),
    bsearch_membership csr_mat row_ind col_ind = Some b /\
    Sampler.get_row_nz csr_mat row_ind = Some pos_vals /\
    (b = true -> contains pos_vals col_ind = true).
Proof.
  intros Hb.
  destruct (bsearch_membership_run csr_mat row_ind col_ind Hb)
    as (pos_vals & r & Hrow & _ & _ & Hres).
  eexists. exists pos_vals. split; [exact Hres|]. split; [exact Hrow|].
  destruct (nth_error pos_vals r) as [v|] eqn:Hv; [|discriminate].
  intros E. apply Z.eqb_eq in E. subst v.
  apply contains_In. eapply nth_error_In. exact Hv.
Qed.

Lemma bsearch_membership_sorted_witness :
  bsearch_membership Examples.interactions 0 2 = Some (contains [0; 2] 2).
Proof.
  apply (bsearch_membership_sorted Examples.interactions 0 2 [0; 2]);
    reflexivity.
Defined.

Lemma bsearch_membership_sound_witness :
  exists (b : bool) (pos_vals : list Z),
    bsearch_membership MoreExamples.unsorted 0 0 = Some b /\
    Sampler.get_row_nz MoreExamples.unsorted 0 = Some pos_vals /\
    (b = true -> contains pos_vals 0 = true).
Proof.
  apply (bsearch_membership_sound MoreExamples.unsorted 0 0). reflexivity.
Defined.

(** On a row that is not in ascending order the search can miss an id
    that is there. *)
Example bsearch_membership_unsorted_miss :
  bsearch_membership MoreExamples.unsorted 0 0 = Some false /\
  option_map (fun pos => contains pos 0)
    (Sampler.get_row_nz MoreExamples.unsorted 0) = Some true.
Proof. split; reflexivity. Qed.

End BisectProps.

(** ** Scoring with the model *)

Module ScoreProps.

Import Py FactNet Shape.
Local Open Scope py_scope.

Lemma embedding_some (table : tensor2) (ids : list Z) :
  ids_within table ids = true ->
  exists rows : tensor2,
    embedding table ids = Some rows /\
    length rows = length ids /\
    Forall (fun row => In row table) rows.
Proof.
  induction ids as [|i rest IH]; intros H.
  - exists []. repeat split. constructor.
  - cbn in H. apply andb_true_iff in H. destruct H as [Hi Hrest].
    apply andb_true_iff in Hi. destruct Hi as [H0 H1].
    destruct (IH Hrest) as (rows & E & Hlen & Hin).
    cbn [embedding].
    destruct (i <? 0) eqn:Eneg; [lia|].
    destruct (nth_error table (Z.to_nat i)) as [row|] eqn:Erow.
    + exists (row :: rows). cbn [bind]. rewrite E. cbn [bind].
      split; [reflexivity|]. split; [cbn; lia|].
      constructor; [eapply nth_error_In; exact Erow|exact Hin].
    + apply nth_error_None in Erow. unfold len in H1. lia.
Qed.

Lemma embedding_none (table : tensor2) (ids : list Z) :
  ids_within table ids = false -> embedding table ids = None.
Proof.
  induction ids as [|i rest IH]; intros H.
  - discriminate.
  - cbn in H. cbn [embedding].
    destruct (i <? 0) eqn:Eneg; [reflexivity|].
    destruct (nth_error table (Z.to_nat i)) as [row|] eqn:Erow;
      [|reflexivity].
    cbn [bind].
    assert (Hi : (0 <=? i) && (i <? len table) = true).
    { apply andb_true_iff. split; [lia|].
      assert (Z.to_nat i < length table)%nat
        by (apply nth_error_Some; congruence).
      unfold len. lia. }
    rewrite Hi in H. cbn in H. rewrite (IH H). reflexivity.
Qed.

Lemma row_dot_some (u v : list R) :
  length u = length v -> exists s : R, row_dot u v = Some s.
Proof.
  revert v. induction u as [|x u IH]; intros [|y v] H; try discriminate.
  - exists 0%R. reflexivity.
  - injection H as H. destruct (IH v H) as [s E].
    exists (x * y + s)%R. cbn. rewrite E. reflexivity.
Qed.

Lemma mul_sum_some (width : nat) (a b : tensor2) :
  Forall (fun row => length row = width) a ->
  Forall (fun row => length row = width) b ->
  length a = length b ->
  exists scores : list R,
    mul_sum a b = Some scores /\ length scores = length a.
Proof.
  intros Ha. revert b.
  induction Ha as [|u a Hu Ha IH]; intros [|v b] Hb Hlen; try discriminate.
  - exists []. split; reflexivity.
  - inversion Hb as [|? ? Hv Hb']; subst.
    injection Hlen as Hlen.
    destruct (row_dot_some u v ltac:(congruence)) as [s Es].
    destruct (IH b Hb' Hlen) as (rest & Er & Hl).
    exists (s :: rest). cbn. rewrite Es. cbn. rewrite Er. cbn.
    split; [reflexivity|lia].
Qed.

Lemma mul_sum_length (a b : tensor2) (scores : list R) :
  mul_sum a b = Some scores ->
  length a = length b /\ length scores = length a.
Proof.
  revert b scores.
  induction a as [|u a IH]; intros [|v b] scores H; try discriminate.
  - injection H as <-. split; reflexivity.
  - cbn in H. destruct (row_dot u v); [|discriminate]. cbn in H.
    destruct (mul_sum a b) as [rest|] eqn:E; [|discriminate].
    cbn in H. injection H as <-.
    destruct (IH b rest E) as [H1 H2]. cbn. split; lia.
Qed.

Lemma embedding_length (table : tensor2) (ids : list Z) (rows : tensor2) :
  embedding table ids = Some rows -> length rows = length ids.
Proof.
  revert rows. induction ids as [|i rest IH]; intros rows H.
  - injection H as <-. reflexivity.
  - cbn in H.
    destruct (if i <? 0 then None else nth_error table (Z.to_nat i));
      [|discriminate].
    cbn in H. destruct (embedding table rest) as [rs|]; [|discriminate].
    cbn in H. injection H as <-. cbn. rewrite (IH rs eq_refl). reflexivity.
Qed.

Lemma rectangular_rows (width : nat) (table rows : tensor2) :
  rectangular width table = true ->
  Forall (fun row => In row table) rows ->
  Forall (fun row => length row = width) rows.
Proof.
  intros Hrect Hin. unfold rectangular in Hrect.
  rewrite forallb_forall in Hrect.
  eapply Forall_impl; [|exact Hin].
  intros row Hrow. apply Nat.eqb_eq. apply Hrect. exact Hrow.
Qed.

(** A pair of ids within the tables of a rectangular model has a score. *)
Lemma predict_score_pair_some (self : FactNet.t) (width : nat) (u i : Z) :
  rectangular width (user_embedding_layer self) = true ->
  rectangular width (item_embedding_layer self) = true ->
  ids_within (user_embedding_layer self) [u] = true ->
  ids_within (item_embedding_layer self) [i] = true ->
  exists s : R, predict_score self [u] [i] = Some [s].
Proof.
  intros Hu Hi Eu Ei. unfold predict_score.
  destruct (embedding_some _ _ Eu) as (ue & Eue & Hlu & Hinu).
  destruct (embedding_some _ _ Ei) as (ie & Eie & Hli & Hini).
  rewrite Eue, Eie. cbn [bind].
  destruct (mul_sum_some width ue ie) as (scores & Es & Hl).
  - exact (rectangular_rows width _ ue Hu Hinu).
  - exact (rectangular_rows width _ ie Hi Hini).
  - cbn in *. lia.
  - rewrite Es. destruct scores as [|s [|s' rest]]; cbn in *; try lia.
    exists s. reflexivity.
Qed.

(** Scoring a batch succeeds only on user ids within the user table. *)
Lemma predict_score_users_within (self : FactNet.t) (uid iid : list Z)
  (scores : list R) :
  predict_score self uid iid = Some scores ->
  ids_within (user_embedding_layer self) uid = true.
Proof.
  unfold predict_score. intros H.
  destruct (ids_within (user_embedding_layer self) uid) eqn:E;
    [reflexivity|].
  rewrite (embedding_none _ _ E) in H. discriminate.
Qed.

(** X3: when both embedding tables are rectangular of one width,
    [predict_score] returns one score per pair for two batches of one
    length whose ids all name a row of their table; and it raises as soon
    as one id, of a user or of an item, is outside its table (ids are not
    wrapped: a negative id raises). *)
Theorem predict_score_defined (self : FactNet.t) (width : nat)
  (uid iid : list Z) :
  rectangular width (user_embedding_layer self) = true ->
  rectangular width (item_embedding_layer self) = true ->
  (ids_within (user_embedding_layer self) uid = true ->
   ids_within (item_embedding_layer self) iid = true ->
   length uid = length iid ->
   exists scores : list R,
     predict_score self uid iid = Some scores /\
     length scores = length uid) /\
  (ids_within (user_embedding_layer self) uid = false \/
   ids_within (item_embedding_layer self) iid = false ->
   predict_score self uid iid = None).
Proof.
  intros Hu Hi. unfold predict_score. split.
  - intros Eu Ei Hlen.
    destruct (embedding_some _ _ Eu) as (ue & Eue & Hlu & Hinu).
    destruct (embedding_some _ _ Ei) as (ie & Eie & Hli & Hini).
    rewrite Eue, Eie. cbn [bind].
    destruct (mul_sum_some width ue ie) as (scores & Es & Hl).
    + exact (rectangular_rows width _ ue Hu Hinu).
    + exact (rectangular_rows width _ ie Hi Hini).
    + lia.
    + exists scores. split; [exact Es|lia].
  - intros [E|E].
    + rewrite (embedding_none _ _ E). reflexivity.
    + rewrite (embedding_none _ _ E).
      destruct (embedding (user_embedding_layer self) uid); reflexivity.
Qed.

(** Scoring a batch of pairs is scoring its first pair and then the
    others. *)
Lemma predict_score_cons (self : FactNet.t) (u i : Z) (us is_ : list Z) :
  predict_score self (u :: us) (i :: is_) =
  (s <- predict_score self [u] [i] ;;
   rest <- predict_score self us is_ ;;
   Some (s ++ rest)).
Proof.
  unfold predict_score. cbn [embedding].
  destruct (if u <? 0 then None
            else nth_error (user_embedding_layer self) (Z.to_nat u))
    as [ru|]; [|reflexivity].
  destruct (if i <? 0 then None
            else nth_error (item_embedding_layer self) (Z.to_nat i))
    as [ri|];
    destruct (embedding (user_embedding_layer self) us) as [rus|];
    destruct (embedding (item_embedding_layer self) is_) as [ris|];
    cbn; try reflexivity;
    destruct (row_dot ru ri) as [s|]; cbn; try reflexivity;
    destruct (mul_sum rus ris); reflexivity.
Qed.

Lemma predict_score_single (self : FactNet.t) (u i : Z) (s : list R) :
  predict_score self [u] [i] = Some s -> exists x : R, s = [x].
Proof.
  unfold predict_score. cbn [embedding].
  destruct (if u <? 0 then None
            else nth_error (user_embedding_layer self) (Z.to_nat u))
    as [ru|]; cbn [bind]; [|discriminate].
  destruct (if i <? 0 then None
            else nth_error (item_embedding_layer self) (Z.to_nat i))
    as [ri|]; cbn [bind mul_sum]; [|discriminate].
  destruct (row_dot ru ri) as [x|]; cbn [bind]; [|discriminate].
  intros H. injection H as <-. exists x. reflexivity.
Qed.

(** X4: the score at position [k] of a batch is the score of the [k]-th
    (user, item) pair scored on its own: no entry of the result depends on
    the other pairs of the batch. *)
Theorem predict_score_entrywise (self : FactNet.t) :
  forall (uid iid : list Z) (scores : list R),
    predict_score self uid iid = Some scores ->
    forall (k : nat) (u i : Z),
      nth_error uid k = Some u -> nth_error iid k = Some i ->
      exists s : R,
        nth_error scores k = Some s /\
        predict_score self [u] [i] = Some [s].
Proof.
  induction uid as [|u0 us IH]; intros iid scores H k u i Hu Hi.
  - destruct k; discriminate.
  - destruct iid as [|i0 is_]; [destruct k; discriminate|].
    rewrite predict_score_cons in H.
    destruct (predict_score self [u0] [i0]) as [s0|] eqn:E0;
      [|discriminate].
    destruct (predict_score_single self u0 i0 s0 E0) as [x ->].
    cbn [bind] in H.
    destruct (predict_score self us is_) as [rest|] eqn:Er;
      [|discriminate].
    cbn [bind] in H. injection H as <-.
    destruct k as [|k]; cbn in Hu, Hi.
    + injection Hu as <-. injection Hi as <-.
      exists x. split; [reflexivity|exact E0].
    + destruct (IH is_ rest Er k u i Hu Hi) as (s & Hs & Es).
      exists s. split; [exact Hs|exact Es].
Qed.

Lemma embedding_scaled (c : R) (table : tensor2) (ids : list Z) :
  embedding (map (map (Rmult c)) table) ids =
  option_map (map (map (Rmult c))) (embedding table ids).
Proof.
  induction ids as [|i rest IH]; [reflexivity|].
  cbn [embedding]. rewrite IH.
  destruct (i <? 0); [reflexivity|].
  rewrite nth_error_map.
  destruct (nth_error table (Z.to_nat i)); cbn; [|reflexivity].
  destruct (embedding table rest); reflexivity.
Qed.

Lemma row_dot_scaled (c : R) (u v : list R) :
  row_dot (map (Rmult c) u) v = option_map (Rmult c) (row_dot u v).
Proof.
  revert v. induction u as [|x u IH]; intros [|y v]; cbn; try reflexivity.
  - f_equal. lra.
  - rewrite IH. destruct (row_dot u v); cbn; [|reflexivity].
    f_equal. lra.
Qed.

Lemma mul_sum_scaled (c : R) (a b : tensor2) :
  mul_sum (map (map (Rmult c)) a) b =
  option_map (map (Rmult c)) (mul_sum a b).
Proof.
  revert b. induction a as [|u a IH]; intros [|v b]; cbn; try reflexivity.
  rewrite row_dot_scaled, IH.
  destruct (row_dot u v); cbn; [|reflexivity].
  destruct (mul_sum a b); reflexivity.
Qed.

(** X5: the score is odd in the user vector: with every entry of the
    user table negated, every score is negated (and nothing changes about
    when scoring raises). *)
Theorem predict_score_negated (self : FactNet.t) (uid iid : list Z) :
  predict_score (negate_users self) uid iid =
  option_map (map Ropp) (predict_score self uid iid).
Proof.
  unfold predict_score, negate_users, scale_users.
  cbn [user_embedding_layer item_embedding_layer].
  rewrite embedding_scaled.
  destruct (embedding (user_embedding_layer self) uid) as [ue|];
    cbn; [|reflexivity].
  destruct (embedding (item_embedding_layer self) iid) as [ie|];
    cbn; [|reflexivity].
  rewrite mul_sum_scaled.
  destruct (mul_sum ue ie) as [scores|]; cbn; [|reflexivity].
  f_equal. apply map_ext. intros x. lra.
Qed.

Lemma predict_score_defined_witness :
  (ids_within (user_embedding_layer Examples.net) [0; 1] = true ->
   ids_within (item_embedding_layer Examples.net) [3; 2] = true ->
   length [0; 1] = length [3; 2] ->
   exists scores : list R,
     predict_score Examples.net [0; 1] [3; 2] = Some scores /\
     length scores = length [0; 1]) /\
  (ids_within (user_embedding_layer Examples.net) [0; 1] = false \/
   ids_within (item_embedding_layer Examples.net) [3; 2] = false ->
   predict_score Examples.net [0; 1] [3; 2] = None).
Proof.
  apply (predict_score_defined Examples.net 1 [0; 1] [3; 2]); reflexivity.
Defined.

(** A negative id and an id past the table both raise. *)
Example predict_score_out_of_range :
  predict_score Examples.net [-1] [0] = None /\
  predict_score Examples.net [0] [4] = None.
Proof. split; reflexivity. Qed.

Lemma predict_score_entrywise_witness :
  exists s : R,
    nth_error [(1 * 3 + 0)%R; (2 * 2 + 0)%R] 1 = Some s /\
    predict_score Examples.net [1] [2] = Some [s].
Proof.
  apply (predict_score_entrywise Examples.net [0; 1] [3; 2]
           [(1 * 3 + 0)%R; (2 * 2 + 0)%R] eq_refl 1%nat 1 2);
    reflexivity.
Defined.

End ScoreProps.

(** ** Batches of an epoch *)

Module TrainingProps.

Import Py Batcher Training BatcherProps PyProps.
Local Open Scope py_scope.

Lemma batcher_loop_zero {A : Type} (it : list A) : batcher_loop it 0 = [].
Proof. rewrite batcher_loop_unfold. reflexivity. Qed.

(** X6: [batcher] never yields an empty chunk nor one larger than
    [batch_size]; with [batch_size = 0] it yields nothing at all, whatever
    the input. *)
Theorem batcher_chunks_nonempty {A : Type} (iterable : list A)
  (batch_size : Z) (chunks : list (list A)) :
  batcher iterable batch_size = Some chunks ->
  (forall c : list A, In c chunks -> 1 <= len c <= batch_size) /\
  (batch_size = 0 -> chunks = []).
Proof.
  unfold batcher. destruct (batch_size <? 0) eqn:Hneg; [discriminate|].
  intros H. injection H as <-.
  destruct (Z.to_nat batch_size) as [|n] eqn:Hn.
  - rewrite batcher_loop_zero. split; [intros c []|reflexivity].
  - split; [|lia].
    intros c Hc. apply In_nth_error in Hc. destruct Hc as [i Hi].
    pose proof (batcher_loop_chunk_length n i iterable c Hi) as Hlen.
    pose proof (batcher_loop_count n iterable) as Hcount.
    assert (Hi' : (i < length (batcher_loop iterable (S n)))%nat)
      by (apply nth_error_Some; congruence).
    assert (Hleft : (i * S n < length iterable)%nat) by nia.
    unfold len. lia.
Qed.

Lemma batcher_chunks_nonempty_witness :
  (forall c : list Z,
      In c [[0; 1; 2; 3]; [4; 5; 6; 7]; [8; 9]] -> 1 <= len c <= 4) /\
  (4 = 0 -> [[0; 1; 2; 3]; [4; 5; 6; 7]; [8; 9]] = []).
Proof.
  apply (batcher_chunks_nonempty [0; 1; 2; 3; 4; 5; 6; 7; 8; 9] 4).
  reflexivity.
Defined.

Lemma skipn_combine {A B : Type} (n : nat) :
  forall (l : list A) (l' : list B),
    skipn n (combine l l') = combine (skipn n l) (skipn n l').
Proof.
  induction n as [|n IH]; intros l l'; [reflexivity|].
  destruct l as [|x l]; [reflexivity|].
  destruct l' as [|y l'].
  - cbn. destruct (skipn n l); reflexivity.
  - cbn. apply IH.
Qed.

Lemma batcher_loop_combine {A B : Type} (n : nat) :
  forall (xs : list A) (ys : list B),
    length xs = length ys ->
    batcher_loop (combine xs ys) n =
    zip_batches (batcher_loop xs n) (batcher_loop ys n).
Proof.
  destruct n as [|n].
  - intros xs ys _. rewrite !batcher_loop_zero. reflexivity.
  - intros xs. remember (length xs) as k eqn:Hk. revert xs Hk.
    induction k as [k IH] using lt_wf_ind. intros xs Hk ys Hlen.
    destruct xs as [|x xs], ys as [|y ys];
      try (cbn [length] in *; congruence).
    + cbn [combine]. rewrite !batcher_loop_nil. reflexivity.
    + change (combine (x :: xs) (y :: ys))
        with ((x, y) :: combine xs ys) at 1.
      rewrite !batcher_loop_cons.
      change ((x, y) :: combine xs ys) with (combine (x :: xs) (y :: ys)).
      rewrite combine_firstn, skipn_combine.
      unfold zip_batches. cbn [combine map fst snd]. f_equal.
      apply (IH (length (skipn (S n) (x :: xs)))).
      * subst k. rewrite length_skipn. cbn [length]. lia.
      * reflexivity.
      * rewrite !length_skipn. congruence.

Qed.

(** X7: two arrays of one length, cut by [batcher] with the same batch
    size and read side by side with [zip], give batch by batch the chunks
    of the array of pairs: position [k] of the [i]-th user batch and
    position [k] of the [i]-th item batch belong to the same triplet. *)
Theorem batcher_zip_aligned {A B : Type} (xs : list A) (ys : list B)
  (batch_size : Z) :
  length xs = length ys ->
  batcher (combine xs ys) batch_size =
  (gen_a <- batcher xs batch_size ;;
   gen_b <- batcher ys batch_size ;;
   Some (zip_batches gen_a gen_b)).
Proof.
  intros Hlen. unfold batcher.
  destruct (batch_size <? 0); [reflexivity|].
  cbn [bind]. f_equal. apply batcher_loop_combine. exact Hlen.
Qed.

Lemma batcher_zip_aligned_witness :
  batcher (combine [10; 11; 12] [20; 21; 22]) 2 =
  (gen_a <- batcher [10; 11; 12] 2 ;;
   gen_b <- batcher [20; 21; 22] 2 ;;
   Some (zip_batches gen_a gen_b)).
Proof.
  apply (batcher_zip_aligned [10; 11; 12] [20; 21; 22] 2). reflexivity.
Defined.

Lemma take_arange {A : Type} (a : list A) :
  take a (arange (len a)) = Some a.
Proof.
  unfold arange, len. rewrite Nat2Z.id.
  assert (G : forall (pre post : list A),
             take (pre ++ post)
               (map Z.of_nat (seq (length pre) (length post))) = Some post).
  { intros pre post. revert pre.
    induction post as [|x post IH]; intros pre; [reflexivity|].
    cbn [length seq map take].
    rewrite np_index_nonneg
      by (unfold len; rewrite length_app; cbn [length]; lia).
    rewrite Nat2Z.id, nth_error_app2, Nat.sub_diag by lia.
    cbn [nth_error bind].
    specialize (IH (pre ++ [x])).
    rewrite <- app_assoc, length_app in IH. cbn [app length] in IH.
    replace (length pre + 1)%nat with (S (length pre)) in IH by lia.
    rewrite IH. reflexivity. }
  exact (G [] a).
Qed.

Lemma take_permutation {A : Type} (a : list A) (idx idx' : list Z) :
  Permutation idx idx' ->
  forall b : list A,
    take a idx = Some b ->
    exists b' : list A, take a idx' = Some b' /\ Permutation b b'.
Proof.
  induction 1 as [|i l l' Hp IH|i j l|l l' l'' Hp1 IH1 Hp2 IH2];
    intros b Hb.
  - exists b. split; [exact Hb|]. cbn in Hb. injection Hb as <-.
    constructor.
  - cbn [take] in *. destruct (np_index a i) as [x|]; [|discriminate].
    cbn [bind] in *. destruct (take a l) as [xs|]; [|discriminate].
    cbn [bind] in Hb. injection Hb as <-.
    destruct (IH xs eq_refl) as (xs' & E & P).
    rewrite E. exists (x :: xs'). split; [reflexivity|].
    constructor. exact P.
  - cbn [take] in *. destruct (np_index a j) as [y|]; [|discriminate].
    cbn [bind] in *. destruct (np_index a i) as [x|]; [|discriminate].
    cbn [bind] in *. destruct (take a l) as [xs|]; [|discriminate].
    cbn [bind] in *. injection Hb as <-.
    exists (x :: y :: xs). split; [reflexivity|]. constructor.
  - destruct (IH1 b Hb) as (b1 & E1 & P1).
    destruct (IH2 b1 E1) as (b2 & E2 & P2).
    exists b2. split; [exact E2|]. eapply Permutation_trans; eassumption.
Qed.

(** X8: when [shuffle_ind] is a rearrangement of [arange(len(a))] (what
    [np.random.shuffle] leaves in it) and [batch_size >= 1], the batches of
    [a[shuffle_ind]] put end to end are a rearrangement of [a]: an epoch
    meets every entry exactly once. *)
Theorem epoch_batches_cover {A : Type} (a : list A) (shuffle_ind : list Z)
  (batch_size : Z) :
  Permutation (arange (len a)) shuffle_ind ->
  1 <= batch_size ->
  exists chunks : list (list A),
    epoch_batches a shuffle_ind batch_size = Some chunks /\
    Permutation a (concat chunks).
Proof.
  intros Hperm HB.
  destruct (take_permutation a _ _ Hperm a (take_arange a))
    as (b & Eb & Pb).
  unfold epoch_batches. rewrite Eb. cbn [bind]. unfold batcher.
  destruct (batch_size <? 0) eqn:Hneg; [lia|].
  destruct (Z.to_nat batch_size) as [|n] eqn:Hn; [lia|].
  eexists. split; [reflexivity|].
  rewrite batcher_loop_concat. exact Pb.
Qed.

Lemma epoch_batches_cover_witness :
  exists chunks : list (list Z),
    epoch_batches [10; 11; 12] [2; 0; 1] 2 = Some chunks /\
    Permutation [10; 11; 12] (concat chunks).
Proof.
  apply (epoch_batches_cover [10; 11; 12] [2; 0; 1] 2).
  - cbn. apply Permutation_sym.
    apply (perm_trans (l' := [0; 2; 1])); repeat constructor.
  - lia.
Defined.

Lemma sum_permutation (l l' : list R) :
  Permutation l l' -> fold_right Rplus 0%R l = fold_right Rplus 0%R l'.
Proof.
  induction 1; cbn [fold_right]; lra.
Qed.

Lemma np_mean_permutation (l l' : list R) :
  Permutation l l' -> Evaluator.np_mean l = Evaluator.np_mean l'.
Proof.
  intros Hp. unfold Evaluator.np_mean.
  destruct l as [|x l], l' as [|y l'].
  - reflexivity.
  - apply Permutation_nil in Hp. discriminate.
  - apply Permutation_sym, Permutation_nil in Hp. discriminate.
  - rewrite (sum_permutation _ _ Hp). unfold len.
    rewrite (Permutation_length Hp). reflexivity.
Qed.

(** X21: the average number of attempts reported for an epoch, computed
    from the batches of the shuffled counts, is the mean of all the counts
    of the epoch, whatever the shuffle and the batch size. *)
Theorem avg_nsamp_is_epoch_mean (n_sampled_preload : list Z)
  (shuffle_ind : list Z) (batch_size : Z) (batches : list (list Z)) :
  Permutation (arange (len n_sampled_preload)) shuffle_ind ->
  1 <= batch_size ->
  epoch_batches n_sampled_preload shuffle_ind batch_size = Some batches ->
  avg_nsamp batches = Evaluator.np_mean (map IZR n_sampled_preload).
Proof.
  intros Hperm HB H.
  destruct (take_permutation n_sampled_preload _ _ Hperm n_sampled_preload
              (take_arange n_sampled_preload)) as (b & Eb & Pb).
  unfold epoch_batches in H. rewrite Eb in H. cbn [bind] in H.
  unfold batcher in H.
  destruct (batch_size <? 0) eqn:Hneg; [lia|].
  destruct (Z.to_nat batch_size) as [|n] eqn:Hn; [lia|].
  injection H as <-. unfold avg_nsamp.
  rewrite batcher_loop_concat.
  apply np_mean_permutation. apply Permutation_map.
  apply Permutation_sym. exact Pb.
Qed.

Lemma avg_nsamp_is_epoch_mean_witness :
  avg_nsamp [[3; 1]; [2]] = Evaluator.np_mean (map IZR [1; 2; 3]).
Proof.
  apply (avg_nsamp_is_epoch_mean [1; 2; 3] [2; 0; 1] 2 [[3; 1]; [2]]).
  - cbn. apply Permutation_sym.
    apply (perm_trans (l' := [0; 2; 1])); repeat constructor.
  - lia.
  - reflexivity.
Defined.

End TrainingProps.

(** ** More on negative sampling *)

Module SamplerExtra.

Import Py Sparse Sampler SamplerProps.
Local Open Scope py_scope.

(** One turn of the loop. *)
Lemma sample_loop_unfold (n_items : Z) (pos : list Z) (cond : Z -> bool)
  (max_samples : Z) (neg : option Z) (n_sampled : Z) (g : Random.state) :
  sample_loop n_items pos cond max_samples neg n_sampled g =
  if Z_lt_dec n_sampled max_samples then
    match Random.randint 0 n_items g with
    | (None, g') => (None, g')
    | (Some d, g') =>
        if accepted pos cond d then (Some (d, n_sampled + 1), g')
        else sample_loop n_items pos cond max_samples (Some d)
               (n_sampled + 1) g'
    end
  else (d <- neg ;; Some (d, n_sampled), g).
Proof.
  funelim (sample_loop n_items pos cond max_samples neg n_sampled g);
    repeat match goal with
           | H : Z_lt_dec _ _ = _ |- _ => rewrite H
           | H : Random.randint _ _ _ = _ |- _ => rewrite H
           | H : accepted _ _ _ = _ |- _ => rewrite H
           end; reflexivity.
Qed.

Lemma sample_loop_first_accepted (n_items : Z) (pos : list Z)
  (cond : Z -> bool) (max_samples : Z) (tape : nat -> Z) (k : nat) :
  0 < n_items ->
  forall (neg : option Z) (n_sampled : Z) (c : nat),
    n_sampled + Z.of_nat k < max_samples ->
    (forall j : nat, (j < k)%nat -> accepted pos cond (tape (c + j)%nat) = false) ->
    accepted pos cond (tape (c + k)%nat) = true ->
    sample_loop n_items pos cond max_samples neg n_sampled
      (Random.mk tape c)
    = (Some (tape (c + k)%nat, n_sampled + Z.of_nat k + 1),
       Random.mk tape (S (c + k))).
Proof.
  intros Hitems. induction k as [|k IH]; intros neg n_sampled c Hcap Hrej Hacc.
  - rewrite sample_loop_unfold.
    destruct (Z_lt_dec n_sampled max_samples) as [_|Hn]; [|lia].
    unfold Random.randint. cbn [Random.tape Random.cursor].
    destruct (0 <? n_items) eqn:E; [|lia].
    rewrite Nat.add_0_r in Hacc. rewrite Hacc.
    rewrite Nat.add_0_r.
    replace (n_sampled + Z.of_nat 0 + 1) with (n_sampled + 1) by lia.
    reflexivity.
  - rewrite sample_loop_unfold.
    destruct (Z_lt_dec n_sampled max_samples) as [_|Hn]; [|lia].
    unfold Random.randint. cbn [Random.tape Random.cursor].
    destruct (0 <? n_items) eqn:E; [|lia].
    pose proof (Hrej 0%nat ltac:(lia)) as H0.
    rewrite Nat.add_0_r in H0. rewrite H0.
    rewrite (IH (Some (tape c)) (n_sampled + 1) (S c)).
    + replace (S c + k)%nat with (c + S k)%nat by lia.
      replace (n_sampled + 1 + Z.of_nat k + 1)
        with (n_sampled + Z.of_nat (S k) + 1) by lia.
      reflexivity.
    + lia.
    + intros j Hj. replace (S c + j)%nat with (c + S j)%nat by lia.
      apply Hrej. lia.
    + replace (S c + k)%nat with (c + S k)%nat by lia. exact Hacc.
Qed.

(** X9: [sample_neg] returns the first candidate handed out by the random
    source that is not a positive of the user and passes the predicate,
    together with its position in the sequence of draws, whenever that
    position is within the cap; it draws nothing beyond it. *)
Theorem sample_neg_first_accepted (n_items user_ind : Z)
  (interactions : csr_matrix) (max_samples : Z) (violating_cond : Z -> bool)
  (g : Random.state) (pos : list Z) (k : nat) :
  get_row_nz interactions user_ind = Some pos ->
  0 < n_items ->
  Z.of_nat k < max_samples ->
  (forall j : nat, (j < k)%nat ->
      accepted pos violating_cond
        (Random.tape g (Random.cursor g + j)%nat) = false) ->
  accepted pos violating_cond
    (Random.tape g (Random.cursor g + k)%nat) = true ->
  sample_neg n_items user_ind interactions max_samples violating_cond g
  = (Some (Random.tape g (Random.cursor g + k)%nat, Z.of_nat k + 1),
     Random.mk (Random.tape g) (S (Random.cursor g + k))).
Proof.
  intros Hrow Hitems Hcap Hrej Hacc.
  rewrite (sample_neg_loop _ _ _ _ _ _ _ Hrow).
  destruct g as [tape c]. cbn [Random.tape Random.cursor] in *.
  rewrite (sample_loop_first_accepted n_items pos violating_cond
             max_samples tape k Hitems None 0 c); try assumption.
  reflexivity.
Qed.

(** X10: [sample_neg] raises exactly when the user's row cannot be read,
    when [max_samples <= 0] (the loop is not entered and the local
    [neg_item_ind] is unbound at the [return]) or when the catalog is
    empty ([randint] rejects the range); and when it raises it has drawn
    nothing from the random source. *)
Theorem sample_neg_raises_iff (n_items user_ind : Z)
  (interactions : csr_matrix) (max_samples : Z) (violating_cond : Z -> bool)
  (g : Random.state) :
  (fst (sample_neg n_items user_ind interactions max_samples
          violating_cond g) = None <->
   get_row_nz interactions user_ind = None \/
   max_samples <= 0 \/ n_items <= 0) /\
  (fst (sample_neg n_items user_ind interactions max_samples
          violating_cond g) = None ->
   snd (sample_neg n_items user_ind interactions max_samples
          violating_cond g) = g).
Proof.
  unfold sample_neg.
  destruct (get_row_nz interactions user_ind) as [pos|] eqn:Hrow.
  2:{ cbn. split; [|reflexivity]. split; [intros _; left|]; reflexivity. }
  pose proof (sample_loop_spec n_items pos violating_cond max_samples
                None 0 g) as Hspec. cbn zeta in Hspec.
  rewrite sample_loop_unfold in *.
  destruct (Z_lt_dec 0 max_samples) as [Hpos|Hnpos].
  - unfold Random.randint in *.
    destruct (0 <? n_items) eqn:Hitems.
    + destruct Hspec as (_ & _ & _ & Hres).
      match type of Hres with
      | match fst ?r with _ => _ end =>
          destruct (fst r) as [[d n]|] eqn:Efst
      end.
      * split; [|discriminate]. split; [discriminate|].
        intros [H|[H|H]]; [discriminate|lia|lia].
      * destruct Hres as [[_ H]|[H _]]; lia.
    + cbn. split; [|reflexivity]. split; [intros _|reflexivity].
      right. right. lia.
  - cbn. split; [|reflexivity]. split; [intros _|reflexivity].
    right. left. lia.
Qed.

(** X17: Python's wrap-around of negative indices makes the user id [-1]
    readable on every matrix whose row pointers start at 0: its row is
    read as empty, so [sample_neg] does not raise for it but returns the
    very first candidate drawn, after one attempt. *)
Theorem sample_neg_user_minus_one (n_items : Z) (interactions : csr_matrix)
  (rest : list Z) (max_samples : Z) (g : Random.state) :
  indptr interactions = 0 :: rest ->
  1 <= max_samples ->
  1 <= n_items ->
  get_row_nz interactions (-1) = Some [] /\
  sample_neg n_items (-1) interactions max_samples default_violating_cond g
  = (Some (Random.tape g (Random.cursor g), 1),
     Random.mk (Random.tape g) (S (Random.cursor g))).
Proof.
  intros Hptr Hmax Hitems.
  assert (Hrow : get_row_nz interactions (-1) = Some []).
  { unfold get_row_nz. rewrite Hptr.
    set (a := 0 :: rest).
    assert (Hlen : 1 <= len a) by (unfold len, a; cbn [List.length]; lia).
    assert (Elast : exists last, np_index a (-1) = Some last).
    { unfold np_index.
      replace ((0 <=? -1) && (-1 <? len a)) with false by reflexivity.
      replace ((- len a <=? -1) && (-1 <? 0)) with true
        by (symmetry; apply andb_true_iff; split;
            [apply Z.leb_le; lia|reflexivity]).
      destruct (nth_error a (Z.to_nat (-1 + len a))) as [last|] eqn:El;
        [exists last; reflexivity|].
      apply nth_error_None in El. unfold len in *. lia. }
    destruct Elast as [last ->]. cbn [bind].
    replace (-1 + 1) with 0 by lia.
    assert (Efirst : np_index a 0 = Some 0).
    { unfold np_index.
      replace ((0 <=? 0) && (0 <? len a)) with true
        by (symmetry; apply andb_true_iff; split;
            [reflexivity|apply Z.ltb_lt; lia]).
      reflexivity. }
    rewrite Efirst. cbn [bind]. f_equal.
    unfold slice.
    assert (Hstop : slice_bound (len (indices interactions)) 0 = 0).
    { unfold slice_bound. cbn [Z.ltb Z.compare]. apply Z.min_l.
      unfold len. apply Nat2Z.is_nonneg. }
    assert (Hstart : 0 <= slice_bound (len (indices interactions)) last).
    { unfold slice_bound, len. destruct (last <? 0) eqn:E; lia. }
    rewrite Hstop.
    replace (Z.to_nat (0 - slice_bound (len (indices interactions)) last))
      with 0%nat by lia.
    reflexivity. }
  split; [exact Hrow|].
  unfold sample_neg. rewrite Hrow. rewrite sample_loop_unfold.
  destruct (Z_lt_dec 0 max_samples) as [_|H]; [|lia].
  unfold Random.randint. destruct (0 <? n_items) eqn:E; [|lia].
  reflexivity.
Qed.

Lemma sample_neg_first_accepted_witness :
  sample_neg 4 0 Examples.interactions 100 default_violating_cond
    Examples.cycling
  = (Some (Random.tape Examples.cycling
             (Random.cursor Examples.cycling + 1)%nat, Z.of_nat 1 + 1),
     Random.mk (Random.tape Examples.cycling)
       (S (Random.cursor Examples.cycling + 1))).
Proof.
  apply (sample_neg_first_accepted 4 0 Examples.interactions 100
           default_violating_cond Examples.cycling [0; 2] 1).
  - reflexivity.
  - lia.
  - lia.
  - intros j Hj. assert (j = 0%nat) as -> by lia. reflexivity.
  - reflexivity.
Defined.

Lemma sample_neg_user_minus_one_witness :
  get_row_nz Examples.interactions (-1) = Some [] /\
  sample_neg 4 (-1) Examples.interactions 100 default_violating_cond
    Examples.cycling
  = (Some (Random.tape Examples.cycling (Random.cursor Examples.cycling), 1),
     Random.mk (Random.tape Examples.cycling)
       (S (Random.cursor Examples.cycling))).
Proof.
  apply (sample_neg_user_minus_one 4 Examples.interactions [2; 3] 100
           Examples.cycling); [reflexivity|lia|lia].
Defined.

End SamplerExtra.

(** ** Sampling a negative for every interaction *)

Module PreloadProps.

Import Py Sparse Sampler SamplerProps SamplerExtra Preload.
Local Open Scope py_scope.

(** What one call of [sample_neg] returns and consumes, for a readable row,
    a positive cap and a non-empty catalog. *)
Lemma sample_neg_post (n_items user_ind : Z) (interactions : csr_matrix)
  (max_samples : Z) (cond : Z -> bool) (tape : nat -> Z) (c : nat)
  (pos : list Z) :
  get_row_nz interactions user_ind = Some pos ->
  1 <= max_samples -> 1 <= n_items ->
  exists (d n : Z) (c' : nat),
    sample_neg n_items user_ind interactions max_samples cond
      (Random.mk tape c) = (Some (d, n), Random.mk tape c') /\
    1 <= n <= max_samples /\
    Z.of_nat c' = Z.of_nat c + n /\
    d = tape (c' - 1)%nat /\
    (n < max_samples -> accepted pos cond d = true).
Proof.
  intros Hrow Hmax Hitems.
  rewrite (sample_neg_loop _ _ _ _ _ _ _ Hrow).
  pose proof (sample_loop_spec n_items pos cond max_samples None 0
                (Random.mk tape c)) as Hspec.
  cbn zeta in Hspec.
  destruct (sample_loop n_items pos cond max_samples None 0
              (Random.mk tape c)) as [res [tape' c']].
  cbn [fst snd Random.tape Random.cursor] in Hspec.
  destruct Hspec as (Ht & Hc & _ & Hres). subst tape'.
  destruct res as [[d n]|].
  - destruct Hres as [Hin _].
    destruct (Hin ltac:(lia)) as (Hn & Hcur & Hd & Hcnt & Hacc).
    exists d, n, c'. repeat split; try lia; assumption.
  - destruct Hres as [[_ H]|[H _]]; lia.
Qed.

(** Running a step that always returns and only moves the cursor, over a
    whole list. *)
Lemma collect_post {X Y : Type}
  (f : X -> Random.state -> option Y * Random.state)
  (tape : nat -> Z) (Q : X -> Y -> Prop) (weight : Y -> Z) (xs : list X) :
  (forall (x : X) (c : nat), In x xs ->
      exists (y : Y) (c' : nat),
        f x (Random.mk tape c) = (Some y, Random.mk tape c') /\
        Q x y /\ Z.of_nat c' = Z.of_nat c + weight y) ->
  forall c : nat,
    exists (ys : list Y) (c' : nat),
      collect f xs (Random.mk tape c) = (Some ys, Random.mk tape c') /\
      Forall2 Q xs ys /\
      Z.of_nat c' = Z.of_nat c + fold_right Z.add 0 (map weight ys).
Proof.
  induction xs as [|x rest IH]; intros Hstep c.
  - exists [], c. cbn. repeat split; [constructor|lia].
  - destruct (Hstep x c (or_introl eq_refl)) as (y & c1 & E1 & Hq & Hc1).
    destruct (IH (fun x' c0 Hin => Hstep x' c0 (or_intror Hin)) c1)
      as (ys & c2 & E2 & Hqs & Hc2).
    exists (y :: ys), c2. cbn [collect]. rewrite E1, E2.
    split; [reflexivity|]. split; [constructor; assumption|].
    cbn [map fold_right]. lia.
Qed.

(** X11: [preload] (the notebook without WARP) raises when there is no
    interaction at all; with at least one, every user of which has a
    readable row, a catalog of [n_items >= 1] items and a random source
    within its range, it returns one (negative item, attempt count) pair
    per interaction, in order, with the item in the catalog, the count in
    [1 .. 1000], the item outside the user's positives whenever the count
    is below 1000, and the random source advanced by exactly the sum of
    the counts. *)
Theorem preload_one_pair_per_interaction (n_items : Z) (train : csr_matrix)
  (nnz_users : list Z) (g : Random.state) :
  1 <= n_items ->
  Random.draws_in 0 n_items g ->
  (forall uid : Z, In uid nnz_users -> get_row_nz train uid <> None) ->
  (nnz_users = [] -> fst (preload n_items train nnz_users g) = None) /\
  (nnz_users <> [] ->
   exists (pairs : list (Z * Z)) (g' : Random.state),
     preload n_items train nnz_users g
       = (Some (map fst pairs, map snd pairs), g') /\
     Forall2 (fun uid p =>
                0 <= fst p < n_items /\
                1 <= snd p <= preload_max_samples /\
                (snd p < preload_max_samples ->
                 forall pos : list Z,
                   get_row_nz train uid = Some pos ->
                   contains pos (fst p) = false))
             nnz_users pairs /\
     Random.tape g' = Random.tape g /\
     Z.of_nat (Random.cursor g')
       = Z.of_nat (Random.cursor g) + fold_right Z.add 0 (map snd pairs)).
Proof.
  intros Hitems Hdraws Hrows. split.
  - intros ->. reflexivity.
  - intros Hne. destruct g as [tape c].
    cbn [Random.tape Random.cursor].
    destruct (collect_post
                (fun uid => sample_neg n_items uid train preload_max_samples
                              default_violating_cond)
                tape
                (fun uid p =>
                   0 <= fst p < n_items /\
                   1 <= snd p <= preload_max_samples /\
                   (snd p < preload_max_samples ->
                    forall pos : list Z,
                      get_row_nz train uid = Some pos ->
                      contains pos (fst p) = false))
                snd nnz_users) with (c := c) as (pairs & c' & E & Hq & Hc).
    { intros uid c0 Hin.
      destruct (get_row_nz train uid) as [pos|] eqn:Hrow;
        [|exfalso; exact (Hrows uid Hin Hrow)].
      destruct (sample_neg_post n_items uid train preload_max_samples
                  default_violating_cond tape c0 pos Hrow)
        as (d & n & c1 & Es & Hn & Hc1 & Hd & Hacc);
        [unfold preload_max_samples; lia|exact Hitems|].
      exists (d, n), c1. split; [exact Es|]. cbn [fst snd].
      split; [|exact Hc1].
      split; [rewrite Hd; apply (Hdraws (c1 - 1)%nat)|].
      split; [exact Hn|].
      intros Hlt pos' Hpos'. injection Hpos' as <-.
      apply accepted_true_iff in Hacc; [|exact Hlt]. tauto. }
    exists pairs, (Random.mk tape c'). unfold preload. rewrite E.
    destruct pairs as [|p pairs].
    + inversion Hq; subst. contradiction.
    + split; [reflexivity|]. split; [exact Hq|]. split; [reflexivity|].
      exact Hc.
Qed.

(** One turn of the loop with a predicate that may raise. *)
Lemma sample_loop_exn_unfold (n_items : Z) (pos : list Z)
  (cond : Z -> option bool) (max_samples : Z) (neg : option Z)
  (n_sampled : Z) (g : Random.state) :
  sample_loop_exn n_items pos cond max_samples neg n_sampled g =
  if Z_lt_dec n_sampled max_samples then
    match Random.randint 0 n_items g with
    | (None, g') => (None, g')
    | (Some d, g') =>
        match accepted_exn pos cond d with
        | None => (None, g')
        | Some true => (Some (d, n_sampled + 1), g')
        | Some false =>
            sample_loop_exn n_items pos cond max_samples (Some d)
              (n_sampled + 1) g'
        end
    end
  else (d <- neg ;; Some (d, n_sampled), g).
Proof.
  funelim (sample_loop_exn n_items pos cond max_samples neg n_sampled g);
    repeat match goal with
           | H : Z_lt_dec _ _ = _ |- _ => rewrite H
           | H : Random.randint _ _ _ = _ |- _ => rewrite H
           | H : accepted_exn _ _ _ = _ |- _ => rewrite H
           end; reflexivity.
Qed.

(** While the predicate does not raise on what the random source hands
    out, the loop is the loop of [sample_neg] for the predicate's
    answers. *)
Lemma sample_loop_exn_agrees (n_items : Z) (pos : list Z)
  (cond : Z -> option bool) (answers : Z -> bool) (max_samples : Z)
  (neg : option Z) (n_sampled : Z) (g : Random.state) :
  (forall k : nat,
      accepted_exn pos cond (Random.tape g k)
      = Some (accepted pos answers (Random.tape g k))) ->
  sample_loop_exn n_items pos cond max_samples neg n_sampled g
  = sample_loop n_items pos answers max_samples neg n_sampled g.
Proof.
  funelim (sample_loop_exn n_items pos cond max_samples neg n_sampled g);
    intros Hag; rewrite sample_loop_unfold;
    repeat match goal with
           | H : Z_lt_dec _ _ = _ |- _ => rewrite H
           end;
    try reflexivity;
    match goal with
    | H : Random.randint _ _ _ = _ |- _ =>
        rewrite H; try reflexivity;
        apply randint_some in H; destruct H as (? & Hd & ->)
    end;
    pose proof (Hag (Random.cursor g)) as Hk; rewrite <- Hd in Hk;
    match goal with
    | H : accepted_exn _ _ _ = ?r |- _ =>
        lazymatch r with
        | Some (accepted _ _ _) => fail
        | _ => rewrite H in Hk
        end
    end;
    try discriminate Hk;
    injection Hk as <-; try reflexivity.
  match goal with
  | IH : forall answers : Z -> bool, _ -> sample_loop_exn _ _ _ _ _ _ _ = _
    |- _ => apply IH
  end.
  exact Hag.
Qed.

Lemma getrow_get_row_nz (m : csr_matrix) (i : Z) :
  Evaluator.getrow m i <> None -> get_row_nz m i <> None.
Proof.
  unfold Evaluator.getrow, get_row_nz.
  destruct (np_index (indptr m) i); cbn; [|tauto].
  destruct (np_index (indptr m) (i + 1)); cbn; [discriminate|tauto].
Qed.

Lemma rows_nonzero_readable (m : csr_matrix) (row_ids : list Z) :
  forall entries : list (Z * Z),
    rows_nonzero m row_ids = Some entries ->
    forall u : Z, In u (map fst entries) -> get_row_nz m u <> None.
Proof.
  induction row_ids as [|i rest IH]; intros entries H u Hu.
  - injection H as <-. destruct Hu.
  - cbn [rows_nonzero] in H.
    destruct (Evaluator.getrow m i) as [row|] eqn:Hrow; [|discriminate].
    cbn [bind] in H.
    destruct (rows_nonzero m rest) as [others|] eqn:Ho; [|discriminate].
    cbn [bind] in H. injection H as <-.
    rewrite map_app in Hu. apply in_app_or in Hu. destruct Hu as [Hu|Hu].
    + unfold row_nonzero in Hu. rewrite map_map in Hu. cbn [fst] in Hu.
      apply in_map_iff in Hu. destruct Hu as (jv & <- & _).
      apply getrow_get_row_nz. congruence.
    + exact (IH others eq_refl u Hu).
Qed.

Lemma ids_within_In (table : FactNet.tensor2) (ids : list Z) (i : Z) :
  Shape.ids_within table ids = true -> In i ids ->
  Shape.ids_within table [i] = true.
Proof.
  unfold Shape.ids_within. rewrite forallb_forall. intros H Hin.
  cbn. rewrite (H i Hin). reflexivity.
Qed.

(** X13: [sample_warp], on a model with rectangular tables that cover the
    catalog, once the interactions are listed and the positives scored,
    returns one (negative item, attempt count) pair per interaction, in
    order: the item is in the catalog, the count in [1 .. 100], the random
    source advances by the sum of the counts; and whenever the count is
    below 100 the item is not a positive of the user and [violation_warp]
    has accepted it against the score of the user's positive. *)
Theorem sample_warp_violating_triplets (n_items : Z)
  (interactions : csr_matrix) (net : FactNet.t) (g : Random.state)
  (width : nat) (nnz_users nnz_items : list Z) (pos_scores : list R) :
  1 <= n_items ->
  Random.draws_in 0 n_items g ->
  Shape.rectangular width (FactNet.user_embedding_layer net) = true ->
  Shape.rectangular width (FactNet.item_embedding_layer net) = true ->
  n_items <= len (FactNet.item_embedding_layer net) ->
  nonzero interactions = Some (nnz_users, nnz_items) ->
  FactNet.predict_score net nnz_users nnz_items = Some pos_scores ->
  exists (pairs : list (Z * Z)) (g' : Random.state),
    sample_warp n_items interactions net g
      = (Some (map fst pairs, map snd pairs), g') /\
    Forall2 (fun (up : Z * R) (p : Z * Z) =>
               0 <= fst p < n_items /\
               1 <= snd p <= default_max_samples /\
               (snd p < default_max_samples ->
                (forall pos : list Z,
                    get_row_nz interactions (fst up) = Some pos ->
                    contains pos (fst p) = false) /\
                violation_warp (fst p) [fst up] (snd up) net = Some true))
            (combine nnz_users pos_scores) pairs /\
    Random.tape g' = Random.tape g /\
    Z.of_nat (Random.cursor g')
      = Z.of_nat (Random.cursor g) + fold_right Z.add 0 (map snd pairs).
Proof.
  intros Hitems Hdraws Hru Hri Hcover Hnz Hps.
  destruct g as [tape c]. cbn [Random.tape Random.cursor].
  unfold sample_warp. rewrite Hnz, Hps.
  assert (Hreadable : forall u, In u nnz_users ->
             get_row_nz interactions u <> None).
  { unfold nonzero in Hnz.
    destruct (rows_nonzero interactions (arange (fst (shape interactions))))
      as [entries|] eqn:Erows; [|discriminate].
    cbn [bind] in Hnz. injection Hnz as <- _.
    exact (rows_nonzero_readable interactions _ entries Erows). }
  pose proof (ScoreProps.predict_score_users_within _ _ _ _ Hps) as Husers.
  match goal with
  | |- context [collect ?f _ _] =>
      destruct (collect_post f tape
        (fun (up : Z * R) (p : Z * Z) =>
           0 <= fst p < n_items /\
           1 <= snd p <= default_max_samples /\
           (snd p < default_max_samples ->
            (forall pos : list Z,
                get_row_nz interactions (fst up) = Some pos ->
                contains pos (fst p) = false) /\
            violation_warp (fst p) [fst up] (snd up) net = Some true))
        snd (combine nnz_users pos_scores)) with (c := c)
        as (pairs & c' & E & Hq & Hc)
  end.
  { intros [u ps] c0 Hin. cbn [fst snd].
    apply in_combine_l in Hin.
    destruct (get_row_nz interactions u) as [pos|] eqn:Hrow;
      [|exfalso; exact (Hreadable u Hin Hrow)].
    set (answers := fun d : Z =>
           match violation_warp d [u] ps net with
           | Some b => b
           | None => false
           end).
    assert (Hag : forall k : nat,
               accepted_exn pos
                 (fun d => violation_warp d [u] ps net) (tape k)
               = Some (accepted pos answers (tape k))).
    { intros k. unfold accepted_exn, accepted, answers.
      destruct (contains pos (tape k)); cbn [negb]; [reflexivity|].
      destruct (ScoreProps.predict_score_pair_some net width u (tape k)
                  Hru Hri (ids_within_In _ _ u Husers Hin)) as [s Es].
      { pose proof (Hdraws k) as Hk. cbn in Hk.
        unfold Shape.ids_within. cbn.
        destruct (0 <=? tape k) eqn:E0; [|lia].
        destruct (tape k <? len (FactNet.item_embedding_layer net)) eqn:E1;
          [reflexivity|lia]. }
      unfold violation_warp. rewrite Es. cbn [bind existsb].
      destruct (_ || false); reflexivity. }
    destruct (sample_neg_post n_items u interactions default_max_samples
                answers tape c0 pos Hrow)
      as (d & n & c1 & Es & Hn & Hc1 & Hd & Hacc);
      [unfold default_max_samples; lia|exact Hitems|].
    exists (d, n), c1. cbn [fst snd]. split.
    { unfold sample_neg_exn. rewrite Hrow.
      rewrite (sample_loop_exn_agrees n_items pos _ answers) by exact Hag.
      rewrite <- (sample_neg_loop n_items u interactions
                    default_max_samples answers _ pos Hrow).
      exact Es. }
    split; [|exact Hc1].
    split; [rewrite Hd; apply (Hdraws (c1 - 1)%nat)|].
    split; [exact Hn|].
    intros Hlt. apply accepted_true_iff in Hacc; [|exact Hlt].
    destruct Hacc as [Hnotpos Hans]. split.
    - intros pos' Hpos'. injection Hpos' as <-. exact Hnotpos.
    - unfold answers in Hans.
      destruct (violation_warp d [u] ps net) as [b|];
        [subst b; reflexivity|discriminate]. }
  exists pairs, (Random.mk tape c'). rewrite E.
  split; [reflexivity|]. split; [exact Hq|]. split; [reflexivity|].
  exact Hc.
Qed.

Lemma rows_nonzero_positives (m : csr_matrix) (row_ids : list Z) :
  forall entries : list (Z * Z),
    rows_nonzero m row_ids = Some entries ->
    forall e : Z * Z, In e entries ->
      exists pos : list Z,
        get_row_nz m (fst e) = Some pos /\ contains pos (snd e) = true.
Proof.
  induction row_ids as [|i rest IH]; intros entries H e He.
  - injection H as <-. destruct He.
  - cbn [rows_nonzero] in H.
    destruct (Evaluator.getrow m i) as [row|] eqn:Hrow; [|discriminate].
    cbn [bind] in H.
    destruct (rows_nonzero m rest) as [others|] eqn:Ho; [|discriminate].
    cbn [bind] in H. injection H as <-.
    apply in_app_or in He. destruct He as [He|He].
    + unfold row_nonzero in He. apply in_map_iff in He.
      destruct He as (jv & <- & Hjv). cbn [fst snd].
      apply filter_In in Hjv. destruct Hjv as [Hjv _].
      destruct jv as [j v]. apply in_combine_l in Hjv. cbn [fst].
      unfold Evaluator.getrow in Hrow. unfold get_row_nz.
      destruct (np_index (indptr m) i) as [start_idx|]; [|discriminate].
      cbn [bind] in *.
      destruct (np_index (indptr m) (i + 1)) as [stop_idx|];
        [|discriminate].
      cbn [bind] in *. injection Hrow as <-. cbn [fst] in Hjv.
      eexists. split; [reflexivity|].
      apply PyProps.contains_In. exact Hjv.
    + exact (IH others eq_refl e He).
Qed.

(** X20: the two arrays of [nonzero] have one length, and position by
    position they name a user and one of that user's positives, as
    [get_row_nz] reads them. *)
Theorem nonzero_lists_positives (m : csr_matrix)
  (nnz_users nnz_items : list Z) :
  nonzero m = Some (nnz_users, nnz_items) ->
  length nnz_users = length nnz_items /\
  (forall (k : nat) (u i : Z),
      nth_error nnz_users k = Some u -> nth_error nnz_items k = Some i ->
      exists pos : list Z,
        get_row_nz m u = Some pos /\ contains pos i = true).
Proof.
  unfold nonzero. intros H.
  destruct (rows_nonzero m (arange (fst (shape m)))) as [entries|] eqn:E;
    [|discriminate].
  cbn [bind] in H. injection H as <- <-.
  split; [rewrite !length_map; reflexivity|].
  intros k u i Hu Hi.
  rewrite nth_error_map in Hu, Hi.
  destruct (nth_error entries k) as [e|] eqn:Ee; [|discriminate].
  cbn in Hu, Hi. injection Hu as <-. injection Hi as <-.
  apply (rows_nonzero_positives m _ entries E e).
  eapply nth_error_In. exact Ee.
Qed.

Lemma nonzero_lists_positives_witness :
  length [0; 0; 1] = length [0; 2; 1] /\
  (forall (k : nat) (u i : Z),
      nth_error [0; 0; 1] k = Some u -> nth_error [0; 2; 1] k = Some i ->
      exists pos : list Z,
        get_row_nz Examples.interactions u = Some pos /\
        contains pos i = true).
Proof.
  apply (nonzero_lists_positives Examples.interactions [0; 0; 1] [0; 2; 1]).
  reflexivity.
Defined.

(** The example run without WARP: three interactions, five draws. *)
Example preload_example :
  preload 4 Examples.interactions [0; 0; 1] Examples.cycling
  = (Some ([1; 3; 0], [2; 2; 1]),
     Random.mk (Random.tape Examples.cycling) 5).
Proof. reflexivity. Qed.

Lemma preload_one_pair_per_interaction_witness :
  exists (pairs : list (Z * Z)) (g' : Random.state),
    preload 4 Examples.interactions [0; 0; 1] Examples.cycling
    = (Some (map fst pairs, map snd pairs), g').
Proof.
  destruct (preload_one_pair_per_interaction 4 Examples.interactions
              [0; 0; 1] Examples.cycling) as [_ H].
  - lia.
  - exact cycling_draws_in.
  - intros uid [<-|[<-|[<-|[]]]]; discriminate.
  - destruct H as (pairs & g' & E & _); [discriminate|].
    exists pairs, g'. exact E.
Defined.

Lemma violation_warp_example :
  violation_warp 1 [0] 0%R Examples.net = Some true.
Proof.
  unfold violation_warp.
  assert (E : FactNet.predict_score Examples.net [0] [1]
              = Some [(1 * 1 + 0)%R]) by reflexivity.
  rewrite E. cbn [bind existsb F32.fsub].
  rewrite (F32Props.fl_rounds_to (0 - 1) (-1)).
  - f_equal. unfold F32.gtb.
    destruct (Rlt_dec (-1) (1 * 1 + 0)) as [_|H]; [reflexivity|].
    exfalso. lra.
  - replace (0 - 1)%R with (-1)%R by lra.
    apply F32Props.is_float32_round, (F32Props.is_float32_Z (-1)).
    cbn. lia.
  - apply (F32Props.is_float32_Z (-1)). cbn. lia.
Qed.

Lemma sample_warp_violating_triplets_witness :
  exists (pairs : list (Z * Z)) (g' : Random.state),
    sample_warp 4 Examples.interactions Examples.net Examples.cycling
    = (Some (map fst pairs, map snd pairs), g') /\
    Forall2 (fun (up : Z * R) (p : Z * Z) =>
               0 <= fst p < 4 /\
               1 <= snd p <= default_max_samples /\
               (snd p < default_max_samples ->
                (forall pos : list Z,
                    get_row_nz Examples.interactions (fst up) = Some pos ->
                    contains pos (fst p) = false) /\
                violation_warp (fst p) [fst up] (snd up) Examples.net
                = Some true))
            (combine [0; 0; 1]
               [(1 * 0 + 0)%R; (1 * 2 + 0)%R; (2 * 1 + 0)%R]) pairs /\
    Random.tape g' = Random.tape Examples.cycling /\
    Z.of_nat (Random.cursor g')
    = Z.of_nat (Random.cursor Examples.cycling)
      + fold_right Z.add 0 (map snd pairs).
Proof.
  apply (sample_warp_violating_triplets 4 Examples.interactions
           Examples.net Examples.cycling 1 [0; 0; 1] [0; 2; 1]
           [(1 * 0 + 0)%R; (1 * 2 + 0)%R; (2 * 1 + 0)%R]).
  - lia.
  - exact cycling_draws_in.
  - reflexivity.
  - reflexivity.
  - cbn. lia.
  - reflexivity.
  - reflexivity.
Defined.

End PreloadProps.

(** ** The criterion on a batch *)

Module CriterionProps.

Import Py Float TripletLoss Criterion LossProps.
Import String.
Local Open Scope py_scope.
Local Open Scope R_scope.

Lemma forward_sigmoid_range (p n : R) : 0 < forward_sigmoid p n < 1.
Proof.
  unfold forward_sigmoid. rewrite sigmoid_alt.
  pose proof (exp_pos (- (p - n))) as He.
  split.
  - apply Rdiv_lt_0_compat; lra.
  - apply Rmult_lt_reg_r with (r := 1 + exp (- (p - n))); [lra|].
    unfold Rdiv. rewrite Rmult_assoc, Rinv_l by lra. lra.
Qed.

Lemma forward_hinge_nonneg (p n : R) : 0 <= forward_hinge p n.
Proof.
  unfold forward_hinge, clamp_min.
  destruct (Rlt_dec (1 + n - p) 0); lra.
Qed.

Lemma loss_d_cases (key : String.string) (base : R -> R -> R) :
  loss_d key = Some base -> base = forward_sigmoid \/ base = forward_hinge.
Proof.
  unfold loss_d.
  destruct (String.eqb key "sigmoid"%string);
    [intros H; injection H as <-; tauto|].
  destruct (String.eqb key "hinge"%string);
    [intros H; injection H as <-; tauto|].
  discriminate.
Qed.

Lemma loss_d_nonneg (key : String.string) (base : R -> R -> R) :
  loss_d key = Some base -> forall p n : R, 0 <= base p n.
Proof.
  intros H p n. destruct (loss_d_cases key base H) as [-> | ->].
  - left. apply forward_sigmoid_range.
  - apply forward_hinge_nonneg.
Qed.

Lemma map2_some {X Y W : Type} (f : X -> Y -> W) (xs : list X)
  (ys : list Y) :
  List.length xs = List.length ys ->
  exists ws : list W,
    map2 f xs ys = Some ws /\ List.length ws = List.length xs /\
    Forall (fun w => exists x y, w = f x y) ws.
Proof.
  revert ys. induction xs as [|x xs IH]; intros [|y ys] H;
    try discriminate H.
  - exists []. repeat split. constructor.
  - injection H as H. destruct (IH ys H) as (ws & E & Hl & Hf).
    exists (f x y :: ws). cbn. rewrite E. cbn.
    split; [reflexivity|]. split; [lia|].
    constructor; [exists x, y; reflexivity|exact Hf].
Qed.

Lemma sum_finite (l : list R) :
  fold_right tadd (Finite 0) (map Finite l)
  = Finite (fold_right Rplus 0 l).
Proof.
  induction l as [|x l IH]; [reflexivity|].
  cbn [map fold_right]. rewrite IH. reflexivity.
Qed.

Lemma mean_finite (l : list R) :
  l <> [] ->
  mean (map Finite l)
  = Finite (fold_right Rplus 0 l / IZR (len l)).
Proof.
  intros Hne. unfold mean. rewrite sum_finite. unfold tdiv, len.
  rewrite length_map.
  destruct (Req_dec_T (IZR (Z.of_nat (List.length l))) 0) as [E|_];
    [|reflexivity].
  apply eq_IZR in E. destruct l; [contradiction|cbn in E; lia].
Qed.

Lemma sum_bounds (lo hi : R) (l : list R) :
  Forall (fun x => lo <= x <= hi) l ->
  lo * IZR (len l) <= fold_right Rplus 0 l <= hi * IZR (len l).
Proof.
  unfold len. induction 1 as [|x l Hx Hl IH].
  - cbn. lra.
  - cbn [fold_right List.length]. rewrite Nat2Z.inj_succ, succ_IZR. lra.
Qed.

(** X14: without WARP weighting the criterion of a non-empty batch of
    pairs is a number: at least 0 for the hinge loss, between 0 and 1
    (both included) for the sigmoid loss; the attempt counts are not
    looked at. *)
Theorem forward_unweighted_range (pos_pred neg_pred : list R)
  (nsamp : list Z) :
  pos_pred <> [] ->
  List.length pos_pred = List.length neg_pred ->
  (forall self : Criterion.t,
      warp_weighting self = false -> loss self = "hinge"%string ->
      exists m : R,
        forward self pos_pred neg_pred nsamp = Some (Finite m) /\
        0 <= m) /\
  (forall self : Criterion.t,
      warp_weighting self = false -> loss self = "sigmoid"%string ->
      exists m : R,
        forward self pos_pred neg_pred nsamp = Some (Finite m) /\
        0 <= m <= 1).
Proof.
  intros Hne Hlen.
  assert (Hn : (0 < IZR (len pos_pred))).
  { apply IZR_lt. unfold len. destruct pos_pred; [contradiction|].
    cbn. lia. }
  split; intros self Hw Hkey; unfold forward, forward_premean;
    rewrite Hw, Hkey; cbn [loss_d String.eqb Ascii.eqb Bool.eqb bind].
  - destruct (map2_some forward_hinge pos_pred neg_pred Hlen)
      as (ws & E & Hl & Hf).
    rewrite E. cbn [bind].
    assert (Hws : ws <> []).
    { destruct ws; [|discriminate]. destruct pos_pred;
        [contradiction|discriminate Hl]. }
    rewrite (mean_finite ws Hws). eexists. split; [reflexivity|].
    assert (H0 : 0 <= fold_right Rplus 0 ws).
    { clear - Hf. induction Hf as [|w ws (p & n & ->) _ IH]; cbn.
      - lra.
      - pose proof (forward_hinge_nonneg p n). lra. }
    assert (Hlw : 0 < IZR (len ws)).
    { unfold len in *. rewrite Hl. exact Hn. }
    apply Rmult_le_pos; [exact H0|].
    left. apply Rinv_0_lt_compat. exact Hlw.
  - destruct (map2_some forward_sigmoid pos_pred neg_pred Hlen)
      as (ws & E & Hl & Hf).
    rewrite E. cbn [bind].
    assert (Hws : ws <> []).
    { destruct ws; [|discriminate]. destruct pos_pred;
        [contradiction|discriminate Hl]. }
    rewrite (mean_finite ws Hws). eexists. split; [reflexivity|].
    assert (Hb : Forall (fun x => 0 <= x <= 1) ws).
    { eapply Forall_impl; [|exact Hf].
      intros w (p & n & ->). pose proof (forward_sigmoid_range p n). lra. }
    pose proof (sum_bounds 0 1 ws Hb) as [Hlo Hhi].
    assert (Hlw : 0 < IZR (len ws)).
    { unfold len in *. rewrite Hl. exact Hn. }
    split.
    + apply Rmult_le_pos; [lra|]. left. apply Rinv_0_lt_compat. exact Hlw.
    + apply Rmult_le_reg_r with (r := IZR (len ws)); [exact Hlw|].
      unfold Rdiv. rewrite Rmult_assoc, Rinv_l by lra. lra.
Qed.

Lemma map2_results {X Y W : Type} (f : X -> Y -> W) (xs : list X)
  (ys : list Y) (ws : list W) :
  map2 f xs ys = Some ws ->
  List.length ws = List.length xs /\ List.length xs = List.length ys /\
  Forall (fun w => exists x y, w = f x y) ws.
Proof.
  revert ys ws. induction xs as [|x xs IH]; intros [|y ys] ws H;
    try discriminate H.
  - injection H as <-. repeat split. constructor.
  - cbn in H. destruct (map2 f xs ys) as [rest|] eqn:E; [|discriminate H].
    cbn in H. injection H as <-.
    destruct (IH ys rest E) as (H1 & H2 & H3).
    cbn. repeat split; try lia.
    constructor; [exists x, y; reflexivity|exact H3].
Qed.

(** Within the catalog the weight is a number between 0 and 1. *)
Lemma warp_weight_unit (N k : Z) :
  (2 <= N)%Z -> (1 <= k <= N - 1)%Z ->
  exists w : R, warp_weight N k = Finite w /\ 0 <= w <= 1.
Proof.
  intros HN Hk. rewrite warp_weight_closed by assumption.
  eexists. split; [reflexivity|].
  pose proof (ln_IZR_pos N HN) as HlnN.
  assert (Hq : (1 <= (N - 1) / k)%Z)
    by (apply Z.div_le_lower_bound; lia).
  assert (Hq' : ((N - 1) / k <= N)%Z).
  { assert ((N - 1) / k <= N - 1)%Z; [|lia].
    apply Z.div_le_upper_bound; nia. }
  pose proof (ln_IZR_nonneg _ Hq) as H0.
  pose proof (ln_IZR_le _ N (conj Hq Hq')) as H1.
  split.
  - apply Rmult_le_pos; [exact H0|]. left. apply Rinv_0_lt_compat. lra.
  - apply Rmult_le_reg_r with (r := ln (IZR N)); [exact HlnN|].
    unfold Rdiv. rewrite Rmult_assoc, Rinv_l by lra. lra.
Qed.

Lemma weighted_within (N : Z) :
  (2 <= N)%Z ->
  forall (nsamp : list Z) (losses : list R),
    List.length nsamp = List.length losses ->
    Forall (fun k => (1 <= k <= N - 1)%Z) nsamp ->
    Forall (fun l => 0 <= l) losses ->
    exists entries : list tfloat,
      map2 tmul (map (warp_weight N) nsamp) (map Finite losses)
        = Some entries /\
      Forall2 (fun e l => exists v : R, e = Finite v /\ 0 <= v <= l)
        entries losses.
Proof.
  intros HN nsamp.
  induction nsamp as [|k nsamp IH]; intros [|l losses] Hlen Hdom Hpos;
    try discriminate Hlen.
  - exists []. split; [reflexivity|constructor].
  - injection Hlen as Hlen.
    inversion Hdom as [|? ? Hk Hdom']; subst.
    inversion Hpos as [|? ? Hl Hpos']; subst.
    destruct (IH losses Hlen Hdom' Hpos') as (entries & E & Hf).
    destruct (warp_weight_unit N k HN Hk) as (w & Ew & Hw).
    exists (Finite (w * l) :: entries). cbn [map map2].
    rewrite E, Ew. cbn. split; [reflexivity|].
    constructor; [|exact Hf].
    exists (w * l). split; [reflexivity|]. nra.
Qed.

(** X15: with WARP weighting, a catalog of [N >= 2] items and attempt
    counts in [1 .. N-1], the loss of every triplet is its unweighted loss
    times a factor between 0 and 1: a finite number between 0 and the
    unweighted loss. *)
Theorem forward_premean_warp_scaled (self : Criterion.t) (N : Z)
  (base : R -> R -> R) (pos_pred neg_pred : list R) (nsamp : list Z)
  (losses : list R) :
  warp_weighting self = true ->
  n_items self = Some N ->
  (2 <= N)%Z ->
  loss_d (loss self) = Some base ->
  map2 base pos_pred neg_pred = Some losses ->
  List.length nsamp = List.length losses ->
  Forall (fun k => (1 <= k <= N - 1)%Z) nsamp ->
  exists entries : list tfloat,
    forward_premean self pos_pred neg_pred nsamp = Some entries /\
    Forall2 (fun e l => exists v : R, e = Finite v /\ 0 <= v <= l)
      entries losses.
Proof.
  intros Hw HN HN2 Hbase Hlosses Hlen Hdom.
  unfold forward_premean. rewrite Hw, HN, Hbase. cbn [bind].
  rewrite Hlosses. cbn [bind].
  apply weighted_within; try assumption.
  destruct (map2_results base pos_pred neg_pred losses Hlosses)
    as (_ & _ & Hf).
  eapply Forall_impl; [|exact Hf].
  intros l (p & n & ->). exact (loss_d_nonneg _ _ Hbase p n).
Qed.

Lemma tadd_low_l (x y : tfloat) : low x -> y <> PosInf -> low (tadd x y).
Proof.
  intros [-> | ->] Hy; destruct y; cbn; unfold low; tauto.
Qed.

Lemma tadd_low_r (x y : tfloat) : x <> PosInf -> low y -> low (tadd x y).
Proof.
  intros Hx [-> | ->]; destruct x; cbn; unfold low; tauto.
Qed.

Lemma tadd_no_pos_inf (x y : tfloat) :
  x <> PosInf -> y <> PosInf -> tadd x y <> PosInf.
Proof.
  intros Hx Hy. destruct x, y; cbn; congruence.
Qed.

Lemma sum_low (entries : list tfloat) :
  Forall (fun e => e <> PosInf) entries ->
  fold_right tadd (Finite 0) entries <> PosInf /\
  (Exists low entries -> low (fold_right tadd (Finite 0) entries)).
Proof.
  induction 1 as [|e entries He Hes [IH1 IH2]]; cbn [fold_right].
  - split; [discriminate|]. intros H. inversion H.
  - split; [apply tadd_no_pos_inf; assumption|].
    intros H. inversion H as [? ? Hlow|? ? Hex]; subst.
    + apply tadd_low_l; assumption.
    + apply tadd_low_r; [exact He|apply IH2; exact Hex].
Qed.

Lemma weighted_any (N : Z) :
  (2 <= N)%Z ->
  forall (nsamp : list Z) (losses : list R),
    List.length nsamp = List.length losses ->
    Forall (fun k => (1 <= k)%Z) nsamp ->
    Forall (fun l => 0 <= l) losses ->
    exists entries : list tfloat,
      map2 tmul (map (warp_weight N) nsamp) (map Finite losses)
        = Some entries /\
      List.length entries = List.length nsamp /\
      Forall (fun e => e <> PosInf) entries /\
      (Exists (fun k => (N - 1 < k)%Z) nsamp -> Exists low entries).
Proof.
  intros HN nsamp.
  induction nsamp as [|k nsamp IH]; intros [|l losses] Hlen Hdom Hpos;
    try discriminate Hlen.
  - exists []. repeat split; [constructor|]. intros H. inversion H.
  - injection Hlen as Hlen.
    inversion Hdom as [|? ? Hk Hdom']; subst.
    inversion Hpos as [|? ? Hl Hpos']; subst.
    destruct (IH losses Hlen Hdom' Hpos') as (entries & E & Hle & Hf & Hex).
    cbn [map map2]. rewrite E. cbn [bind].
    eexists. split; [reflexivity|]. split; [cbn; lia|].
    destruct (Z_le_gt_dec k (N - 1)) as [Hin|Hout].
    + destruct (warp_weight_unit N k HN (conj Hk Hin)) as (w & Ew & Hw).
      rewrite Ew. cbn [tmul]. split.
      * constructor; [discriminate|exact Hf].
      * intros H. inversion H as [? ? Hbad|? ? Hrest]; subst; [lia|].
        apply Exists_cons_tl. apply Hex. exact Hrest.
    + destruct (warp_weight_past_domain N k HN ltac:(lia)) as [_ Ew].
      rewrite Ew. cbn [tmul]. unfold scale_inf.
      assert (Hl' : low (if Rlt_dec 0 l then NegInf
                         else if Rlt_dec l 0 then PosInf else NaN)).
      { destruct (Rlt_dec 0 l); [left; reflexivity|].
        destruct (Rlt_dec l 0); [lra|right; reflexivity]. }
      split.
      * constructor; [|exact Hf]. destruct Hl' as [-> | ->]; discriminate.
      * intros _. apply Exists_cons_hd. exact Hl'.
Qed.

(** X16: [warp_weight] has no clamp, so with WARP weighting one attempt
    count beyond [N - 1] in a batch (all counts being at least 1) turns
    the criterion of the whole batch into minus infinity or NaN, for either
    loss. *)
Theorem forward_warp_past_catalog (self : Criterion.t) (N : Z)
  (base : R -> R -> R) (pos_pred neg_pred : list R) (nsamp : list Z) :
  warp_weighting self = true ->
  n_items self = Some N ->
  (2 <= N)%Z ->
  loss_d (loss self) = Some base ->
  List.length pos_pred = List.length neg_pred ->
  List.length nsamp = List.length pos_pred ->
  Forall (fun k => (1 <= k)%Z) nsamp ->
  Exists (fun k => (N - 1 < k)%Z) nsamp ->
  exists r : tfloat,
    forward self pos_pred neg_pred nsamp = Some r /\
    (r = NegInf \/ r = NaN).
Proof.
  intros Hw HN HN2 Hbase Hlen Hlen' Hdom Hex.
  unfold forward, forward_premean. rewrite Hw, HN, Hbase. cbn [bind].
  destruct (map2_some base pos_pred neg_pred Hlen) as (losses & E & Hl & Hf).
  rewrite E. cbn [bind].
  destruct (weighted_any N HN2 nsamp losses) as (entries & Ee & Hle & Hnp & Hlow).
  - lia.
  - exact Hdom.
  - eapply Forall_impl; [|exact Hf].
    intros l (p & n & ->). exact (loss_d_nonneg _ _ Hbase p n).
  - rewrite Ee. cbn [bind]. eexists. split; [reflexivity|].
    destruct (sum_low entries Hnp) as [_ Hsum].
    specialize (Hsum (Hlow Hex)).
    assert (Hn : 0 < IZR (len entries)).
    { apply IZR_lt. unfold len. rewrite Hle.
      destruct nsamp; [inversion Hex|cbn; lia]. }
    unfold mean.
    destruct Hsum as [-> | ->]; cbn [tdiv]; [|right; reflexivity].
    destruct (Rlt_dec (IZR (len entries)) 0); [lra|left; reflexivity].
Qed.

Lemma forward_unweighted_range_witness :
  (exists m : R,
      forward MoreExamples.hinge_plain [1; 0] [0; 0] [] = Some (Finite m) /\
      0 <= m) /\
  (exists m : R,
      forward MoreExamples.sigmoid_plain [1; 0] [0; 0] [] = Some (Finite m) /\
      0 <= m <= 1).
Proof.
  destruct (forward_unweighted_range [1; 0] [0; 0] []) as [Hh Hs].
  - discriminate.
  - reflexivity.
  - split.
    + apply Hh; reflexivity.
    + apply Hs; reflexivity.
Defined.

Lemma forward_premean_warp_scaled_witness :
  exists entries : list tfloat,
    forward_premean MoreExamples.hinge_warp [1] [0] [2%Z] = Some entries /\
    Forall2 (fun e l => exists v : R, e = Finite v /\ 0 <= v <= l)
      entries [forward_hinge 1 0].
Proof.
  apply (forward_premean_warp_scaled MoreExamples.hinge_warp 4
           forward_hinge [1] [0] [2%Z] [forward_hinge 1 0]).
  - reflexivity.
  - reflexivity.
  - lia.
  - reflexivity.
  - reflexivity.
  - reflexivity.
  - repeat constructor; lia.
Defined.

Lemma forward_warp_past_catalog_witness :
  exists r : tfloat,
    forward MoreExamples.hinge_warp [1] [0] [5%Z] = Some r /\
    (r = NegInf \/ r = NaN).
Proof.
  apply (forward_warp_past_catalog MoreExamples.hinge_warp 4
           forward_hinge [1] [0] [5%Z]).
  - reflexivity.
  - reflexivity.
  - lia.
  - reflexivity.
  - reflexivity.
  - reflexivity.
  - repeat constructor; lia.
  - constructor. lia.
Defined.

End CriterionProps.

(** ** More on the evaluation *)

Module EvaluatorExtra.

Import Py Sparse Float Evaluator EvaluatorProps.
Local Open Scope py_scope.

Section WithRoc.

Variable roc_auc_score : list bool -> list R -> option R.

Lemma map_opt_results {X Y : Type} (f : X -> option Y) (xs : list X) :
  forall ys : list Y,
    map_opt f xs = Some ys ->
    Forall (fun y => exists x, f x = Some y) ys.
Proof.
  induction xs as [|x xs IH]; intros ys H.
  - injection H as <-. constructor.
  - cbn in H. destruct (f x) as [y|] eqn:E; [|discriminate].
    cbn in H. destruct (map_opt f xs) as [rest|]; [|discriminate].
    cbn in H. injection H as <-.
    constructor; [exists x; exact E|apply IH; reflexivity].
Qed.

(** X18: when [roc_auc_score] keeps to [[0, 1]], whatever [full_auc]
    returns is either NaN (no user had a positive) or a number in
    [[0, 1]]. *)
Theorem full_auc_nan_or_unit_interval (net : FactNet.t)
  (ground_truth : csr_matrix) (v : tfloat) :
  (forall (y_true : list bool) (y_score : list R) (r : R),
      roc_auc_score y_true y_score = Some r -> (0 <= r <= 1)%R) ->
  full_auc roc_auc_score net ground_truth = Some v ->
  v = NaN \/ exists m : R, v = Finite m /\ (0 <= m <= 1)%R.
Proof.
  intros Hroc H. unfold full_auc in H.
  destruct (shape ground_truth) as [no_users no_items].
  destruct (auc_rows roc_auc_score net ground_truth no_items
              (arange no_items) (arange no_users) []) as [scores|] eqn:E;
    [|discriminate].
  cbn [bind] in H. injection H as <-.
  apply auc_rows_included in E. destruct E as (added & Hadd & ->).
  cbn [app]. apply map_opt_results in Hadd.
  assert (Hunit : Forall (fun s => (0 <= s <= 1)%R) added).
  { eapply Forall_impl; [|exact Hadd].
    intros s (uid & Hs). unfold user_auc in Hs.
    destruct (getrow ground_truth uid); [|discriminate].
    cbn [bind] in Hs.
    destruct (FactNet.predict_score net _ _); [|discriminate].
    cbn [bind] in Hs. eapply Hroc. exact Hs. }
  destruct added as [|s added]; [left; reflexivity|].
  right. unfold np_mean. eexists. split; [reflexivity|].
  pose proof (CriterionProps.sum_bounds 0 1 (s :: added) Hunit) as [Hlo Hhi].
  assert (Hn : (0 < IZR (len (s :: added)))%R).
  { apply IZR_lt. unfold len. cbn. lia. }
  split.
  - apply Rmult_le_pos; [lra|]. left. apply Rinv_0_lt_compat. exact Hn.
  - apply Rmult_le_reg_r with (r := IZR (len (s :: added))); [exact Hn|].
    unfold Rdiv. rewrite Rmult_assoc, Rinv_l by lra. lra.
Qed.

Lemma auc_rows_unscorable (net : FactNet.t) (ground_truth : csr_matrix)
  (no_items : Z) (user_id : Z) (user_ids : list Z) :
  In user_id user_ids ->
  FactNet.predict_score net (replicate user_id (len (arange no_items)))
    (arange no_items) = None ->
  forall scores : list R,
    auc_rows roc_auc_score net ground_truth no_items (arange no_items)
      user_ids scores = None.
Proof.
  intros Hin Hbad.
  induction user_ids as [|u rest IH]; intros scores; [destruct Hin|].
  cbn [auc_rows].
  destruct (getrow ground_truth u) as [row|]; [|reflexivity].
  cbn [bind].
  destruct (FactNet.predict_score net (replicate u (len (arange no_items)))
              (arange no_items)) as [preds|] eqn:Ep; [|reflexivity].
  cbn [bind].
  assert (Hrest : In user_id rest).
  { destruct Hin as [->|Hin]; [congruence|exact Hin]. }
  destruct (len (true_pids row) =? 0); [apply IH; exact Hrest|].
  destruct (roc_auc_score (dense_bool no_items row) preds); [|reflexivity].
  cbn [bind]. apply IH. exact Hrest.
Qed.

(** X19: [full_auc] scores every user before it looks at the row, so one
    user the model cannot score makes the whole evaluation raise, even a
    user without any positive. *)
Theorem full_auc_needs_every_user_scored (net : FactNet.t)
  (ground_truth : csr_matrix) (user_id : Z) :
  In user_id (arange (fst (shape ground_truth))) ->
  FactNet.predict_score net
    (replicate user_id (len (arange (snd (shape ground_truth)))))
    (arange (snd (shape ground_truth))) = None ->
  full_auc roc_auc_score net ground_truth = None.
Proof.
  unfold full_auc. destruct (shape ground_truth) as [no_users no_items].
  cbn [fst snd]. intros Hin Hbad.
  rewrite (auc_rows_unscorable net ground_truth no_items user_id _ Hin Hbad).
  reflexivity.
Qed.

End WithRoc.

Lemma full_auc_nan_or_unit_interval_witness :
  Finite ((1 / 2 + (1 / 2 + 0)) / IZR 2) = NaN \/
  exists m : R,
    Finite ((1 / 2 + (1 / 2 + 0)) / IZR 2) = Finite m /\ (0 <= m <= 1)%R.
Proof.
  apply (full_auc_nan_or_unit_interval (fun _ _ => Some (1 / 2)%R)
           Examples.net Examples.interactions).
  - intros y_true y_score r H. injection H as <-. lra.
  - reflexivity.
Defined.

Lemma full_auc_needs_every_user_scored_witness :
  full_auc (fun _ _ => Some 0%R) Examples.net MoreExamples.three_users
  = None.
Proof.
  apply (full_auc_needs_every_user_scored (fun _ _ => Some 0%R)
           Examples.net MoreExamples.three_users 2).
  - right. right. left. reflexivity.
  - reflexivity.
Defined.

End EvaluatorExtra.
